(** * Compilador: lexer, recursive-descent parser and code generator

    A shallow embedding of [Compilador.py].  Text is a [string]; its
    characters are the code points 0..255, and the character classes
    [\d], [\w], [\s] and the assertion [\b] are the ones Python's [re]
    computes for [str] patterns on that range.  Python integers are [Z].
    Exceptions are values of [exn]; the recursive-descent parser threads the
    parser object's two fields through a state-and-error monad.  The limits
    of the interpreter (depth of recursion, number of digits [int] and [str]
    convert) are not part of the model: its functions behave as the code
    does within them, and the statements that depend on that say so (see
    [within_limits]). *)

From Stdlib Require Import String Ascii List ZArith Bool Lia PeanoNat.
From Stdlib Require DecimalString DecimalZ DecimalN DecimalPos DecimalFacts.
Import ListNotations.

Local Open Scope list_scope.
Local Open Scope string_scope.

(* ================================================================== *)
(** ** Character classes *)

Definition code (c : ascii) : nat := nat_of_ascii c.

Definition between (lo hi : nat) (c : ascii) : bool :=
  (lo <=? code c)%nat && (code c <=? hi)%nat.

(** [\d] : the decimal digits. *)
Definition is_digit (c : ascii) : bool := between 48 57 c.

(** [[a-zA-Z_]] *)
Definition is_ident_start (c : ascii) : bool :=
  between 97 122 c || between 65 90 c || (code c =? 95)%nat.

(** [\w] : alphanumeric characters and the underscore.  Above 127 these are
    the letters and numeric characters of the Latin-1 block. *)
Definition is_word (c : ascii) : bool :=
  is_ident_start c || is_digit c
  || (code c =? 170)%nat || (code c =? 178)%nat || (code c =? 179)%nat
  || (code c =? 181)%nat || (code c =? 185)%nat || (code c =? 186)%nat
  || between 188 190 c || between 192 214 c || between 216 246 c
  || between 248 255 c.

(** [\s] : white space. *)
Definition is_space (c : ascii) : bool :=
  between 9 13 c || between 28 32 c || (code c =? 133)%nat || (code c =? 160)%nat.

(* ================================================================== *)
(** ** Regular-expression fragments used by [TOKENS] *)

(** A matcher tries one alternative of [TOKEN_REGEX] at the current
    position: it sees the character before the position (for [\b]) and the
    text from the position on, and answers with the matched text and what
    follows it. *)
Definition matcher := option ascii -> string -> option (string * string).

Definition word_opt (c : option ascii) : bool :=
  match c with Some a => is_word a | None => false end.

Definition head (s : string) : option ascii :=
  match s with String c _ => Some c | EmptyString => None end.

Fixpoint last_char (prev : option ascii) (s : string) : option ascii :=
  match s with
  | EmptyString => prev
  | String c s' => last_char (Some c) s'
  end.

(** [\b] between the character [prev] and the text [s]. *)
Definition at_boundary (prev : option ascii) (s : string) : bool :=
  xorb (word_opt prev) (word_opt (head s)).

Fixpoint strip_prefix (p s : string) : option string :=
  match p with
  | EmptyString => Some s
  | String a p' =>
      match s with
      | String b s' => if Ascii.eqb a b then strip_prefix p' s' else None
      | EmptyString => None
      end
  end.

(** Longest prefix of characters of a class, and the rest. *)
Fixpoint span (p : ascii -> bool) (s : string) : string * string :=
  match s with
  | String c s' =>
      if p c then let (l, r) := span p s' in (String c l, r)
      else (EmptyString, s)
  | EmptyString => (EmptyString, EmptyString)
  end.

(** [\bkw\b] *)
Definition re_keyword (kw : string) : matcher := fun prev s =>
  if at_boundary prev s then
    match strip_prefix kw s with
    | Some rest =>
        if at_boundary (last_char prev kw) rest then Some (kw, rest) else None
    | None => None
    end
  else None.

(** A literal such as [\+] or [==]. *)
Definition re_lit (l : string) : matcher := fun _ s =>
  match strip_prefix l s with
  | Some rest => Some (l, rest)
  | None => None
  end.

(** [c+] for a character class [c], greedy. *)
Definition re_plus (p : ascii -> bool) : matcher := fun _ s =>
  match span p s with
  | (EmptyString, _) => None
  | (l, r) => Some (l, r)
  end.

(** [[a-zA-Z_]\w*] *)
Definition re_ident : matcher := fun _ s =>
  match s with
  | String c s' =>
      if is_ident_start c
      then let (l, r) := span is_word s' in Some (String c l, r)
      else None
  | EmptyString => None
  end.

(* ================================================================== *)
(** ** Tokens and the lexer *)

(** A token is the pair (name, matched text), both strings as in Python. *)
Definition token : Type := string * string.

Definition TOKENS : list (string * matcher) :=
  [ ("IF", re_keyword "if");
    ("ELSE", re_keyword "else");
    ("NUMBER", re_plus is_digit);
    ("PLUS", re_lit "+");
    ("MINUS", re_lit "-");
    ("MULTIPLY", re_lit "*");
    ("DIVIDE", re_lit "/");
    ("LPAREN", re_lit "(");
    ("RPAREN", re_lit ")");
    ("LBRACE", re_lit "{");
    ("RBRACE", re_lit "}");
    ("SEMICOLON", re_lit ";");
    ("EQ", re_lit "==");
    ("NEQ", re_lit "!=");
    ("LT", re_lit "<");
    ("GT", re_lit ">");
    ("LE", re_lit "<=");
    ("GE", re_lit ">=");
    ("ASSIGN", re_lit "=");
    ("IDENTIFIER", re_ident);
    ("WHITESPACE", re_plus is_space) ].

(** The alternation [TOKEN_REGEX] at one position: the alternatives are
    tried in the order of the table and the first that matches wins. *)
Fixpoint alternation (alts : list (string * matcher))
    (prev : option ascii) (s : string) : option (string * string * string) :=
  match alts with
  | [] => None
  | (name, m) :: alts' =>
      match m prev s with
      | Some (v, rest) => Some (name, v, rest)
      | None => alternation alts' prev s
      end
  end.

Definition TOKEN_REGEX := alternation TOKENS.

(** [re.finditer] followed by the loop of [lex]: a match is consumed and the
    search resumes after it; where nothing matches the search moves one
    character on.  [prev] is the character before the current position. *)
Fixpoint lex_go (fuel : nat) (prev : option ascii) (s : string) : list token :=
  match fuel with
  | O => []
  | S fuel' =>
      match s with
      | EmptyString => []
      | String c s' =>
          match TOKEN_REGEX prev s with
          | Some (token_name, token_value, rest) =>
              let tokens := lex_go fuel' (last_char prev token_value) rest in
              if String.eqb token_name "WHITESPACE" then tokens
              else (token_name, token_value) :: tokens
          | None => lex_go fuel' (Some c) s'
          end
      end
  end.

Definition lex_from (prev : option ascii) (s : string) : list token :=
  lex_go (String.length s) prev s.

Definition lex (code : string) : list token := lex_from None code.

Definition nl : string := String (ascii_of_nat 10) EmptyString.

(* ================================================================== *)
(** ** Exceptions and results *)

Inductive exn : Type :=
| SyntaxError (msg : string)
| ValueError (msg : string)
| TypeError (msg : string)
| AttributeError (msg : string).

(** What a call does: return a value, raise, or (in this model only) use up
    the recursion budget. *)
Inductive result (A : Type) : Type :=
| Ok (a : A)
| Raise (e : exn)
| OutOfFuel.

Arguments Ok {A} a.
Arguments Raise {A} e.
Arguments OutOfFuel {A}.

(* ================================================================== *)
(** ** The AST *)

#[local] Set Warnings "-register-all".

Inductive node : Type :=
| Number (value : Z)
| Identifier (name : string)
| BinOp (left : node) (op : string) (right : node)
| Assignment (identifier : node) (value : node)
| IfStatement (condition : node) (then_branch : node) (else_branch : option node)
| Block (statements : list node).

Definition class_name (n : node) : string :=
  match n with
  | Number _ => "Number"
  | Identifier _ => "Identifier"
  | BinOp _ _ _ => "BinOp"
  | Assignment _ _ => "Assignment"
  | IfStatement _ _ _ => "IfStatement"
  | Block _ => "Block"
  end.

(* ================================================================== *)
(** ** [int] and [str] *)

(** [str] of an integer: its decimal form, with a minus sign when negative.
    The interpreter raises a [ValueError] instead when the digits are more
    than 4300; the model has no such limit. *)
Definition py_str (z : Z) : string := DecimalString.NilZero.string_of_int (Z.to_int z).

(** [int] on the texts [\d+] can match, the only ones it is called on after
    [lex]: non-empty runs of decimal digits.  On any other text the model
    raises the [ValueError] of an invalid literal, also where [int] would
    read a sign, white space around the digits or underscores between them;
    and it has no limit on the number of digits, where the interpreter
    raises a [ValueError] beyond 4300. *)
Definition py_int (s : string) : result Z :=
  match s with
  | EmptyString =>
      Raise (ValueError "invalid literal for int() with base 10: ''")
  | _ =>
      match DecimalString.NilEmpty.uint_of_string s with
      | Some d => Ok (Z.of_uint d)
      | None =>
          Raise (ValueError ("invalid literal for int() with base 10: '" ++ s ++ "'"))
      end
  end.

(* ================================================================== *)
(** ** The parser object and its monad *)

Record Parser : Type := mkParser {
  tokens : list token;
  current_token : option token
}.

Definition M (A : Type) : Type := Parser -> result (A * Parser).

Definition ret {A} (a : A) : M A := fun p => Ok (a, p).

Definition bind {A B} (m : M A) (k : A -> M B) : M B := fun p =>
  match m p with
  | Ok (a, p') => k a p'
  | Raise e => Raise e
  | OutOfFuel => OutOfFuel
  end.

Definition out_of_fuel {A} : M A := fun _ => OutOfFuel.

Definition lift {A} (r : result A) : M A := fun p =>
  match r with
  | Ok a => Ok (a, p)
  | Raise e => Raise e
  | OutOfFuel => OutOfFuel
  end.

Notation "x <- m ;; k" := (bind m (fun x => k))
  (at level 61, m at next level, right associativity).
Notation "m ;;; k" := (bind m (fun _ => k))
  (at level 61, right associativity).

Definition next_token_of (p : Parser) : Parser :=
  match tokens p with
  | [] => mkParser [] None
  | t :: ts => mkParser ts (Some t)
  end.

Definition next_token : M unit := fun p => Ok (tt, next_token_of p).

(** [Parser(tokens)] *)
Definition Parser_init (toks : list token) : Parser :=
  next_token_of (mkParser toks None).

Definition none_not_subscriptable : exn :=
  TypeError "'NoneType' object is not subscriptable".

Definition expect (token_type : string) : M unit := fun p =>
  match current_token p with
  | Some (k, v) =>
      if String.eqb k token_type then next_token p
      else Raise (SyntaxError
             ("Esperado '" ++ token_type ++ "' mas encontrado '" ++ v ++ "'"))
  | None =>
      Raise (SyntaxError
        ("Esperado '" ++ token_type ++ "' mas encontrado 'EOF'"))
  end.

Definition lookahead (token_type : string) (p : Parser) : bool :=
  match tokens p with
  | t :: _ => String.eqb (fst t) token_type
  | [] => false
  end.

Definition kind_in (k : string) (ks : list string) : bool :=
  existsb (String.eqb k) ks.

Definition expr_ops : list string :=
  ["PLUS"; "MINUS"; "EQ"; "NEQ"; "LT"; "GT"; "LE"; "GE"].

Definition term_ops : list string := ["MULTIPLY"; "DIVIDE"].

(** [expr], [term] and [factor], with their [while] loops as recursive
    functions carrying [result].  [fuel] bounds the depth of calls. *)
Fixpoint expr (fuel : nat) : M node :=
  match fuel with
  | O => out_of_fuel
  | S n => result <- term n ;; expr_loop n result
  end
with expr_loop (fuel : nat) (result : node) : M node :=
  match fuel with
  | O => out_of_fuel
  | S n => fun p =>
      match current_token p with
      | Some (k, op) =>
          if kind_in k expr_ops
          then (next_token ;;; r <- term n ;; expr_loop n (BinOp result op r)) p
          else Ok (result, p)
      | None => Ok (result, p)
      end
  end
with term (fuel : nat) : M node :=
  match fuel with
  | O => out_of_fuel
  | S n => result <- factor n ;; term_loop n result
  end
with term_loop (fuel : nat) (result : node) : M node :=
  match fuel with
  | O => out_of_fuel
  | S n => fun p =>
      match current_token p with
      | Some (k, op) =>
          if kind_in k term_ops
          then (next_token ;;; r <- factor n ;; term_loop n (BinOp result op r)) p
          else Ok (result, p)
      | None => Ok (result, p)
      end
  end
with factor (fuel : nat) : M node :=
  match fuel with
  | O => out_of_fuel
  | S n => fun p =>
      match current_token p with
      | None =>
          Raise (SyntaxError
            "Erro de sintaxe: token inesperado no final da entrada")
      | Some (k, v) =>
          if String.eqb k "NUMBER" then
            (value <- lift (py_int v) ;; next_token ;;; ret (Number value)) p
          else if String.eqb k "IDENTIFIER" then
            (next_token ;;; ret (Identifier v)) p
          else if String.eqb k "LPAREN" then
            (next_token ;;; result <- expr n ;; expect "RPAREN" ;;; ret result) p
          else
            Raise (SyntaxError
              ("Erro de sintaxe: token inesperado '" ++ v ++ "'"))
      end
  end.

Definition assignment (fuel : nat) : M node := fun p =>
  match current_token p with
  | None => Raise none_not_subscriptable
  | Some (_, name) =>
      (expect "IDENTIFIER" ;;; expect "ASSIGN" ;;;
       value <- expr fuel ;; expect "SEMICOLON" ;;;
       ret (Assignment (Identifier name) value)) p
  end.

Fixpoint statement (fuel : nat) : M node :=
  match fuel with
  | O => out_of_fuel
  | S n => fun p =>
      match current_token p with
      | None => Raise none_not_subscriptable
      | Some (k, _) =>
          if String.eqb k "IF" then if_statement n p
          else if String.eqb k "IDENTIFIER" && lookahead "ASSIGN" p
          then assignment n p
          else (e <- expr n ;; expect "SEMICOLON" ;;; ret e) p
      end
  end
with if_statement (fuel : nat) : M node :=
  match fuel with
  | O => out_of_fuel
  | S n =>
      expect "IF" ;;; expect "LPAREN" ;;;
      condition <- expr n ;;
      expect "RPAREN" ;;;
      then_branch <- block_or_statement n ;;
      fun p =>
        match current_token p with
        | Some (k, _) =>
            if String.eqb k "ELSE"
            then (next_token ;;; else_branch <- block_or_statement n ;;
                  ret (IfStatement condition then_branch (Some else_branch))) p
            else Ok (IfStatement condition then_branch None, p)
        | None => Ok (IfStatement condition then_branch None, p)
        end
  end
with block_or_statement (fuel : nat) : M node :=
  match fuel with
  | O => out_of_fuel
  | S n => fun p =>
      match current_token p with
      | Some (k, _) =>
          if String.eqb k "LBRACE"
          then (expect "LBRACE" ;;; statements <- block_loop n [] ;;
                expect "RBRACE" ;;; ret (Block statements)) p
          else statement n p
      | None => statement n p
      end
  end
with block_loop (fuel : nat) (statements : list node) : M (list node) :=
  match fuel with
  | O => out_of_fuel
  | S n => fun p =>
      match current_token p with
      | Some (k, _) =>
          if String.eqb k "RBRACE" then Ok (statements, p)
          else (s <- statement n ;; block_loop n (statements ++ [s])%list) p
      | None => Ok (statements, p)
      end
  end.

(** The loop of [parse]. *)
Fixpoint parse_loop (fuel : nat) (statements : list node) : M (list node) :=
  match fuel with
  | O => out_of_fuel
  | S n => fun p =>
      match current_token p with
      | Some _ => (s <- statement n ;; parse_loop n (statements ++ [s])%list) p
      | None => Ok (statements, p)
      end
  end.

(** Calls nest no deeper than three levels per token plus a constant (see
    [parse_terminates]). *)
Definition parse_fuel (p : Parser) : nat := 3 * List.length (tokens p) + 9.

Definition parse (p : Parser) : result node :=
  match parse_loop (parse_fuel p) [] p with
  | Ok (statements, _) => Ok (Block statements)
  | Raise e => Raise e
  | OutOfFuel => OutOfFuel
  end.

(* ================================================================== *)
(** ** The code generator *)

Definition rbind {A B} (r : result A) (k : A -> result B) : result B :=
  match r with
  | Ok a => k a
  | Raise e => Raise e
  | OutOfFuel => OutOfFuel
  end.

Fixpoint join (sep : string) (l : list string) : string :=
  match l with
  | [] => ""
  | [x] => x
  | x :: xs => x ++ sep ++ join sep xs
  end.

Fixpoint generate_code (n : node) : result string :=
  match n with
  | Number value => Ok (py_str value)
  | Identifier name => Ok name
  | BinOp l op r =>
      rbind (generate_code l) (fun left =>
      rbind (generate_code r) (fun right =>
      Ok ("(" ++ left ++ " " ++ op ++ " " ++ right ++ ")")))
  | Assignment target v =>
      match target with
      | Identifier name =>
          rbind (generate_code v) (fun value => Ok (name ++ " = " ++ value ++ ";"))
      | _ =>
          Raise (AttributeError
            ("'" ++ class_name target ++ "' object has no attribute 'name'"))
      end
  | IfStatement c t e =>
      rbind (generate_code c) (fun condition =>
      rbind (generate_code t) (fun then_branch =>
      rbind (match e with
             | Some e' => generate_code e'
             | None => Ok ""
             end) (fun else_branch =>
      Ok ("if (" ++ condition ++ ") {" ++ nl ++ "  " ++ then_branch ++ nl ++ "}"
          ++ (if String.eqb else_branch "" then ""
              else " else {" ++ nl ++ "  " ++ else_branch ++ nl ++ "}")))))
  | Block stmts =>
      rbind ((fix each (l : list node) : result (list string) :=
                match l with
                | [] => Ok []
                | stmt :: l' =>
                    rbind (generate_code stmt) (fun s =>
                    rbind (each l') (fun ss => Ok (s :: ss)))
                end) stmts)
            (fun parts => Ok (join nl parts))
  end.

(* ================================================================== *)
(** ** The pipeline of [compile_code] *)

Definition compile_code (code : string) : result string :=
  let tokens := lex code in
  let parser := Parser_init tokens in
  rbind (parse parser) generate_code.

(* ================================================================== *)
(** * Vocabulary of the statements *)

(** ** Texts *)

(** Every character of [s] is in the class [p]. *)
Fixpoint all_chars (p : ascii -> bool) (s : string) : bool :=
  match s with
  | EmptyString => true
  | String c s' => p c && all_chars p s'
  end.

(** The first character of [s] is in the class [p]. *)
Definition starts (p : ascii -> bool) (s : string) : bool :=
  match s with
  | String c _ => p c
  | EmptyString => false
  end.

(** [[a-zA-Z_]\w*] matches the whole of [s]. *)
Definition is_identifier (s : string) : bool :=
  match s with
  | String c s' => is_ident_start c && all_chars is_word s'
  | EmptyString => false
  end.

Definition operator_chars : list ascii :=
  list_ascii_of_string "+-*/(){};=<>!".

(** A character that occurs in no match of [TOKEN_REGEX]: it is not a word
    character, not white space, and not a character of an operator. *)
Definition unmatched (c : ascii) : bool :=
  negb (is_word c) && negb (is_space c)
  && negb (existsb (Ascii.eqb c) operator_chars).

(** A character that matches none of the patterns: [TOKEN_REGEX] finds no
    match in the text that consists of it.  Besides the unmatched characters
    these are ["!"] and the word characters that are neither digits nor
    characters of [[a-zA-Z_]]. *)
Definition matches_no_pattern (c : ascii) : bool :=
  match TOKEN_REGEX None (String c "") with
  | Some _ => false
  | None => true
  end.

Fixpoint is_prefix (p s : string) : bool :=
  match p, s with
  | EmptyString, _ => true
  | String a p', String b s' => Ascii.eqb a b && is_prefix p' s'
  | String _ _, EmptyString => false
  end.

(** [needle] occurs in [text]. *)
Fixpoint mentions (needle text : string) : bool :=
  is_prefix needle text
  || match text with
     | String _ text' => mentions needle text'
     | EmptyString => false
     end.

(** The message names one of the token kinds of [TOKENS]. *)
Definition names_a_token_kind (msg : string) : bool :=
  existsb (fun a => mentions (fst a) msg) TOKENS.

(** ** Matchers *)

(** A matcher is sound when what it returns splits the text and the matched
    part is not empty. *)
Definition sound (m : matcher) : Prop :=
  forall prev s v rest, m prev s = Some (v, rest) -> s = v ++ rest /\ v <> "".

Definition followed (c : ascii) (s2 : string)
    (r : option (string * string)) : option (string * string) :=
  match r with
  | Some (v, rest) => Some (v, rest ++ String c s2)
  | None => None
  end.

(** A matcher is unaffected by an unmatched character: on a text followed by
    one it matches what it matches on the text alone. *)
Definition stops_at_unmatched (m : matcher) : Prop :=
  forall prev s c s2, unmatched c = true ->
    m prev (s ++ String c s2) = followed c s2 (m prev s).

(** ** Tokens and operators *)

(** The operators of the language, and the token name of each. *)
Definition operator_table : list (string * string) :=
  [ ("PLUS", "+"); ("MINUS", "-"); ("MULTIPLY", "*"); ("DIVIDE", "/");
    ("EQ", "=="); ("NEQ", "!="); ("LT", "<"); ("GT", ">");
    ("LE", "<="); ("GE", ">=") ].

Definition operators : list string := map snd operator_table.

Definition is_operator (op : string) : bool := existsb (String.eqb op) operators.

Definition token_name (op : string) : string :=
  match find (fun e => String.eqb (snd e) op) operator_table with
  | Some e => fst e
  | None => ""
  end.

(** The operators the lexer turns into an operator token, with the name of
    the token: all of [operator_table] but ["<="] and [">="], which the
    alternation never reaches because ["<"] and [">"] come first. *)
Definition lexed_operators : list (string * string) :=
  [ ("PLUS", "+"); ("MINUS", "-"); ("MULTIPLY", "*"); ("DIVIDE", "/");
    ("EQ", "=="); ("NEQ", "!="); ("LT", "<"); ("GT", ">") ].

(** The second of two operators takes the middle operand when it is
    multiplicative and the first is not. *)
Definition binds_tighter (second first : string) : bool :=
  kind_in second term_ops && negb (kind_in first term_ops).

(** A token is consistent when, if it carries the name of an operator, its
    text is that operator. *)
Definition lexeme_ok (t : token) : bool :=
  forallb (fun e => implb (String.eqb (fst t) (fst e)) (String.eqb (snd t) (snd e)))
          operator_table.

(** The number of [else] tokens. *)
Definition else_tokens (ts : list token) : nat :=
  List.length (filter (fun t => String.eqb (fst t) "ELSE") ts).

(** ** The content of tokens and of trees *)

(** The tokens that carry content, as opposed to punctuation: numbers,
    identifiers, operators and [else]. *)
Inductive item : Type :=
| INumber (z : Z)
| IIdentifier (name : string)
| IOperator (op : string)
| IElse.

Definition token_item (t : token) : list item :=
  let (k, v) := t in
  if String.eqb k "NUMBER" then
    match py_int v with Ok z => [INumber z] | _ => [] end
  else if String.eqb k "IDENTIFIER" then [IIdentifier v]
  else if kind_in k expr_ops || kind_in k term_ops then [IOperator v]
  else if String.eqb k "ELSE" then [IElse]
  else [].

(** The content of a token sequence, in its order. *)
Definition trace (ts : list token) : list item := flat_map token_item ts.

(** The content of a tree, read from left to right: operands in their
    order, the statements of a [Block] in the order of its list, an else
    branch after a mark. *)
Fixpoint node_items (n : node) : list item :=
  match n with
  | Number z => [INumber z]
  | Identifier name => [IIdentifier name]
  | BinOp l op r => node_items l ++ [IOperator op] ++ node_items r
  | Assignment t v => node_items t ++ node_items v
  | IfStatement c t e =>
      node_items c ++ node_items t ++
      match e with Some e' => IElse :: node_items e' | None => [] end
  | Block l => flat_map node_items l
  end%list.

Definition is_else (i : item) : bool :=
  match i with IElse => true | _ => false end.

Definition count_else (l : list item) : nat := List.length (filter is_else l).

(** The number of [IfStatement] nodes with an else branch. *)
Fixpoint else_branches (n : node) : nat :=
  match n with
  | Number _ => 0
  | Identifier _ => 0
  | BinOp l _ r => else_branches l + else_branches r
  | Assignment t v => else_branches t + else_branches v
  | IfStatement c t e =>
      else_branches c + else_branches t +
      match e with Some e' => S (else_branches e') | None => 0 end
  | Block l => list_sum (map else_branches l)
  end.

(** The invariants of the data model: the target of an [Assignment] is an
    [Identifier] and the operator of a [BinOp] is one of the ten. *)
Fixpoint well_formed (n : node) : bool :=
  match n with
  | Number _ => true
  | Identifier _ => true
  | BinOp l op r => well_formed l && is_operator op && well_formed r
  | Assignment t v =>
      match t with Identifier _ => true | _ => false end && well_formed v
  | IfStatement c t e =>
      well_formed c && well_formed t &&
      match e with Some e' => well_formed e' | None => true end
  | Block l => forallb well_formed l
  end.

(** ** Runs of the parser *)

(** [refines r r'] : a run that ended with [r] under some budget ends with
    [r'] under a larger one. *)
Definition refines {A} (r r' : result A) : Prop := r = OutOfFuel \/ r = r'.

(** The run did not use up its budget. *)
Definition finishes {A} (r : result A) : Prop := r <> OutOfFuel.

(** The tokens not yet consumed. *)
Definition remaining (p : Parser) : list token :=
  match current_token p with
  | Some t => t :: tokens p
  | None => []
  end.

Definition pending (p : Parser) : nat := List.length (remaining p).

(** A state in which the loops of [expr] and [term] stop. *)
Definition no_operator (q : Parser) : bool :=
  match current_token q with
  | Some (k, _) => negb (kind_in k expr_ops || kind_in k term_ops)
  | None => true
  end.

(** [parsed least pre W p a q] : going from state [p] to state [q] consumed
    at least [least] tokens, the content of [a] is [pre] followed by the
    content of the consumed tokens, and [a] is well formed if [W] holds and
    the consumed tokens are consistent. *)
Definition parsed (least : nat) (pre : list item) (W : Prop)
    (p : Parser) (a : node) (q : Parser) : Prop :=
  exists c : list token,
    remaining p = (c ++ remaining q)%list /\
    least <= List.length c /\
    node_items a = (pre ++ trace c)%list /\
    (W -> forallb lexeme_ok c = true -> well_formed a = true).

(** ** Expressions the parser builds from text *)

(** The expression trees [expr] returns on lexed text: non-negative number
    literals, identifiers that are not keywords, and the operators the lexer
    recognises. *)
Inductive expression : node -> Prop :=
| expression_number z :
    (0 <= z)%Z -> expression (Number z)
| expression_identifier name :
    is_identifier name = true -> name <> "if" -> name <> "else" ->
    expression (Identifier name)
| expression_binop l name op r :
    expression l -> In (name, op) lexed_operators -> expression r ->
    expression (BinOp l op r).

(** The tokens of the fully parenthesised rendering of an expression. *)
Fixpoint expr_tokens (t : node) : list token :=
  match t with
  | Number z => [("NUMBER", py_str z)]
  | Identifier name => [("IDENTIFIER", name)]
  | BinOp l op r =>
      ("LPAREN", "(") :: expr_tokens l ++
      (token_name op, op) :: expr_tokens r ++ [("RPAREN", ")")]
  | _ => []
  end%list.

(** ** The shape of tokens *)

(** The kinds whose pattern is one fixed text that the alternation can
    reach, with the text. *)
Definition fixed_tokens : list (string * string) :=
  [ ("IF", "if"); ("ELSE", "else"); ("PLUS", "+"); ("MINUS", "-");
    ("MULTIPLY", "*"); ("DIVIDE", "/"); ("LPAREN", "("); ("RPAREN", ")");
    ("LBRACE", "{"); ("RBRACE", "}"); ("SEMICOLON", ";"); ("EQ", "==");
    ("NEQ", "!="); ("LT", "<"); ("GT", ">"); ("ASSIGN", "=") ].

(** The text of the token is all of what the pattern of its kind matches: a
    non-empty run of digits for [NUMBER], an identifier for [IDENTIFIER], the
    fixed text for the others; and the kind is none of [LE], [GE] and
    [WHITESPACE]. *)
Definition token_shape (t : token) : bool :=
  let (k, v) := t in
  if String.eqb k "NUMBER" then negb (String.eqb v "") && all_chars is_digit v
  else if String.eqb k "IDENTIFIER" then is_identifier v
  else existsb (fun e => String.eqb k (fst e) && String.eqb v (snd e))
               fixed_tokens.

(** A matcher is unaffected by the character [c] after the text. *)
Definition stops_before (c : ascii) (m : matcher) : Prop :=
  forall prev s s2, m prev (s ++ String c s2) = followed c s2 (m prev s).

(** The alternatives of [TOKEN_REGEX] before [WHITESPACE]. *)
Definition visible_tokens : list (string * matcher) := firstn 20 TOKENS.


(** ** Trees the generator renders *)

(** Every [Assignment] of the tree has an [Identifier] as its target. *)
Fixpoint targets_named (n : node) : bool :=
  match n with
  | Number _ => true
  | Identifier _ => true
  | BinOp l _ r => targets_named l && targets_named r
  | Assignment t v =>
      match t with Identifier _ => true | _ => false end && targets_named v
  | IfStatement c t e =>
      targets_named c && targets_named t &&
      match e with Some e' => targets_named e' | None => true end
  | Block l => forallb targets_named l
  end.

(** The generator expression of the [Block] case: the renderings of the
    statements, in order. *)
Fixpoint generate_each (l : list node) : result (list string) :=
  match l with
  | [] => Ok []
  | stmt :: l' =>
      rbind (generate_code stmt) (fun s =>
      rbind (generate_each l') (fun ss => Ok (s :: ss)))
  end.

(** ** Exceptions of the parser *)

Definition is_syntax_error (e : exn) : bool :=
  match e with SyntaxError _ => true | _ => false end.

(** The exceptions the parser raises by itself: a [SyntaxError], or the
    [TypeError] of subscripting [current_token] when it is [None]. *)
Definition is_parse_error (e : exn) : bool :=
  match e with
  | SyntaxError _ => true
  | TypeError msg => String.eqb msg "'NoneType' object is not subscriptable"
  | _ => false
  end.

(** If the run raises, the exception is in the class [P]. *)
Definition raises_only {A} (P : exn -> bool) (r : result A) : Prop :=
  forall e, r = Raise e -> P e = true.

(** [int] reads the text of the token if it is a [NUMBER]. *)
Definition number_ok (t : token) : bool :=
  if String.eqb (fst t) "NUMBER"
  then match py_int (snd t) with Ok _ => true | _ => false end
  else true.


(** ** The trees of the grammar *)

(** The trees of the rule [Expr]: numbers that are not negative,
    identifiers, and binary operations on such trees. *)
Fixpoint is_expression (n : node) : bool :=
  match n with
  | Number z => (0 <=? z)%Z
  | Identifier _ => true
  | BinOp l _ r => is_expression l && is_expression r
  | _ => false
  end.

(** The trees of the rule [Statement], and with [block_allowed] those of the
    rule [BlockOrStmt]: an expression, an assignment of an expression to an
    identifier, an [if] whose condition is an expression and whose branches
    are trees of [BlockOrStmt], or (for [BlockOrStmt] only) a [Block] of
    statements. *)
Fixpoint is_statement (block_allowed : bool) (n : node) : bool :=
  match n with
  | Assignment t v =>
      match t with Identifier _ => is_expression v | _ => false end
  | IfStatement c t e =>
      is_expression c && is_statement true t &&
      match e with Some e' => is_statement true e' | None => true end
  | Block l => block_allowed && forallb (is_statement false) l
  | _ => is_expression n
  end.

(** ** Tokens after the tokens of a parser *)

(** The parser object as it would be had [extra] followed the tokens it was
    made from. *)
Definition extend (p : Parser) (extra : list token) : Parser :=
  match current_token p with
  | Some t => mkParser (tokens p ++ extra) (Some t)
  | None => Parser_init extra
  end.

(** The first token is an [ELSE]. *)
Definition starts_else (ts : list token) : bool :=
  match ts with
  | t :: _ => String.eqb (fst t) "ELSE"
  | [] => false
  end.


(** ** Renderings *)

(** A run of digits without its leading zeros, but for the last digit. *)
Fixpoint strip_zeros (s : string) : string :=
  match s with
  | String c s' =>
      if Ascii.eqb c "0"
      then match s' with EmptyString => s | _ => strip_zeros s' end
      else s
  | EmptyString => EmptyString
  end.

(** A text in [k] pairs of parentheses. *)
Fixpoint wrap (k : nat) (s : string) : string :=
  match k with
  | O => s
  | S k' => "(" ++ wrap k' s ++ ")"
  end.

(** The tokens of a text in [k] pairs of parentheses. *)
Fixpoint wrap_tokens (k : nat) (ts : list token) : list token :=
  match k with
  | O => ts
  | S k' => (("LPAREN", "(") :: wrap_tokens k' ts ++ [("RPAREN", ")")])%list
  end.

(** ** The parts of [if_statement] *)

(** The end of [if_statement]: the test for [else] after the then branch,
    and the else branch. *)
Definition else_part (fuel : nat) (condition then_branch : node) : M node :=
  fun p =>
    match current_token p with
    | Some (k, _) =>
        if String.eqb k "ELSE"
        then (next_token ;;; else_branch <- block_or_statement fuel ;;
              ret (IfStatement condition then_branch (Some else_branch))) p
        else Ok (IfStatement condition then_branch None, p)
    | None => Ok (IfStatement condition then_branch None, p)
    end.


(** ** Programs the generator writes as programs *)

(** An identifier that is not a keyword. *)
Definition plain_name (name : string) : bool :=
  is_identifier name && negb (String.eqb name "if")
  && negb (String.eqb name "else").

(** The trees of [expression], as a test. *)
Fixpoint plain_expression (n : node) : bool :=
  match n with
  | Number z => (0 <=? z)%Z
  | Identifier name => plain_name name
  | BinOp l op r =>
      plain_expression l
      && existsb (fun e => String.eqb (snd e) op) lexed_operators
      && plain_expression r
  | _ => false
  end.

(** The statements whose rendering ends with their own [;] or [}]:
    assignments of an expression to a plain name, and [if]s over an
    expression whose branches are such statements or blocks of them.  (An
    expression statement is not one: its rendering has no [;].)  With
    [block_allowed] a block of such statements passes too. *)
Fixpoint closed (block_allowed : bool) (n : node) : bool :=
  match n with
  | Assignment t v =>
      match t with
      | Identifier name => plain_name name && plain_expression v
      | _ => false
      end
  | IfStatement c t e =>
      plain_expression c && closed true t &&
      match e with Some e' => closed true e' | None => true end
  | Block l => block_allowed && forallb (closed false) l
  | _ => false
  end.

(** The tree is rendered to the empty text. *)
Definition renders_empty (n : node) : bool :=
  match generate_code n with
  | Ok s => String.eqb s ""
  | _ => false
  end.

(** The tree [parse] builds from the rendering of a closed statement: each
    branch of an [if] comes back as a [Block], a single statement as the
    block of that statement, and an else branch that renders to nothing does
    not come back.  With [branch] the tree is read as a branch. *)
Fixpoint reparsed (branch : bool) (n : node) : node :=
  match n with
  | IfStatement c t e =>
      let r :=
        IfStatement c (reparsed true t)
          match e with
          | Some e' => if renders_empty e' then None else Some (reparsed true e')
          | None => None
          end in
      if branch then Block [r] else r
  | Block l => Block (map (reparsed false) l)
  | _ => if branch then Block [n] else n
  end.

(** The tokens of the rendering of a closed statement. *)
Fixpoint statement_tokens (n : node) : list token :=
  match n with
  | Assignment t v =>
      match t with
      | Identifier name =>
          ("IDENTIFIER", name) :: ("ASSIGN", "=") :: expr_tokens v
          ++ [("SEMICOLON", ";")]
      | _ => []
      end
  | IfStatement c t e =>
      ("IF", "if") :: ("LPAREN", "(") :: expr_tokens c
      ++ ("RPAREN", ")") :: ("LBRACE", "{") :: statement_tokens t
      ++ ("RBRACE", "}")
      :: match e with
         | Some e' =>
             if renders_empty e' then []
             else ("ELSE", "else") :: ("LBRACE", "{") :: statement_tokens e'
                  ++ [("RBRACE", "}")]
         | None => []
         end
  | Block l => flat_map statement_tokens l
  | _ => []
  end%list.

(** The first token can start a closed statement. *)
Definition statement_start (ts : list token) : bool :=
  match ts with
  | (k, _) :: _ => String.eqb k "IF" || String.eqb k "IDENTIFIER"
  | [] => false
  end.

(** Lexing [text], after a character that is no word character and before
    any text, gives [toks]. *)
Definition lexes_to (text : string) (toks : list token) : Prop :=
  forall prev rest, word_opt prev = false ->
    lex_from prev (text ++ rest) = (toks ++ lex_from None rest)%list.

(** [statement] reads [s] from [toks], whatever follows that is not
    [else]. *)
Definition parses_statement (toks : list token) (s : node) : Prop :=
  exists n, forall m more, n <= m -> starts_else more = false ->
    statement m (Parser_init (toks ++ more)) = Ok (s, Parser_init more).

(** The loop of [block_or_statement] reads the statements [l] from [toks]
    up to a closing brace. *)
Definition parses_block (toks : list token) (l : list node) : Prop :=
  exists n, forall m acc more, n <= m ->
    block_loop m acc (Parser_init (toks ++ ("RBRACE", "}") :: more)) =
    Ok ((acc ++ l)%list, Parser_init (("RBRACE", "}") :: more)).

(** The loop of [parse] reads the statements [l] from [toks]. *)
Definition parses_program (toks : list token) (l : list node) : Prop :=
  exists n, forall m acc, n <= m ->
    parse_loop m acc (Parser_init toks) = Ok ((acc ++ l)%list, Parser_init []).

(** The statement is rendered to a text from which the lexer and [statement]
    read back a statement with the same rendering. *)
Definition statement_round_trip (s : node) : Prop :=
  exists text,
    generate_code s = Ok text /\
    lexes_to text (statement_tokens s) /\
    statement_start (statement_tokens s) = true /\
    parses_statement (statement_tokens s) (reparsed false s) /\
    generate_code (reparsed false s) = Ok text.

(** The same for the statements of a block or of a program, rendered one
    per line. *)
Definition statements_round_trip (l : list node) : Prop :=
  exists texts,
    generate_each l = Ok texts /\
    lexes_to (join nl texts) (flat_map statement_tokens l) /\
    starts_else (flat_map statement_tokens l) = false /\
    parses_block (flat_map statement_tokens l) (map (reparsed false) l) /\
    parses_program (flat_map statement_tokens l) (map (reparsed false) l) /\
    generate_each (map (reparsed false) l) = Ok texts.

(** The same for a branch of an [if], which comes back as a [Block]. *)
Definition branch_round_trip (b : node) : Prop :=
  exists text l,
    generate_code b = Ok text /\
    lexes_to text (statement_tokens b) /\
    reparsed true b = Block l /\
    parses_block (statement_tokens b) l /\
    generate_code (Block l) = Ok text.


(** ** The pieces of a text *)

(** A piece of a text as the lexer goes through it: the text of a token, or
    text it leaves out. *)
Inductive piece : Type :=
| Lexed (t : token)
| Skipped (text : string).

Definition piece_text (p : piece) : string :=
  match p with
  | Lexed t => snd t
  | Skipped text => text
  end.

(** The pieces put together again. *)
Definition pieces_text (ps : list piece) : string :=
  fold_right (fun p s => piece_text p ++ s) "" ps.

(** The tokens among the pieces. *)
Definition pieces_tokens (ps : list piece) : list token :=
  flat_map (fun p => match p with Lexed t => [t] | Skipped _ => [] end) ps.

(** What the lexer leaves out in one step: a run of white space, or one
    character. *)
Definition skippable (p : piece) : bool :=
  match p with
  | Lexed _ => true
  | Skipped text =>
      (negb (String.eqb text "") && all_chars is_space text)
      || (String.length text =? 1)%nat
  end.



(** ** Flat sequences of operators *)

(** An operator token of one of the two levels that the lexer produces. *)
Definition lexed_operator (level : list string) (o : token) : bool :=
  kind_in (fst o) level
  && existsb (fun e => String.eqb (fst e) (fst o) && String.eqb (snd e) (snd o))
             lexed_operators.

(** The tree of a left-associative sequence: each operator in turn applied
    to the tree so far and to the next operand. *)
Definition left_nested (first : node) (rest : list (token * node)) : node :=
  fold_left (fun acc e => BinOp acc (snd (fst e)) (snd e)) rest first.

(** A product: a factor, then multiplicative operators each with a factor.
    The factors are rendered expressions (so a [BinOp] stands in its
    parentheses). *)
Definition product : Type := node * list (token * node).

Definition is_product (p : product) : bool :=
  plain_expression (fst p)
  && forallb (fun e => lexed_operator term_ops (fst e) && plain_expression (snd e))
             (snd p).

Definition product_tokens (p : product) : list token :=
  (expr_tokens (fst p)
   ++ flat_map (fun e => fst e :: expr_tokens (snd e)) (snd p))%list.

Definition product_tree (p : product) : node := left_nested (fst p) (snd p).

(** A sum: a product, then operators of the level of [expr] (additive and
    comparison) each with a product. *)
Definition sum : Type := product * list (token * product).

Definition is_sum (s : sum) : bool :=
  is_product (fst s)
  && forallb (fun e => lexed_operator expr_ops (fst e) && is_product (snd e))
             (snd s).

Definition sum_tokens (s : sum) : list token :=
  (product_tokens (fst s)
   ++ flat_map (fun e => fst e :: product_tokens (snd e)) (snd s))%list.

Definition sum_tree (s : sum) : node :=
  left_nested (product_tree (fst s))
              (map (fun e => (fst e, product_tree (snd e))) (snd s)).

(** The first of the tokens is not an operator of [term]. *)
Definition term_stops (more : list token) : bool :=
  match more with
  | (k, _) :: _ => negb (kind_in k term_ops)
  | [] => true
  end.


(** ** The messages of the parser *)

(** The kinds [expect] can find missing in a run of [parse]. *)
Definition missed_kinds : list string :=
  ["LPAREN"; "RPAREN"; "RBRACE"; "SEMICOLON"].

(** What a message can name as found: [EOF], or the text of a token. *)
Definition found_texts (toks : list token) : list string :=
  "EOF" :: map snd toks.

(** The exceptions of a run of [parse] on the tokens [toks]. *)
Definition reported (toks : list token) (e : exn) : bool :=
  match e with
  | SyntaxError msg =>
      String.eqb msg "Erro de sintaxe: token inesperado no final da entrada"
      || existsb (fun v => String.eqb msg
                    ("Erro de sintaxe: token inesperado '" ++ v ++ "'"))
                 (map snd toks)
      || existsb (fun k => existsb (fun v => String.eqb msg
                    ("Esperado '" ++ k ++ "' mas encontrado '" ++ v ++ "'"))
                    (found_texts toks))
                 missed_kinds
  | TypeError msg => String.eqb msg "'NoneType' object is not subscriptable"
  | _ => false
  end.

(** The tokens the parser has not consumed are tokens of [toks], and [int]
    reads the numbers among them. *)
Definition within (toks : list token) (p : Parser) : Prop :=
  Forall (fun t => number_ok t = true /\ In t toks) (remaining p).

(** ** The limits of the interpreter *)

(** The interpreter refuses two things the model has no bound for.  [int]
    and [str] convert at most [max_str_digits] digits, the default of
    [sys.get_int_max_str_digits], and raise a [ValueError] beyond; and calls
    nest no deeper than the recursion limit, 1000 frames by default, beyond
    which a [RecursionError] is raised.  [call_budget] is that limit less a
    hundred frames for the caller of the pipeline.  What is stated of every
    outcome of a run, or of texts of any size, is stated of the inputs
    within these limits. *)
Definition max_str_digits : nat := 4300.

Definition call_budget : nat := 900.

(** [int] converts the text of the token if it is a [NUMBER]. *)
Definition converts (t : token) : bool :=
  negb (String.eqb (fst t) "NUMBER")
  || (String.length (snd t) <=? max_str_digits)%nat.

(** The tokens of a run within the limits: no [NUMBER] has more digits than
    [int] converts, and the calls of the parser, at most three deep for each
    token and nine more (see [parse_fuel]), fit the budget; so do those of
    [generate_code] on the tree (see [parsed_within_limits]). *)
Definition within_limits (toks : list token) : bool :=
  forallb converts toks && (3 * List.length toks + 9 <=? call_budget)%nat.

(** The number of digits of [z]. *)
Definition digits (z : Z) : nat := String.length (py_str (Z.abs z)).

(** [str] converts every number [generate_code] prints of the tree. *)
Fixpoint numbers_convert (n : node) : bool :=
  match n with
  | Number z => (digits z <=? max_str_digits)%nat
  | Identifier _ => true
  | BinOp l _ r => numbers_convert l && numbers_convert r
  | Assignment _ v => numbers_convert v
  | IfStatement c t e =>
      numbers_convert c && numbers_convert t &&
      match e with Some e' => numbers_convert e' | None => true end
  | Block l => forallb numbers_convert l
  end.

(** The depth of the calls of [generate_code] on a tree: a frame for each
    node on a path, and one more for the generator expression of a
    [Block]. *)
Fixpoint frames (n : node) : nat :=
  match n with
  | Number _ => 1
  | Identifier _ => 1
  | BinOp l _ r => 1 + Nat.max (frames l) (frames r)
  | Assignment _ v => 1 + frames v
  | IfStatement c t e =>
      1 + Nat.max (frames c)
            (Nat.max (frames t)
               match e with Some e' => frames e' | None => 0 end)
  | Block l => 2 + list_max (map frames l)
  end.

(** A tree [generate_code] renders within the limits. *)
Definition renders_within_limits (n : node) : bool :=
  numbers_convert n && (frames n <=? call_budget)%nat.

(* ================================================================== *)
(** * Properties of the lexer *)

(* ------------------------------------------------------------------ *)
(** ** Texts *)

Lemma string_length_app (a b : string) :
  String.length (a ++ b) = (String.length a + String.length b)%nat.
Proof. induction a; simpl; congruence. Qed.

Lemma string_app_nil (s : string) : s ++ "" = s.
Proof. induction s; simpl; congruence. Qed.

Lemma string_app_assoc (a b c : string) : (a ++ b) ++ c = a ++ (b ++ c).
Proof. induction a; simpl; congruence. Qed.

Lemma last_char_nonempty (p q : option ascii) (v : string) :
  v <> "" -> last_char p v = last_char q v.
Proof. destruct v; [contradiction | reflexivity]. Qed.

Lemma last_char_app prev a b :
  last_char prev (a ++ b) = last_char (last_char prev a) b.
Proof. revert prev. induction a as [|c a IH]; intros prev; simpl; auto. Qed.

Lemma starts_app p s x : s <> "" -> starts p (s ++ x) = starts p s.
Proof. destruct s; [contradiction | reflexivity]. Qed.

Lemma strip_prefix_spec (p s rest : string) :
  strip_prefix p s = Some rest <-> s = p ++ rest.
Proof.
  revert s; induction p as [|a p IH]; intros s; simpl.
  - split; [intros [= ->]; reflexivity | intros ->; reflexivity].
  - destruct s as [|b s]; [split; discriminate|].
    destruct (Ascii.eqb_spec a b) as [->|Hab].
    + rewrite IH. split; [intros ->; reflexivity | intros [= ->]; reflexivity].
    + split; [discriminate | intros [= <- _]; contradiction].
Qed.

Lemma span_app (p : ascii -> bool) (s : string) :
  fst (span p s) ++ snd (span p s) = s.
Proof.
  induction s as [|c s IH]; simpl; [reflexivity|].
  destruct (p c); simpl; [|reflexivity].
  destruct (span p s) as [l r]; simpl in *; now rewrite IH.
Qed.

Lemma span_starts (p : ascii -> bool) (s : string) :
  starts p s = false -> span p s = ("", s).
Proof. destruct s as [|c s]; simpl; [reflexivity | now intros ->]. Qed.

Lemma span_app_all (p : ascii -> bool) (a b : string) :
  all_chars p a = true -> starts p b = false -> span p (a ++ b) = (a, b).
Proof.
  intros Ha Hb. induction a as [|c a IH]; simpl.
  - now apply span_starts.
  - simpl in Ha. apply andb_true_iff in Ha as [-> Ha]. now rewrite IH.
Qed.

(* ------------------------------------------------------------------ *)
(** ** Character classes *)

(** The classes as tables of code points. *)
Lemma is_space_codes :
  filter (fun n => is_space (ascii_of_nat n)) (seq 0 256) =
  [9; 10; 11; 12; 13; 28; 29; 30; 31; 32; 133; 160].
Proof. vm_compute. reflexivity. Qed.

Lemma is_digit_codes :
  filter (fun n => is_digit (ascii_of_nat n)) (seq 0 256) = seq 48 10.
Proof. vm_compute. reflexivity. Qed.

Lemma is_word_codes :
  filter (fun n => is_word (ascii_of_nat n)) (seq 0 256) =
  (seq 48 10 ++ seq 65 26 ++ [95] ++ seq 97 26
   ++ [170; 178; 179; 181; 185; 186; 188; 189; 190]
   ++ seq 192 23 ++ seq 216 31 ++ seq 248 8)%list.
Proof. vm_compute. reflexivity. Qed.

Lemma is_ident_start_word c : is_ident_start c = true -> is_word c = true.
Proof. unfold is_word. intros ->. reflexivity. Qed.

Lemma is_digit_word c : is_digit c = true -> is_word c = true.
Proof. unfold is_word. intros ->. now rewrite orb_true_r. Qed.

Lemma last_char_word (s : string) :
  forall prev, all_chars is_word s = true -> word_opt prev = true ->
  word_opt (last_char prev s) = true.
Proof.
  induction s as [|c s IH]; intros prev Hs Hp; simpl in *; [exact Hp|].
  apply andb_true_iff in Hs as [Hc Hs]. now apply IH.
Qed.

Lemma starts_digit_word s : starts is_word s = false -> starts is_digit s = false.
Proof.
  destruct s as [|c s]; simpl; [reflexivity|]. intros H.
  destruct (is_digit c) eqn:E; [|reflexivity].
  apply is_digit_word in E. congruence.
Qed.

Lemma ident_start_not_digit c : is_ident_start c = true -> is_digit c = false.
Proof.
  unfold is_ident_start, is_digit, between.
  destruct (Nat.leb_spec 48 (code c)), (Nat.leb_spec (code c) 57),
    (Nat.leb_spec 97 (code c)), (Nat.leb_spec 65 (code c)),
    (Nat.leb_spec (code c) 90), (Nat.eqb_spec (code c) 95);
    simpl; try reflexivity; try lia; intros; try discriminate.
Qed.

Lemma digit_not_space c : is_digit c = true -> is_space c = false.
Proof.
  unfold is_space, is_digit, between.
  destruct (Nat.leb_spec 48 (code c)), (Nat.leb_spec (code c) 57),
    (Nat.leb_spec 9 (code c)), (Nat.leb_spec (code c) 13),
    (Nat.leb_spec 28 (code c)), (Nat.leb_spec (code c) 32),
    (Nat.eqb_spec (code c) 133), (Nat.eqb_spec (code c) 160);
    simpl; try reflexivity; try lia; intros; discriminate.
Qed.

Lemma ident_start_not_space c : is_ident_start c = true -> is_space c = false.
Proof.
  unfold is_space, is_ident_start, between.
  destruct (Nat.leb_spec 97 (code c)), (Nat.leb_spec (code c) 122),
    (Nat.leb_spec 65 (code c)), (Nat.leb_spec (code c) 90),
    (Nat.eqb_spec (code c) 95),
    (Nat.leb_spec 9 (code c)), (Nat.leb_spec (code c) 13),
    (Nat.leb_spec 28 (code c)), (Nat.leb_spec (code c) 32),
    (Nat.eqb_spec (code c) 133), (Nat.eqb_spec (code c) 160);
    simpl; try reflexivity; try lia; intros; discriminate.
Qed.

Lemma ident_start_not (c : ascii) (l : list ascii) :
  is_ident_start c = true ->
  forallb (fun a => negb (is_ident_start a)) l = true ->
  forallb (fun a => negb (Ascii.eqb a c)) l = true.
Proof.
  intros Hc. induction l as [|a l IH]; simpl; [reflexivity|].
  intros H. apply andb_true_iff in H as [Ha Hl]. rewrite (IH Hl), andb_true_r.
  destruct (Ascii.eqb_spec a c) as [->|]; [|reflexivity].
  now rewrite Hc in Ha.
Qed.

Lemma ident_start_not_operator c :
  is_ident_start c = true ->
  forallb (fun a => negb (Ascii.eqb a c)) operator_chars = true.
Proof. intros H. apply ident_start_not; [exact H | reflexivity]. Qed.

Lemma digit_not_in (d : ascii) (l : list ascii) :
  is_digit d = true ->
  forallb (fun a => negb (is_digit a)) l = true ->
  forallb (fun a => negb (Ascii.eqb a d)) l = true.
Proof.
  intros Hd. induction l as [|a l IH]; simpl; [reflexivity|].
  intros H. apply andb_true_iff in H as [Ha Hl]. rewrite (IH Hl), andb_true_r.
  destruct (Ascii.eqb_spec a d) as [->|]; [|reflexivity].
  now rewrite Hd in Ha.
Qed.

Lemma unmatched_not_word c : unmatched c = true -> is_word c = false.
Proof.
  unfold unmatched. destruct (is_word c); [discriminate | reflexivity].
Qed.

Lemma unmatched_not_space c : unmatched c = true -> is_space c = false.
Proof.
  unfold unmatched. destruct (is_word c), (is_space c); try discriminate; reflexivity.
Qed.

Lemma unmatched_not_digit c : unmatched c = true -> is_digit c = false.
Proof.
  intros H. apply unmatched_not_word in H.
  destruct (is_digit c) eqn:E; [|reflexivity].
  apply is_digit_word in E. congruence.
Qed.

(* ------------------------------------------------------------------ *)
(** ** Every match is a non-empty prefix of the text *)

Lemma re_keyword_sound (kw : string) : kw <> "" -> sound (re_keyword kw).
Proof.
  intros Hkw prev s v rest. unfold re_keyword.
  destruct (at_boundary prev s); [|discriminate].
  destruct (strip_prefix kw s) as [r|] eqn:E; [|discriminate].
  destruct (at_boundary _ r); [|discriminate].
  intros [= <- <-]. apply strip_prefix_spec in E. now split.
Qed.

Lemma re_lit_sound (l : string) : l <> "" -> sound (re_lit l).
Proof.
  intros Hl prev s v rest. unfold re_lit.
  destruct (strip_prefix l s) as [r|] eqn:E; [|discriminate].
  intros [= <- <-]. apply strip_prefix_spec in E. now split.
Qed.

Lemma re_plus_sound (p : ascii -> bool) : sound (re_plus p).
Proof.
  intros prev s v rest. unfold re_plus.
  pose proof (span_app p s) as H.
  destruct (span p s) as [[|c l] r]; [discriminate|].
  intros [= <- <-]. split; [symmetry; exact H | discriminate].
Qed.

Lemma re_ident_sound : sound re_ident.
Proof.
  intros prev s v rest. unfold re_ident.
  destruct s as [|c s]; [discriminate|].
  destruct (is_ident_start c); [|discriminate].
  pose proof (span_app is_word s) as H.
  destruct (span is_word s) as [l r]. intros [= <- <-].
  simpl in *. split; [now rewrite H | discriminate].
Qed.

Lemma alternation_sound (alts : list (string * matcher)) :
  Forall (fun a => sound (snd a)) alts ->
  forall prev s name v rest,
    alternation alts prev s = Some (name, v, rest) -> s = v ++ rest /\ v <> "".
Proof.
  induction 1 as [|[n m] alts Hm _ IH]; intros prev s name v rest; simpl.
  - discriminate.
  - destruct (m prev s) as [[v' r']|] eqn:E.
    + intros [= _ <- <-]. exact (Hm _ _ _ _ E).
    + apply IH.
Qed.

Lemma TOKENS_sound : Forall (fun a => sound (snd a)) TOKENS.
Proof.
  unfold TOKENS.
  repeat (apply Forall_cons;
          [first [ apply re_keyword_sound; discriminate
                 | apply re_lit_sound; discriminate
                 | apply re_plus_sound
                 | apply re_ident_sound ] |]).
  apply Forall_nil.
Qed.

Lemma TOKEN_REGEX_sound prev s name v rest :
  TOKEN_REGEX prev s = Some (name, v, rest) -> s = v ++ rest /\ v <> "".
Proof. apply alternation_sound, TOKENS_sound. Qed.

Lemma TOKEN_REGEX_empty prev : TOKEN_REGEX prev "" = None.
Proof.
  destruct (TOKEN_REGEX prev "") as [[[k v] rest]|] eqn:E; [|reflexivity].
  apply TOKEN_REGEX_sound in E as [E Hv]. destruct v; [contradiction | discriminate].
Qed.

Lemma TOKEN_REGEX_shorter prev s name v rest :
  TOKEN_REGEX prev s = Some (name, v, rest) ->
  (String.length rest < String.length s)%nat.
Proof.
  intros H. apply TOKEN_REGEX_sound in H as [-> Hv].
  rewrite string_length_app. destruct v; [contradiction | simpl; lia].
Qed.

(* ------------------------------------------------------------------ *)
(** ** The equation of the lexer *)

(** The budget [lex] gives [lex_go] is never used up: any budget of at least
    the length of the text yields the same tokens. *)
Lemma lex_go_fuel (n m : nat) (prev : option ascii) (s : string) :
  (String.length s <= n)%nat -> (String.length s <= m)%nat ->
  lex_go n prev s = lex_go m prev s.
Proof.
  revert m prev s; induction n as [|n IH]; intros m prev s Hn Hm.
  - destruct s; [|simpl in Hn; lia]. destruct m; reflexivity.
  - destruct m as [|m]; [destruct s; [reflexivity | simpl in Hm; lia]|].
    destruct s as [|c s]; [reflexivity|]. simpl in Hn, Hm.
    cbn [lex_go].
    destruct (TOKEN_REGEX prev (String c s)) as [[[k v] rest]|] eqn:E.
    + apply TOKEN_REGEX_shorter in E. simpl in E.
      rewrite (IH m) by lia. reflexivity.
    + apply IH; lia.
Qed.

(** The equation of the lexer, free of its budget. *)
Lemma lex_from_eq (prev : option ascii) (c : ascii) (s : string) :
  lex_from prev (String c s) =
  match TOKEN_REGEX prev (String c s) with
  | Some (token_name, token_value, rest) =>
      let tokens := lex_from (last_char prev token_value) rest in
      if String.eqb token_name "WHITESPACE" then tokens
      else (token_name, token_value) :: tokens
  | None => lex_from (Some c) s
  end.
Proof.
  unfold lex_from. cbn [String.length lex_go].
  destruct (TOKEN_REGEX prev (String c s)) as [[[k v] rest]|] eqn:E.
  - apply TOKEN_REGEX_shorter in E. simpl in E.
    cbv zeta. rewrite (lex_go_fuel (String.length s) (String.length rest)) by lia.
    reflexivity.
  - reflexivity.
Qed.

Lemma lex_from_match prev s k v rest :
  TOKEN_REGEX prev s = Some (k, v, rest) ->
  lex_from prev s =
  if String.eqb k "WHITESPACE" then lex_from (last_char prev v) rest
  else (k, v) :: lex_from (last_char prev v) rest.
Proof.
  intros H. destruct s as [|c s]; [now rewrite TOKEN_REGEX_empty in H|].
  now rewrite lex_from_eq, H.
Qed.

(* ------------------------------------------------------------------ *)
(** ** The character before the position only matters through [\b] *)

Lemma TOKEN_REGEX_prev (p q : option ascii) (s : string) :
  word_opt p = word_opt q -> TOKEN_REGEX p s = TOKEN_REGEX q s.
Proof.
  intros H. unfold TOKEN_REGEX, TOKENS. cbn [alternation].
  unfold re_keyword, at_boundary. cbn [last_char]. rewrite H. reflexivity.
Qed.

Lemma lex_from_prev (p q : option ascii) (s : string) :
  word_opt p = word_opt q -> lex_from p s = lex_from q s.
Proof.
  intros H. destruct s as [|c s]; [reflexivity|].
  rewrite !lex_from_eq, (TOKEN_REGEX_prev p q _ H).
  destruct (TOKEN_REGEX q (String c s)) as [[[k v] rest]|] eqn:E; [|reflexivity].
  apply TOKEN_REGEX_sound in E as [_ Hv].
  now rewrite (last_char_nonempty p q v Hv).
Qed.

(* ------------------------------------------------------------------ *)
(** ** Characters no pattern can match *)

Lemma strip_prefix_followed (l s : string) (c : ascii) (s2 : string) :
  all_chars (fun a => negb (unmatched a)) l = true -> unmatched c = true ->
  strip_prefix l (s ++ String c s2) =
  match strip_prefix l s with Some r => Some (r ++ String c s2) | None => None end.
Proof.
  intros Hl Hc. revert s; induction l as [|a l IH]; intros s; simpl.
  - reflexivity.
  - simpl in Hl. apply andb_true_iff in Hl as [Ha Hl].
    destruct s as [|b s]; simpl.
    + destruct (Ascii.eqb_spec a c) as [->|_]; [|reflexivity].
      rewrite Hc in Ha. discriminate.
    + destruct (Ascii.eqb a b); [apply IH, Hl | reflexivity].
Qed.

Lemma span_followed (p : ascii -> bool) (s : string) (c : ascii) (s2 : string) :
  p c = false ->
  span p (s ++ String c s2) = (fst (span p s), snd (span p s) ++ String c s2).
Proof.
  intros Hc. induction s as [|b s IH]; simpl.
  - now rewrite Hc.
  - destruct (p b); [|reflexivity].
    rewrite IH. destruct (span p s); reflexivity.
Qed.

Lemma head_followed (s : string) (c : ascii) (s2 : string) :
  is_word c = false ->
  word_opt (head (s ++ String c s2)) = word_opt (head s).
Proof. intros H. destruct s; simpl; [exact H | reflexivity]. Qed.

Lemma re_keyword_stops (kw : string) :
  all_chars (fun a => negb (unmatched a)) kw = true ->
  stops_at_unmatched (re_keyword kw).
Proof.
  intros Hkw prev s c s2 Hc. unfold re_keyword, at_boundary.
  pose proof (unmatched_not_word c Hc) as Hw.
  rewrite head_followed by exact Hw.
  destruct (xorb (word_opt prev) (word_opt (head s))); [|reflexivity].
  rewrite strip_prefix_followed by assumption.
  destruct (strip_prefix kw s) as [r|]; [|reflexivity].
  rewrite head_followed by exact Hw.
  destruct (xorb _ (word_opt (head r))); reflexivity.
Qed.

Lemma re_lit_stops (l : string) :
  all_chars (fun a => negb (unmatched a)) l = true ->
  stops_at_unmatched (re_lit l).
Proof.
  intros Hl prev s c s2 Hc. unfold re_lit.
  rewrite strip_prefix_followed by assumption.
  destruct (strip_prefix l s); reflexivity.
Qed.

Lemma re_plus_stops (p : ascii -> bool) :
  (forall c, unmatched c = true -> p c = false) ->
  stops_at_unmatched (re_plus p).
Proof.
  intros Hp prev s c s2 Hc. unfold re_plus.
  rewrite span_followed by auto.
  destruct (span p s) as [[|a l] r]; reflexivity.
Qed.

Lemma re_ident_stops : stops_at_unmatched re_ident.
Proof.
  intros prev s c s2 Hc. unfold re_ident.
  pose proof (unmatched_not_word c Hc) as Hw.
  destruct s as [|b s]; simpl.
  - destruct (is_ident_start c) eqn:E; [|reflexivity].
    apply is_ident_start_word in E. congruence.
  - destruct (is_ident_start b); [|reflexivity].
    rewrite span_followed by exact Hw.
    destruct (span is_word s); reflexivity.
Qed.

Lemma TOKENS_stop : Forall (fun a => stops_at_unmatched (snd a)) TOKENS.
Proof.
  unfold TOKENS.
  repeat (apply Forall_cons;
          [first [ apply re_keyword_stops; reflexivity
                 | apply re_lit_stops; reflexivity
                 | apply re_plus_stops;
                   first [exact unmatched_not_digit | exact unmatched_not_space]
                 | apply re_ident_stops ] |]).
  apply Forall_nil.
Qed.

Lemma alternation_stops (alts : list (string * matcher)) :
  Forall (fun a => stops_at_unmatched (snd a)) alts ->
  forall prev s c s2, unmatched c = true ->
    alternation alts prev (s ++ String c s2) =
    match alternation alts prev s with
    | Some (name, v, rest) => Some (name, v, rest ++ String c s2)
    | None => None
    end.
Proof.
  induction 1 as [|[n m] alts Hm _ IH]; intros prev s c s2 Hc; simpl.
  - reflexivity.
  - simpl in Hm. rewrite (Hm prev s c s2 Hc).
    destruct (m prev s) as [[v r]|]; simpl; [reflexivity | now apply IH].
Qed.

(** Lexing a text in which an unmatched character occurs: the character
    yields nothing and the parts before and after it are lexed as if each
    stood alone. *)
Lemma lex_from_unmatched (c : ascii) (s2 : string) :
  unmatched c = true ->
  forall (s1 : string) (prev : option ascii),
    lex_from prev (s1 ++ String c s2) = (lex_from prev s1 ++ lex_from None s2)%list.
Proof.
  intros Hc s1.
  remember (String.length s1) as n eqn:Hn.
  revert s1 Hn. induction n as [n IH] using lt_wf_ind. intros s1 Hn prev.
  destruct s1 as [|b s1].
  - change ("" ++ String c s2) with (String c s2). rewrite lex_from_eq.
    pose proof (alternation_stops TOKENS TOKENS_stop prev "" c s2 Hc) as H.
    change ("" ++ String c s2) with (String c s2) in H.
    fold TOKEN_REGEX in H. rewrite TOKEN_REGEX_empty in H. rewrite H.
    apply lex_from_prev. simpl. now apply unmatched_not_word.
  - change (String b s1 ++ String c s2) with (String b (s1 ++ String c s2)).
    rewrite !lex_from_eq.
    change (String b (s1 ++ String c s2)) with (String b s1 ++ String c s2).
    unfold TOKEN_REGEX at 1.
    rewrite (alternation_stops TOKENS TOKENS_stop prev (String b s1) c s2 Hc).
    fold TOKEN_REGEX.
    destruct (TOKEN_REGEX prev (String b s1)) as [[[k v] rest]|] eqn:E.
    + apply TOKEN_REGEX_shorter in E. cbv zeta.
      rewrite (IH (String.length rest)) by (subst n; auto).
      destruct (String.eqb k "WHITESPACE"); reflexivity.
    + apply (IH (String.length s1)); [subst n; simpl; lia | reflexivity].
Qed.

(* ------------------------------------------------------------------ *)
(** ** Characters that match no pattern *)

Lemma strip_prefix_before (l s : string) (c : ascii) (s2 : string) :
  all_chars (fun a => negb (Ascii.eqb a c)) l = true ->
  strip_prefix l (s ++ String c s2) =
  match strip_prefix l s with Some r => Some (r ++ String c s2) | None => None end.
Proof.
  intros Hl. revert s; induction l as [|a l IH]; intros s; simpl.
  - reflexivity.
  - simpl in Hl. apply andb_true_iff in Hl as [Ha Hl].
    destruct s as [|b s]; simpl.
    + apply negb_true_iff in Ha. now rewrite Ha.
    + destruct (Ascii.eqb a b); [apply IH, Hl | reflexivity].
Qed.

Lemma re_keyword_before (c : ascii) (kw : string) :
  is_word c = false ->
  all_chars (fun a => negb (Ascii.eqb a c)) kw = true ->
  stops_before c (re_keyword kw).
Proof.
  intros Hw Hkw prev s s2. unfold re_keyword, at_boundary.
  rewrite head_followed by exact Hw.
  destruct (xorb (word_opt prev) (word_opt (head s))); [|reflexivity].
  rewrite strip_prefix_before by assumption.
  destruct (strip_prefix kw s) as [r|]; [|reflexivity].
  rewrite head_followed by exact Hw.
  destruct (xorb _ (word_opt (head r))); reflexivity.
Qed.

Lemma re_lit_before (c : ascii) (l : string) :
  all_chars (fun a => negb (Ascii.eqb a c)) l = true ->
  stops_before c (re_lit l).
Proof.
  intros Hl prev s s2. unfold re_lit.
  rewrite strip_prefix_before by assumption.
  destruct (strip_prefix l s); reflexivity.
Qed.

Lemma re_plus_before (c : ascii) (p : ascii -> bool) :
  p c = false -> stops_before c (re_plus p).
Proof.
  intros Hp prev s s2. unfold re_plus.
  rewrite span_followed by auto.
  destruct (span p s) as [[|a l] r]; reflexivity.
Qed.

Lemma re_ident_before (c : ascii) : is_word c = false -> stops_before c re_ident.
Proof.
  intros Hw prev s s2. unfold re_ident.
  destruct s as [|b s]; simpl.
  - destruct (is_ident_start c) eqn:E; [|reflexivity].
    apply is_ident_start_word in E. congruence.
  - destruct (is_ident_start b); [|reflexivity].
    rewrite span_followed by exact Hw.
    destruct (span is_word s); reflexivity.
Qed.

Lemma no_pattern_cases (c : ascii) :
  matches_no_pattern c = true -> is_word c = false ->
  unmatched c = true \/ c = "!"%char.
Proof.
  destruct c as [[] [] [] [] [] [] [] []]; vm_compute; intros H1 H2;
    first [discriminate | now left | now right].
Qed.

Lemma TOKEN_REGEX_no_match (prev : option ascii) (c : ascii) (s2 : string) :
  matches_no_pattern c = true ->
  (c = "!"%char -> starts (Ascii.eqb "=") s2 = false) ->
  TOKEN_REGEX prev (String c s2) = None.
Proof.
  intros Hc Hbang.
  rewrite (TOKEN_REGEX_prev prev (if word_opt prev then Some "a"%char else None))
    by (destruct (word_opt prev); reflexivity).
  destruct (Ascii.eqb_spec c "!") as [->|Hne].
  - specialize (Hbang eq_refl). destruct s2 as [|d s2].
    + destruct (word_opt prev); reflexivity.
    + cbn [starts] in Hbang.
      assert (H : forall p, re_lit "!=" p (String "!" (String d s2)) = None).
      { intros p. unfold re_lit. cbn [strip_prefix].
        change (Ascii.eqb "!" "!") with true. cbv iota. now rewrite Hbang. }
      destruct (word_opt prev); unfold TOKEN_REGEX, TOKENS;
        cbn [alternation]; rewrite H; vm_compute; reflexivity.
  - clear Hbang.
    destruct (word_opt prev);
      destruct c as [[] [] [] [] [] [] [] []];
      vm_compute in Hc; try discriminate Hc;
      try (exfalso; apply Hne; reflexivity);
      vm_compute; reflexivity.
Qed.

Lemma re_lit_neq_bang (s2 : string) :
  starts (Ascii.eqb "=") s2 = false ->
  forall prev s,
    re_lit "!=" prev (s ++ String "!" s2) = followed "!" s2 (re_lit "!=" prev s).
Proof.
  intros H prev s. unfold re_lit.
  destruct s as [|a [|b s]]; cbn [append strip_prefix followed].
  - destruct s2 as [|d s2]; [reflexivity|]. simpl in H. cbn. now rewrite H.
  - destruct (Ascii.eqb "!" a); reflexivity.
  - destruct (Ascii.eqb "!" a); [|reflexivity].
    destruct (Ascii.eqb "=" b); reflexivity.
Qed.

Lemma TOKENS_stop_bang (s2 : string) :
  starts (Ascii.eqb "=") s2 = false ->
  Forall (fun a => forall prev s,
            snd a prev (s ++ String "!" s2) = followed "!" s2 (snd a prev s))
         TOKENS.
Proof.
  intros H. unfold TOKENS.
  repeat (apply Forall_cons;
          [cbn [snd]; intros prev s;
           first [ apply (re_keyword_before "!"); reflexivity
                 | apply (re_lit_before "!"); reflexivity
                 | apply (re_lit_neq_bang s2 H)
                 | apply (re_plus_before "!"); reflexivity
                 | apply (re_ident_before "!"); reflexivity ] |]).
  apply Forall_nil.
Qed.

Lemma alternation_followed (c : ascii) (s2 : string)
    (alts : list (string * matcher)) :
  Forall (fun a => forall prev s,
            snd a prev (s ++ String c s2) = followed c s2 (snd a prev s)) alts ->
  forall prev s,
    alternation alts prev (s ++ String c s2) =
    match alternation alts prev s with
    | Some (name, v, rest) => Some (name, v, rest ++ String c s2)
    | None => None
    end.
Proof.
  induction 1 as [|[n m] alts Hm _ IH]; intros prev s; simpl.
  - reflexivity.
  - simpl in Hm. rewrite (Hm prev s).
    destruct (m prev s) as [[v r]|]; simpl; [reflexivity | now apply IH].
Qed.

(** A ["!"] that no ["="] follows separates like an unmatched character. *)
Lemma lex_from_bang (s2 : string) :
  starts (Ascii.eqb "=") s2 = false ->
  forall (s1 : string) (prev : option ascii),
    lex_from prev (s1 ++ String "!" s2) = (lex_from prev s1 ++ lex_from None s2)%list.
Proof.
  intros Hs2 s1.
  pose proof (alternation_followed "!" s2 TOKENS (TOKENS_stop_bang s2 Hs2)) as Hstop.
  fold TOKEN_REGEX in Hstop.
  remember (String.length s1) as n eqn:Hn.
  revert s1 Hn. induction n as [n IH] using lt_wf_ind. intros s1 Hn prev.
  destruct s1 as [|b s1].
  - change ("" ++ String "!" s2) with (String "!" s2). rewrite lex_from_eq.
    rewrite (TOKEN_REGEX_no_match prev "!" s2 eq_refl (fun _ => Hs2)).
    now apply lex_from_prev.
  - change (String b s1 ++ String "!" s2) with (String b (s1 ++ String "!" s2)).
    rewrite !lex_from_eq.
    change (String b (s1 ++ String "!" s2)) with (String b s1 ++ String "!" s2).
    rewrite (Hstop prev (String b s1)).
    destruct (TOKEN_REGEX prev (String b s1)) as [[[k v] rest]|] eqn:E.
    + apply TOKEN_REGEX_shorter in E. cbv zeta.
      rewrite (IH (String.length rest)) by (subst n; auto).
      destruct (String.eqb k "WHITESPACE"); reflexivity.
    + apply (IH (String.length s1)); [subst n; simpl; lia | reflexivity].
Qed.

(* ------------------------------------------------------------------ *)
(** ** The token at the head of a text *)

Lemma alternation_skip name m alts prev s :
  m prev s = None ->
  alternation ((name, m) :: alts) prev s = alternation alts prev s.
Proof. intros H. simpl. now rewrite H. Qed.

Lemma re_lit_miss (l : string) (prev : option ascii) (c : ascii) (s : string) :
  match l with String a _ => Ascii.eqb a c | EmptyString => true end = false ->
  re_lit l prev (String c s) = None.
Proof.
  unfold re_lit. destruct l as [|a l]; [discriminate|]. simpl. now intros ->.
Qed.

Lemma re_keyword_miss (kw : string) (prev : option ascii) (c : ascii) (s : string) :
  match kw with String a _ => Ascii.eqb a c | EmptyString => true end = false ->
  re_keyword kw prev (String c s) = None.
Proof.
  unfold re_keyword. destruct kw as [|a kw]; [discriminate|]. simpl.
  intros ->. now destruct (at_boundary prev (String c s)).
Qed.

(** After the characters of a keyword, inside a longer word, comes a word
    character. *)
Lemma keyword_inside_word (kw name r rest : string) :
  kw ++ r = name ++ rest ->
  all_chars is_word kw = true -> all_chars is_word name = true ->
  name <> kw -> starts is_word rest = false ->
  starts is_word r = true.
Proof.
  revert name. induction kw as [|a kw IH]; intros name E Hkw Hname Hne Hrest.
  - simpl in E. subst r. destruct name as [|c name]; [contradiction|].
    simpl in *. now apply andb_true_iff in Hname as [-> _].
  - simpl in Hkw. apply andb_true_iff in Hkw as [Ha Hkw].
    destruct name as [|c name]; simpl in E.
    + subst rest. simpl in Hrest. congruence.
    + injection E as -> E. simpl in Hname.
      apply andb_true_iff in Hname as [_ Hname].
      apply (IH name); auto. congruence.
Qed.

Lemma re_keyword_word (kw name rest : string) (prev : option ascii) :
  kw <> "" -> all_chars is_word kw = true ->
  all_chars is_word name = true -> name <> kw ->
  starts is_word rest = false ->
  re_keyword kw prev (name ++ rest) = None.
Proof.
  intros Hkw Hall Hname Hne Hrest. unfold re_keyword.
  destruct (at_boundary prev (name ++ rest)); [|reflexivity].
  destruct (strip_prefix kw (name ++ rest)) as [r|] eqn:E; [|reflexivity].
  apply strip_prefix_spec in E. symmetry in E.
  pose proof (keyword_inside_word kw name r rest E Hall Hname Hne Hrest) as Hr.
  assert (Hlast : word_opt (last_char prev kw) = true).
  { destruct kw as [|a kw]; [contradiction|]. simpl in Hall |- *.
    apply andb_true_iff in Hall as [Ha Hall]. now apply last_char_word. }
  unfold at_boundary. rewrite Hlast.
  destruct r as [|c r]; simpl in *; [discriminate | now rewrite Hr].
Qed.

Lemma TOKEN_REGEX_identifier (name rest : string) (prev : option ascii) :
  is_identifier name = true -> name <> "if" -> name <> "else" ->
  starts is_word rest = false ->
  TOKEN_REGEX prev (name ++ rest) = Some ("IDENTIFIER", name, rest).
Proof.
  intros Hid Hif Helse Hrest. destruct name as [|c s]; [discriminate|].
  simpl in Hid. apply andb_true_iff in Hid as [Hc Hs].
  assert (Hall : all_chars is_word (String c s) = true).
  { simpl. now rewrite (is_ident_start_word c Hc), Hs. }
  pose proof (ident_start_not_operator c Hc) as Hop.
  unfold operator_chars in Hop. simpl in Hop.
  repeat (apply andb_true_iff in Hop as [?H Hop]).
  repeat match goal with
         | H : negb _ = true |- _ => apply negb_true_iff in H
         end.
  unfold TOKEN_REGEX, TOKENS.
  rewrite alternation_skip by (now apply re_keyword_word).
  rewrite alternation_skip by (now apply re_keyword_word).
  change (String c s ++ rest) with (String c (s ++ rest)).
  rewrite alternation_skip
    by (unfold re_plus; simpl; now rewrite (ident_start_not_digit c Hc)).
  repeat (rewrite alternation_skip by (apply re_lit_miss; assumption)).
  cbn [alternation]. unfold re_ident.
  rewrite Hc, (span_app_all is_word s rest Hs Hrest). reflexivity.
Qed.

(** A text that is an identifier and neither keyword lexes to one
    [IDENTIFIER] token carrying all of it. *)
Lemma lex_identifier (name : string) :
  is_identifier name = true -> name <> "if" -> name <> "else" ->
  lex name = [("IDENTIFIER", name)].
Proof.
  intros Hid Hif Helse. unfold lex.
  rewrite <- (string_app_nil name) at 1.
  now rewrite (lex_from_match _ _ _ _ _
                 (TOKEN_REGEX_identifier name "" None Hid Hif Helse eq_refl)).
Qed.

Lemma TOKEN_REGEX_number (ds rest : string) (prev : option ascii) :
  ds <> "" -> all_chars is_digit ds = true -> starts is_digit rest = false ->
  TOKEN_REGEX prev (ds ++ rest) = Some ("NUMBER", ds, rest).
Proof.
  intros Hne Hds Hrest. destruct ds as [|d ds']; [contradiction|].
  pose proof Hds as Hd. simpl in Hd. apply andb_true_iff in Hd as [Hd _].
  pose proof (digit_not_in d (list_ascii_of_string "ie") Hd eq_refl) as Hk.
  simpl in Hk. repeat (apply andb_true_iff in Hk as [?H Hk]).
  repeat match goal with
         | H : negb _ = true |- _ => apply negb_true_iff in H
         end.
  unfold TOKEN_REGEX, TOKENS.
  change (String d ds' ++ rest) with (String d (ds' ++ rest)).
  do 2 (rewrite alternation_skip by (apply re_keyword_miss; assumption)).
  cbn [alternation]. unfold re_plus.
  change (String d (ds' ++ rest)) with (String d ds' ++ rest).
  rewrite (span_app_all is_digit _ rest Hds Hrest). reflexivity.
Qed.

(** Skip the alternatives that cannot match a text whose first character is
    known. *)
Ltac skip_alternatives :=
  unfold TOKEN_REGEX, TOKENS;
  repeat (rewrite alternation_skip
            by first [ apply re_keyword_miss; reflexivity | reflexivity ]).

Lemma TOKEN_REGEX_space (rest : string) (prev : option ascii) :
  starts is_space rest = false ->
  TOKEN_REGEX prev (String " " rest) = Some ("WHITESPACE", " ", rest).
Proof.
  intros Hrest. skip_alternatives.
  cbn [alternation]. unfold re_plus. simpl.
  rewrite (span_starts is_space rest Hrest). reflexivity.
Qed.

Lemma TOKEN_REGEX_lparen (rest : string) (prev : option ascii) :
  TOKEN_REGEX prev (String "(" rest) = Some ("LPAREN", "(", rest).
Proof. skip_alternatives. reflexivity. Qed.

Lemma TOKEN_REGEX_rparen (rest : string) (prev : option ascii) :
  TOKEN_REGEX prev (String ")" rest) = Some ("RPAREN", ")", rest).
Proof. skip_alternatives. reflexivity. Qed.

Lemma TOKEN_REGEX_semicolon (rest : string) (prev : option ascii) :
  TOKEN_REGEX prev (String ";" rest) = Some ("SEMICOLON", ";", rest).
Proof. skip_alternatives. reflexivity. Qed.

Lemma lexed_operator_facts name op :
  In (name, op) lexed_operators ->
  token_name op = name /\ String.eqb name "WHITESPACE" = false /\
  starts is_space op = false /\ op <> "" /\
  kind_in name expr_ops || kind_in name term_ops = true.
Proof.
  intros H. simpl in H.
  repeat (destruct H as [[= <- <-]|H];
          [repeat split; try reflexivity; discriminate|]).
  contradiction.
Qed.

Lemma lexed_operator_level name op :
  In (name, op) lexed_operators ->
  kind_in name expr_ops = negb (kind_in name term_ops).
Proof.
  intros H. simpl in H.
  repeat (destruct H as [[= <- <-]|H]; [reflexivity|]). contradiction.
Qed.

Lemma TOKEN_REGEX_operator (name op rest : string) (prev : option ascii) :
  In (name, op) lexed_operators ->
  TOKEN_REGEX prev (op ++ String " " rest) = Some (name, op, String " " rest).
Proof.
  intros H. simpl in H.
  repeat (destruct H as [[= <- <-]|H]; [skip_alternatives; reflexivity|]).
  contradiction.
Qed.

(* ------------------------------------------------------------------ *)
(** ** Every token is consistent *)

Lemma alternation_ok (alts : list (string * matcher)) :
  Forall (fun a => forall prev s v rest,
            snd a prev s = Some (v, rest) -> lexeme_ok (fst a, v) = true) alts ->
  forall prev s name v rest,
    alternation alts prev s = Some (name, v, rest) -> lexeme_ok (name, v) = true.
Proof.
  induction 1 as [|[n m] alts Hm _ IH]; intros prev s name v rest; simpl.
  - discriminate.
  - destruct (m prev s) as [[v' r']|] eqn:E.
    + intros [= <- <- <-]. exact (Hm _ _ _ _ E).
    + apply IH.
Qed.

Lemma re_lit_text l prev s v rest : re_lit l prev s = Some (v, rest) -> v = l.
Proof.
  unfold re_lit. destruct (strip_prefix l s); [|discriminate]. now intros [= <- _].
Qed.

Lemma TOKEN_REGEX_ok prev s name v rest :
  TOKEN_REGEX prev s = Some (name, v, rest) -> lexeme_ok (name, v) = true.
Proof.
  apply alternation_ok. unfold TOKENS.
  repeat (apply Forall_cons;
          [ cbn [fst snd]; intros p s' v' r' E;
            first [ apply re_lit_text in E; subst v'; reflexivity
                  | reflexivity ] |]).
  apply Forall_nil.
Qed.

Lemma lex_from_ok (s : string) :
  forall prev, forallb lexeme_ok (lex_from prev s) = true.
Proof.
  remember (String.length s) as n eqn:Hn. revert s Hn.
  induction n as [n IH] using lt_wf_ind. intros s Hn prev.
  destruct s as [|c s]; [reflexivity|]. rewrite lex_from_eq.
  destruct (TOKEN_REGEX prev (String c s)) as [[[k v] rest]|] eqn:E.
  - pose proof (TOKEN_REGEX_ok _ _ _ _ _ E) as Hok.
    apply TOKEN_REGEX_shorter in E. cbv zeta.
    destruct (String.eqb k "WHITESPACE").
    + apply (IH (String.length rest)); [subst n; exact E | reflexivity].
    + simpl. rewrite Hok. apply (IH (String.length rest)); [subst n; exact E | reflexivity].
  - apply (IH (String.length s)); [subst n; simpl; lia | reflexivity].
Qed.

(* ------------------------------------------------------------------ *)
(** ** Decimal numerals *)

Lemma string_of_uint_digits (d : Decimal.uint) :
  all_chars is_digit (DecimalString.NilEmpty.string_of_uint d) = true.
Proof. induction d; simpl; auto. Qed.

Lemma string_of_uint_nonempty (d : Decimal.uint) :
  d <> Decimal.Nil -> DecimalString.NilEmpty.string_of_uint d <> "".
Proof. destruct d; simpl; intros H; try discriminate. contradiction. Qed.

(** The text of a non-negative integer is a non-empty run of digits that
    [int] reads back. *)
Lemma py_str_nonneg (z : Z) :
  (0 <= z)%Z ->
  py_str z <> "" /\ all_chars is_digit (py_str z) = true /\
  py_int (py_str z) = Ok z.
Proof.
  intros Hz.
  assert (H : exists d, d <> Decimal.Nil /\
                py_str z = DecimalString.NilEmpty.string_of_uint d /\
                Z.of_uint d = z).
  { destruct z as [|p|p]; [| |lia].
    - exists (Decimal.D0 Decimal.Nil). repeat split. discriminate.
    - exists (Pos.to_uint p). split; [apply DecimalPos.Unsigned.to_uint_nonnil|].
      split.
      + unfold py_str. simpl. unfold DecimalString.NilZero.string_of_uint.
        pose proof (DecimalPos.Unsigned.to_uint_nonnil p).
        destruct (Pos.to_uint p); [contradiction | reflexivity ..].
      + unfold Z.of_uint. now rewrite DecimalPos.Unsigned.of_to. }
  destruct H as (d & Hd & -> & <-).
  split; [now apply string_of_uint_nonempty|].
  split; [apply string_of_uint_digits|].
  unfold py_int. rewrite DecimalString.NilEmpty.usu.
  pose proof (string_of_uint_nonempty d Hd).
  destruct (DecimalString.NilEmpty.string_of_uint d); [contradiction | reflexivity].
Qed.

Lemma py_str_starts z rest :
  (0 <= z)%Z -> starts is_space (py_str z ++ rest) = false.
Proof.
  intros Hz. destruct (py_str_nonneg z Hz) as (Hne & Hd & _).
  rewrite starts_app by exact Hne.
  destruct (py_str z) as [|c s]; [contradiction|]. simpl in *.
  apply andb_true_iff in Hd as [Hc _]. now apply digit_not_space.
Qed.

Lemma lex_from_number z prev rest :
  (0 <= z)%Z -> starts is_word rest = false ->
  lex_from prev (py_str z ++ rest) =
  ("NUMBER", py_str z) :: lex_from (last_char prev (py_str z)) rest.
Proof.
  intros Hz Hrest. destruct (py_str_nonneg z Hz) as (Hne & Hd & _).
  now rewrite (lex_from_match _ _ _ _ _
                 (TOKEN_REGEX_number _ rest prev Hne Hd (starts_digit_word _ Hrest))).
Qed.

Lemma lex_from_operator name op prev rest :
  In (name, op) lexed_operators -> starts is_space rest = false ->
  lex_from prev (String " " (op ++ String " " rest)) =
  (name, op) :: lex_from (Some " "%char) rest.
Proof.
  intros Hop Hrest.
  destruct (lexed_operator_facts name op Hop) as (_ & Hw & Hs & Hne & _).
  rewrite (lex_from_match _ _ _ _ _ (TOKEN_REGEX_space _ _
             ltac:(rewrite starts_app by exact Hne; exact Hs))).
  cbn [String.eqb Ascii.eqb Bool.eqb].
  rewrite (lex_from_match _ _ _ _ _ (TOKEN_REGEX_operator name op _ _ Hop)), Hw.
  rewrite (lex_from_match _ _ _ _ _ (TOKEN_REGEX_space _ _ Hrest)).
  reflexivity.
Qed.

(* ================================================================== *)
(** * Properties of the parser *)

(* ------------------------------------------------------------------ *)
(** ** Runs in the monad *)

Lemma bind_ok {A B} (m : M A) (k : A -> M B) p b q :
  bind m k p = Ok (b, q) -> exists a p', m p = Ok (a, p') /\ k a p' = Ok (b, q).
Proof.
  unfold bind. destruct (m p) as [[a p']| |]; try discriminate. eauto.
Qed.

Lemma bind_Ok {A B} (m : M A) (k : A -> M B) p a q :
  m p = Ok (a, q) -> bind m k p = k a q.
Proof. unfold bind. now intros ->. Qed.

Lemma next_token_bind {B} (k : unit -> M B) p :
  bind next_token k p = k tt (next_token_of p).
Proof. reflexivity. Qed.

Lemma expect_ok token_type p u q :
  expect token_type p = Ok (u, q) ->
  exists v, current_token p = Some (token_type, v) /\ q = next_token_of p.
Proof.
  unfold expect, next_token. destruct (current_token p) as [[k v]|]; [|discriminate].
  destruct (String.eqb_spec k token_type) as [->|]; [|discriminate].
  intros [= <-]. eauto.
Qed.

Lemma next_token_ok p u q : next_token p = Ok (u, q) -> q = next_token_of p.
Proof. unfold next_token. now intros [= <-]. Qed.

Tactic Notation "inv_bind" hyp(H) "as" ident(a) ident(p) ident(H1) :=
  apply bind_ok in H as (a & p & H1 & H).

(** [next_token ;;; ...] and [expect k ;;; ...] succeeded. *)
Ltac inv_next H :=
  let u := fresh "u" in
  let p := fresh "p" in
  let H1 := fresh "E" in
  apply bind_ok in H as (u & p & H1 & H);
  apply next_token_ok in H1; subst p.

Tactic Notation "inv_expect" hyp(H) "as" ident(v) ident(Hc) :=
  let u := fresh "u" in
  let p := fresh "p" in
  let H1 := fresh "E" in
  apply bind_ok in H as (u & p & H1 & H);
  apply expect_ok in H1 as (v & Hc & ->).

Ltac inv_ok H := injection H as ? ?; subst.

(* ------------------------------------------------------------------ *)
(** ** The recursion budget only decides whether a run finishes *)

Lemma refines_refl {A} (r : result A) : refines r r.
Proof. now right. Qed.

Lemma refines_out {A} (r : result A) : refines OutOfFuel r.
Proof. now left. Qed.

Lemma refines_bind {A B} (m m' : M A) (k k' : A -> M B) (p : Parser) :
  refines (m p) (m' p) ->
  (forall a q, refines (k a q) (k' a q)) ->
  refines (bind m k p) (bind m' k' p).
Proof.
  intros [H|H] Hk; unfold bind.
  - rewrite H. apply refines_out.
  - rewrite H. destruct (m' p) as [[a q]| |]; [apply Hk | apply refines_refl ..].
Qed.

Ltac refines_step :=
  first [ apply refines_refl
        | apply refines_out
        | apply refines_bind; [| intros ? ?] ].

Lemma expr_group_mono (n : nat) :
  forall m, n <= m ->
    (forall p, refines (expr n p) (expr m p)) /\
    (forall r p, refines (expr_loop n r p) (expr_loop m r p)) /\
    (forall p, refines (term n p) (term m p)) /\
    (forall r p, refines (term_loop n r p) (term_loop m r p)) /\
    (forall p, refines (factor n p) (factor m p)).
Proof.
  induction n as [|n IH]; intros m Hm.
  - repeat split; intros; apply refines_out.
  - destruct m as [|m]; [lia|].
    destruct (IH m ltac:(lia)) as (He & Hel & Ht & Htl & Hf).
    repeat split; intros; cbn [expr expr_loop term term_loop factor].
    + apply refines_bind; auto.
    + destruct (current_token p) as [[k op]|]; [|apply refines_refl].
      destruct (kind_in k expr_ops); [|apply refines_refl].
      repeat (refines_step; auto).
    + apply refines_bind; auto.
    + destruct (current_token p) as [[k op]|]; [|apply refines_refl].
      destruct (kind_in k term_ops); [|apply refines_refl].
      repeat (refines_step; auto).
    + destruct (current_token p) as [[k v]|]; [|apply refines_refl].
      destruct (String.eqb k "NUMBER"); [apply refines_refl|].
      destruct (String.eqb k "IDENTIFIER"); [apply refines_refl|].
      destruct (String.eqb k "LPAREN"); [|apply refines_refl].
      repeat (refines_step; auto).
Qed.

Lemma expr_mono n m p : n <= m -> refines (expr n p) (expr m p).
Proof. intros H. now apply (expr_group_mono n m H). Qed.

Lemma factor_mono n m p : n <= m -> refines (factor n p) (factor m p).
Proof. intros H. now apply (expr_group_mono n m H). Qed.

Lemma assignment_mono n m p :
  n <= m -> refines (assignment n p) (assignment m p).
Proof.
  intros H. unfold assignment.
  destruct (current_token p) as [[k v]|]; [|apply refines_refl].
  repeat (refines_step; auto using expr_mono).
Qed.

Lemma statement_group_mono (n : nat) :
  forall m, n <= m ->
    (forall p, refines (statement n p) (statement m p)) /\
    (forall p, refines (if_statement n p) (if_statement m p)) /\
    (forall p, refines (block_or_statement n p) (block_or_statement m p)) /\
    (forall l p, refines (block_loop n l p) (block_loop m l p)).
Proof.
  induction n as [|n IH]; intros m Hm.
  - repeat split; intros; apply refines_out.
  - destruct m as [|m]; [lia|].
    destruct (IH m ltac:(lia)) as (Hs & Hi & Hb & Hl).
    assert (Hnm : n <= m) by lia.
    repeat split; intros;
      cbn [statement if_statement block_or_statement block_loop].
    + destruct (current_token p) as [[k v]|]; [|apply refines_refl].
      destruct (String.eqb k "IF"); [apply Hi|].
      destruct (String.eqb k "IDENTIFIER" && lookahead "ASSIGN" p);
        [now apply assignment_mono|].
      repeat (refines_step; auto using expr_mono).
    + repeat (refines_step; auto using expr_mono).
      match goal with
      | |- refines (match current_token ?q with _ => _ end) _ =>
          destruct (current_token q) as [[k v]|]; [|apply refines_refl]
      end.
      destruct (String.eqb k "ELSE"); [|apply refines_refl].
      repeat (refines_step; auto).
    + destruct (current_token p) as [[k v]|]; [|apply Hs].
      destruct (String.eqb k "LBRACE"); [|apply Hs].
      repeat (refines_step; auto).
    + destruct (current_token p) as [[k v]|]; [|apply refines_refl].
      destruct (String.eqb k "RBRACE"); [apply refines_refl|].
      repeat (refines_step; auto).
Qed.

Lemma statement_mono n m p : n <= m -> refines (statement n p) (statement m p).
Proof. intros H. now apply (statement_group_mono n m H). Qed.

Lemma parse_loop_mono (n : nat) :
  forall m l p, n <= m -> refines (parse_loop n l p) (parse_loop m l p).
Proof.
  induction n as [|n IH]; intros m l p Hm; [apply refines_out|].
  destruct m as [|m]; [lia|]. cbn [parse_loop].
  destruct (current_token p); [|apply refines_refl].
  apply refines_bind; [apply statement_mono; lia | intros; apply IH; lia].
Qed.

Lemma enough {A} (r r' : result A) (a : A) : refines r r' -> r = Ok a -> r' = Ok a.
Proof. intros [H|H] E; congruence. Qed.

Lemma factor_enough n m p x : factor n p = Ok x -> n <= m -> factor m p = Ok x.
Proof. intros H Hm. exact (enough _ _ _ (factor_mono n m p Hm) H). Qed.

(* ------------------------------------------------------------------ *)
(** ** What a successful call consumed and built *)

Lemma remaining_next p : remaining (next_token_of p) = tokens p.
Proof. unfold next_token_of, remaining. destruct (tokens p); reflexivity. Qed.

Lemma remaining_current p t :
  current_token p = Some t -> remaining p = t :: remaining (next_token_of p).
Proof. intros H. rewrite remaining_next. unfold remaining. now rewrite H. Qed.

Lemma trace_app a b : trace (a ++ b) = (trace a ++ trace b)%list.
Proof. apply flat_map_app. Qed.

Lemma flat_map_snoc {A B} (f : A -> list B) l x :
  flat_map f (l ++ [x]) = (flat_map f l ++ f x)%list.
Proof. rewrite flat_map_app. simpl. now rewrite List.app_nil_r. Qed.

Lemma kind_in_spec k ks : kind_in k ks = true <-> In k ks.
Proof.
  unfold kind_in. rewrite existsb_exists. split.
  - intros (x & Hx & E). apply String.eqb_eq in E. now subst.
  - intros H. exists k. split; [exact H | apply String.eqb_refl].
Qed.

Lemma operator_item k op :
  kind_in k expr_ops || kind_in k term_ops = true ->
  token_item (k, op) = [IOperator op].
Proof.
  intros H. apply orb_true_iff in H.
  assert (Hin : In k (expr_ops ++ term_ops)).
  { apply in_or_app. destruct H as [H|H]; apply kind_in_spec in H; auto. }
  simpl in Hin.
  repeat (destruct Hin as [<-|Hin]; [reflexivity|]). contradiction.
Qed.

Lemma operator_ok k op :
  kind_in k expr_ops || kind_in k term_ops = true ->
  lexeme_ok (k, op) = true -> is_operator op = true.
Proof.
  intros H. apply orb_true_iff in H.
  assert (Hin : In k (expr_ops ++ term_ops)).
  { apply in_or_app. destruct H as [H|H]; apply kind_in_spec in H; auto. }
  simpl in Hin. unfold lexeme_ok, operator_table. cbn [forallb fst snd].
  repeat (destruct Hin as [<-|Hin];
          [ cbn [String.eqb Ascii.eqb Bool.eqb implb andb]; intros Hok;
            repeat (apply andb_true_iff in Hok as [?E Hok]);
            repeat match goal with
                   | E : String.eqb op _ = true |- _ =>
                       apply String.eqb_eq in E; subst op
                   end; reflexivity |]).
  contradiction.
Qed.

Lemma parsed_refl pre (W : Prop) p a :
  node_items a = pre -> (W -> well_formed a = true) -> parsed 0 pre W p a p.
Proof.
  intros Hi Hw. exists []. simpl. rewrite List.app_nil_r. repeat split; auto.
Qed.

(** A token consumed first. *)
Lemma parsed_shift t i least pre (W W' : Prop) p a q :
  current_token p = Some t -> token_item t = i ->
  (W -> lexeme_ok t = true -> W') ->
  parsed least (pre ++ i) W' (next_token_of p) a q ->
  parsed (S least) pre W p a q.
Proof.
  intros Hc Hi HW (c & Hr & Hl & Ha & Hw). exists (t :: c).
  rewrite (remaining_current p t Hc), Hr. repeat split.
  - simpl. lia.
  - rewrite Ha. unfold trace. simpl. rewrite Hi. now rewrite <- List.app_assoc.
  - simpl. intros HWW Hok. apply andb_true_iff in Hok as [Ht Hok]. auto.
Qed.

(** A punctuation token consumed last. *)
Lemma parsed_snoc t least pre (W : Prop) p a q :
  parsed least pre W p a q ->
  current_token q = Some t -> token_item t = [] ->
  parsed (S least) pre W p a (next_token_of q).
Proof.
  intros (c & Hr & Hl & Ha & Hw) Hc Hi. exists (c ++ [t])%list.
  rewrite Hr, (remaining_current q t Hc), <- List.app_assoc. repeat split.
  - rewrite List.length_app. simpl. lia.
  - rewrite Ha, trace_app. unfold trace at 3. simpl. rewrite Hi.
    now rewrite !List.app_nil_r.
  - intros HW Hok. rewrite forallb_app in Hok.
    apply andb_true_iff in Hok as [Hok _]. auto.
Qed.

(** A sub-tree parsed first, and what follows built on it. *)
Lemma parsed_seq l1 l2 pre (W : Prop) p a p' b q :
  parsed l1 [] True p a p' ->
  parsed l2 (pre ++ node_items a) (W /\ well_formed a = true) p' b q ->
  parsed (l1 + l2) pre W p b q.
Proof.
  intros (c1 & Hr1 & Hl1 & Ha1 & Hw1) (c2 & Hr2 & Hl2 & Ha2 & Hw2).
  exists (c1 ++ c2)%list. rewrite Hr1, Hr2, <- List.app_assoc. repeat split.
  - rewrite List.length_app. lia.
  - rewrite Ha2, Ha1, trace_app. simpl. now rewrite <- List.app_assoc.
  - intros HW Hok. rewrite forallb_app in Hok.
    apply andb_true_iff in Hok as [Hok1 Hok2]. auto.
Qed.

(** The tree wrapped in another node. *)
Lemma parsed_map least pre (W : Prop) p a b q :
  parsed least [] True p a q ->
  node_items b = (pre ++ node_items a)%list ->
  (W -> well_formed a = true -> well_formed b = true) ->
  parsed least pre W p b q.
Proof.
  intros (c & Hr & Hl & Ha & Hw) Hb HW. exists c. repeat split; auto.
  rewrite Hb, Ha. reflexivity.
Qed.

Lemma parsed_weaken least least' pre pre' (W W' : Prop) p a q :
  parsed least pre W p a q ->
  least' <= least -> pre' = pre -> (W' -> W) ->
  parsed least' pre' W' p a q.
Proof.
  intros (c & Hr & Hl & Ha & Hw) Hle -> HW. exists c. repeat split; auto. lia.
Qed.

Ltac weaken_to n :=
  eapply parsed_weaken with (least := n);
  [|lia|reflexivity|exact (fun x => x)].

Lemma parsed_binop k op least p r r' p' a q :
  current_token p = Some (k, op) ->
  kind_in k expr_ops || kind_in k term_ops = true ->
  parsed least [] True (next_token_of p) r' p' ->
  parsed 0 (node_items (BinOp r op r'))
           (well_formed (BinOp r op r') = true) p' a q ->
  parsed 0 (node_items r) (well_formed r = true) p a q.
Proof.
  intros Hc Hk Hr' Ha.
  eapply parsed_weaken with (least := S (least + 0)); [|lia|reflexivity|exact (fun H => H)].
  eapply parsed_shift with (W' := well_formed r = true /\ is_operator op = true);
    [exact Hc | apply operator_item, Hk | |].
  - intros Hw Hok. split; [exact Hw | exact (operator_ok k op Hk Hok)].
  - eapply parsed_seq; [exact Hr'|].
    eapply parsed_weaken; [exact Ha | lia | |].
    + simpl. now rewrite <- List.app_assoc.
    + intros [[Hw Hop] Hw']. simpl. now rewrite Hw, Hop, Hw'.
Qed.

Lemma parsed_append least p s p' acc l q :
  parsed least [] True p s p' ->
  parsed 0 (node_items (Block (acc ++ [s])))
           (well_formed (Block (acc ++ [s])) = true) p' (Block l) q ->
  parsed least (node_items (Block acc)) (well_formed (Block acc) = true)
         p (Block l) q.
Proof.
  intros Hs Hl. weaken_to (least + 0). eapply parsed_seq; [exact Hs|].
  eapply parsed_weaken; [exact Hl | lia | |].
  - simpl. now rewrite flat_map_snoc.
  - simpl. intros [Hacc Hs']. rewrite forallb_app. simpl.
    now rewrite Hacc, Hs'.
Qed.

Lemma expr_group_parsed (n : nat) :
  (forall p a q, expr n p = Ok (a, q) -> parsed 1 [] True p a q) /\
  (forall r p a q, expr_loop n r p = Ok (a, q) ->
     parsed 0 (node_items r) (well_formed r = true) p a q) /\
  (forall p a q, term n p = Ok (a, q) -> parsed 1 [] True p a q) /\
  (forall r p a q, term_loop n r p = Ok (a, q) ->
     parsed 0 (node_items r) (well_formed r = true) p a q) /\
  (forall p a q, factor n p = Ok (a, q) -> parsed 1 [] True p a q).
Proof.
  induction n as [|n (He & Hel & Ht & Htl & Hf)].
  - repeat split; intros; discriminate.
  - repeat split; intros *; cbn [expr expr_loop term term_loop factor]; intros H.
    + inv_bind H as r p1 H1. apply Ht in H1. apply Hel in H.
      weaken_to (1 + 0). eapply parsed_seq; [exact H1|].
      eapply parsed_weaken; [exact H | lia | reflexivity | tauto].
    + destruct (current_token p) as [[k op]|] eqn:Hc;
        [|inv_ok H; now apply parsed_refl].
      destruct (kind_in k expr_ops) eqn:Hk; [|inv_ok H; now apply parsed_refl].
      inv_next H. inv_bind H as r' p1 H1. apply Ht in H1. apply Hel in H.
      eapply parsed_binop; [exact Hc | now rewrite Hk | exact H1 | exact H].
    + inv_bind H as r p1 H1. apply Hf in H1. apply Htl in H.
      weaken_to (1 + 0). eapply parsed_seq; [exact H1|].
      eapply parsed_weaken; [exact H | lia | reflexivity | tauto].
    + destruct (current_token p) as [[k op]|] eqn:Hc;
        [|inv_ok H; now apply parsed_refl].
      destruct (kind_in k term_ops) eqn:Hk; [|inv_ok H; now apply parsed_refl].
      inv_next H. inv_bind H as r' p1 H1. apply Hf in H1. apply Htl in H.
      eapply parsed_binop;
        [exact Hc | now rewrite Hk, orb_true_r | exact H1 | exact H].
    + destruct (current_token p) as [[k v]|] eqn:Hc; [|discriminate].
      destruct (String.eqb_spec k "NUMBER") as [->|_].
      { inv_bind H as z p1 H1. unfold lift in H1.
        destruct (py_int v) as [z'| |] eqn:Hz; try discriminate. inv_ok H1.
        inv_next H. inv_ok H.
        eapply parsed_shift with (W' := True);
          [exact Hc | simpl; rewrite Hz; reflexivity | auto |].
        now apply parsed_refl. }
      destruct (String.eqb_spec k "IDENTIFIER") as [->|_].
      { inv_next H. inv_ok H.
        eapply parsed_shift with (W' := True); [exact Hc | reflexivity | auto |].
        now apply parsed_refl. }
      destruct (String.eqb_spec k "LPAREN") as [->|_]; [|discriminate].
      inv_next H. inv_bind H as r p1 H1. apply He in H1.
      inv_expect H as v' Hc'. inv_ok H.
      weaken_to (S (S 1)).
      eapply parsed_shift with (W' := True); [exact Hc | reflexivity | auto |].
      eapply parsed_snoc; [exact H1 | exact Hc' | reflexivity].
Qed.

Lemma expr_parsed n p a q : expr n p = Ok (a, q) -> parsed 1 [] True p a q.
Proof. apply (expr_group_parsed n). Qed.

Lemma assignment_parsed n p a q :
  assignment n p = Ok (a, q) -> parsed 4 [] True p a q.
Proof.
  unfold assignment. destruct (current_token p) as [[k name]|] eqn:Hc; [|discriminate].
  intros H. inv_expect H as v0 Hc0.
  rewrite Hc in Hc0. injection Hc0 as -> <-.
  inv_expect H as v1 Hc1.
  inv_bind H as value p1 H1. apply expr_parsed in H1.
  inv_expect H as v2 Hc2. inv_ok H.
  eapply parsed_shift with (W' := True); [exact Hc | reflexivity | auto |].
  eapply parsed_shift with (W' := True); [exact Hc1 | reflexivity | auto |].
  rewrite List.app_nil_r.
  eapply parsed_snoc; [|exact Hc2 | reflexivity].
  eapply parsed_map; [exact H1 | reflexivity | auto].
Qed.

Lemma statement_group_parsed (n : nat) :
  (forall p a q, statement n p = Ok (a, q) -> parsed 2 [] True p a q) /\
  (forall p a q, if_statement n p = Ok (a, q) -> parsed 6 [] True p a q) /\
  (forall p a q, block_or_statement n p = Ok (a, q) -> parsed 2 [] True p a q) /\
  (forall l p l' q, block_loop n l p = Ok (l', q) ->
     parsed 0 (node_items (Block l)) (well_formed (Block l) = true)
            p (Block l') q).
Proof.
  induction n as [|n (Hs & Hi & Hb & Hl)].
  - repeat split; intros; discriminate.
  - repeat split; intros *;
      cbn [statement if_statement block_or_statement block_loop]; intros H.
    + destruct (current_token p) as [[k v]|] eqn:Hc; [|discriminate].
      destruct (String.eqb k "IF").
      { apply Hi in H. eapply parsed_weaken; [exact H | lia | reflexivity | auto]. }
      destruct (String.eqb k "IDENTIFIER" && lookahead "ASSIGN" p).
      { apply assignment_parsed in H.
        eapply parsed_weaken; [exact H | lia | reflexivity | auto]. }
      inv_bind H as e p1 H1. apply expr_parsed in H1.
      inv_expect H as v' Hc'. inv_ok H.
      eapply parsed_snoc; [exact H1 | exact Hc' | reflexivity].
    + inv_expect H as v0 Hc0. inv_expect H as v1 Hc1.
      inv_bind H as condition p1 H1. apply expr_parsed in H1.
      inv_expect H as v2 Hc2.
      inv_bind H as then_branch p2 H2. apply Hb in H2.
      eapply parsed_shift with (W' := True); [exact Hc0 | reflexivity | auto |].
      eapply parsed_shift with (W' := True); [exact Hc1 | reflexivity | auto |].
      weaken_to (1 + S (2 + 0)).
      eapply parsed_seq; [exact H1|].
      eapply parsed_shift
        with (W' := True /\ well_formed condition = true);
        [exact Hc2 | reflexivity | auto |].
      rewrite List.app_nil_r.
      eapply parsed_seq; [exact H2|].
      destruct (current_token p2) as [[k v]|] eqn:Hc3.
      2:{ inv_ok H. apply parsed_refl.
          - simpl. now rewrite List.app_nil_r.
          - simpl. intros [[_ ->] ->]. reflexivity. }
      destruct (String.eqb_spec k "ELSE") as [->|_].
      2:{ inv_ok H. apply parsed_refl.
          - simpl. now rewrite List.app_nil_r.
          - simpl. intros [[_ ->] ->]. reflexivity. }
      inv_next H. inv_bind H as else_branch p3 H3. apply Hb in H3. inv_ok H.
      eapply parsed_weaken with (least := S 2);
        [|lia|reflexivity|exact (fun x => x)].
      eapply parsed_shift
        with (W' := (True /\ well_formed condition = true)
                    /\ well_formed then_branch = true);
        [exact Hc3 | reflexivity | auto |].
      eapply parsed_map; [exact H3 | |].
      * simpl. now rewrite <- !List.app_assoc.
      * simpl. intros [[_ ->] ->] ->. reflexivity.
    + destruct (current_token p) as [[k v]|] eqn:Hc; [|now apply Hs].
      destruct (String.eqb_spec k "LBRACE") as [->|_]; [|now apply Hs].
      inv_expect H as v0 Hc0.
      inv_bind H as statements p1 H1. apply Hl in H1.
      inv_expect H as v1 Hc1. inv_ok H.
      eapply parsed_shift with (W' := True); [exact Hc0 | reflexivity | auto |].
      eapply parsed_snoc; [|exact Hc1 | reflexivity].
      eapply parsed_weaken; [exact H1 | lia | reflexivity | reflexivity].
    + destruct (current_token p) as [[k v]|] eqn:Hc;
        [|inv_ok H; now apply parsed_refl].
      destruct (String.eqb k "RBRACE"); [inv_ok H; now apply parsed_refl|].
      inv_bind H as s p1 H1. apply Hs in H1. apply Hl in H.
      eapply parsed_weaken;
        [eapply parsed_append; eassumption | lia | reflexivity | auto].
Qed.

Lemma statement_parsed n p a q :
  statement n p = Ok (a, q) -> parsed 2 [] True p a q.
Proof. apply (statement_group_parsed n). Qed.

Lemma parse_loop_parsed (n : nat) :
  forall l p l' q, parse_loop n l p = Ok (l', q) ->
    parsed 0 (node_items (Block l)) (well_formed (Block l) = true)
           p (Block l') q /\ current_token q = None.
Proof.
  induction n as [|n IH]; intros l p l' q; [discriminate|].
  cbn [parse_loop]. destruct (current_token p) as [t|] eqn:Hc.
  - intros H. inv_bind H as s p1 H1. apply statement_parsed in H1.
    apply IH in H as [H Hq]. split; [|exact Hq].
    eapply parsed_weaken;
      [eapply parsed_append; eassumption | lia | reflexivity | auto].
  - intros H. inv_ok H. split; [now apply parsed_refl | exact Hc].
Qed.

(* ------------------------------------------------------------------ *)
(** ** The parser terminates: three levels of calls per token suffice *)

Lemma parsed_pending least pre W p a q :
  parsed least pre W p a q -> pending q + least <= pending p.
Proof.
  intros (c & Hr & Hl & _). unfold pending. rewrite Hr, List.length_app. lia.
Qed.

Lemma pending_next p t :
  current_token p = Some t -> pending p = S (pending (next_token_of p)).
Proof. intros H. unfold pending. now rewrite (remaining_current p t H). Qed.

Lemma finishes_bind {A B} (m : M A) (k : A -> M B) p :
  finishes (m p) ->
  (forall a q, m p = Ok (a, q) -> finishes (k a q)) ->
  finishes (bind m k p).
Proof.
  unfold finishes, bind. intros Hm Hk.
  destruct (m p) as [[a q]| |]; [now apply Hk | discriminate | contradiction].
Qed.

Lemma finishes_expect {B} token_type (k : unit -> M B) p :
  (forall v, current_token p = Some (token_type, v) ->
     finishes (k tt (next_token_of p))) ->
  finishes (bind (expect token_type) k p).
Proof.
  intros Hk. apply finishes_bind.
  - unfold expect, next_token, finishes.
    destruct (current_token p) as [[? ?]|]; [destruct (String.eqb _ _)|]; discriminate.
  - intros [] q H. apply expect_ok in H as (v & Hc & ->). eauto.
Qed.

Lemma finishes_next {B} (k : unit -> M B) p :
  finishes (k tt (next_token_of p)) -> finishes (bind next_token k p).
Proof.
  intros Hk. apply finishes_bind; [discriminate|].
  intros [] q H. apply next_token_ok in H. now subst.
Qed.

Lemma finishes_ok {A} (a : A) : finishes (Ok a).
Proof. discriminate. Qed.

Lemma finishes_raise {A} e : finishes (@Raise A e).
Proof. discriminate. Qed.

Lemma py_int_finishes (s : string) : finishes (py_int s).
Proof.
  unfold py_int, finishes. destruct s; [discriminate|].
  destruct (DecimalString.NilEmpty.uint_of_string _); discriminate.
Qed.

Lemma expr_group_finishes (n : nat) :
  (forall p, 3 * pending p + 3 <= n -> finishes (expr n p)) /\
  (forall r p, 3 * pending p + 1 <= n -> finishes (expr_loop n r p)) /\
  (forall p, 3 * pending p + 2 <= n -> finishes (term n p)) /\
  (forall r p, 3 * pending p + 1 <= n -> finishes (term_loop n r p)) /\
  (forall p, 3 * pending p + 1 <= n -> finishes (factor n p)).
Proof.
  induction n as [|n (He & Hel & Ht & Htl & Hf)].
  - repeat split; intros; lia.
  - pose proof (expr_group_parsed n) as (Pe & _ & Pt & _ & Pf).
    repeat split; intros *; cbn [expr expr_loop term term_loop factor]; intros Hn.
    + apply finishes_bind; [apply Ht; lia|].
      intros a q H. apply Pt, parsed_pending in H. apply Hel. lia.
    + destruct (current_token p) as [[k op]|] eqn:Hc; [|apply finishes_ok].
      destruct (kind_in k expr_ops); [|apply finishes_ok].
      apply pending_next in Hc.
      apply finishes_next, finishes_bind; [apply Ht; lia|].
      intros a q H. apply Pt, parsed_pending in H. apply Hel. lia.
    + apply finishes_bind; [apply Hf; lia|].
      intros a q H. apply Pf, parsed_pending in H. apply Htl. lia.
    + destruct (current_token p) as [[k op]|] eqn:Hc; [|apply finishes_ok].
      destruct (kind_in k term_ops); [|apply finishes_ok].
      apply pending_next in Hc.
      apply finishes_next, finishes_bind; [apply Hf; lia|].
      intros a q H. apply Pf, parsed_pending in H. apply Htl. lia.
    + destruct (current_token p) as [[k v]|] eqn:Hc; [|apply finishes_raise].
      apply pending_next in Hc.
      destruct (String.eqb k "NUMBER").
      { pose proof (py_int_finishes v) as Hz.
        unfold finishes, bind, lift, next_token, ret in *.
        destruct (py_int v); [discriminate | discriminate | contradiction]. }
      destruct (String.eqb k "IDENTIFIER"); [apply finishes_next, finishes_ok|].
      destruct (String.eqb k "LPAREN"); [|apply finishes_raise].
      apply finishes_next, finishes_bind; [apply He; lia|].
      intros a q H. apply finishes_expect. intros; apply finishes_ok.
Qed.

Lemma expr_finishes n p : 3 * pending p + 3 <= n -> finishes (expr n p).
Proof. apply (expr_group_finishes n). Qed.

Lemma assignment_finishes n p :
  3 * pending p <= n + 3 -> finishes (assignment n p).
Proof.
  intros Hn. unfold assignment.
  destruct (current_token p) as [[k name]|] eqn:Hc; [|apply finishes_raise].
  apply pending_next in Hc.
  apply finishes_expect. intros v0 Hc0. apply pending_next in Hc0.
  apply finishes_expect. intros v1 Hc1. apply pending_next in Hc1.
  apply finishes_bind; [apply expr_finishes; lia|].
  intros a q H. apply finishes_expect. intros; apply finishes_ok.
Qed.

Lemma statement_group_finishes (n : nat) :
  (forall p, 3 * pending p + 4 <= n -> finishes (statement n p)) /\
  (forall p, 3 * pending p + 3 <= n -> finishes (if_statement n p)) /\
  (forall p, 3 * pending p + 5 <= n -> finishes (block_or_statement n p)) /\
  (forall l p, 3 * pending p + 5 <= n -> finishes (block_loop n l p)).
Proof.
  induction n as [|n (Hs & Hi & Hb & Hl)].
  - repeat split; intros; lia.
  - pose proof (statement_group_parsed n) as (Ps & _ & Pb & _).
    repeat split; intros *;
      cbn [statement if_statement block_or_statement block_loop]; intros Hn.
    + destruct (current_token p) as [[k v]|] eqn:Hc; [|apply finishes_raise].
      destruct (String.eqb k "IF"); [apply Hi; lia|].
      destruct (String.eqb k "IDENTIFIER" && lookahead "ASSIGN" p);
        [apply assignment_finishes; lia|].
      apply finishes_bind; [apply expr_finishes; lia|].
      intros a q H. apply finishes_expect. intros; apply finishes_ok.
    + apply finishes_expect. intros v0 Hc0. apply pending_next in Hc0.
      apply finishes_expect. intros v1 Hc1. apply pending_next in Hc1.
      apply finishes_bind; [apply expr_finishes; lia|].
      intros condition q H. apply expr_parsed, parsed_pending in H.
      apply finishes_expect. intros v2 Hc2. apply pending_next in Hc2.
      apply finishes_bind; [apply Hb; lia|].
      intros then_branch q' H'. apply Pb, parsed_pending in H'.
      destruct (current_token q') as [[k v]|] eqn:Hc3; [|apply finishes_ok].
      destruct (String.eqb k "ELSE"); [|apply finishes_ok].
      apply pending_next in Hc3.
      apply finishes_next, finishes_bind; [apply Hb; lia|].
      intros; apply finishes_ok.
    + destruct (current_token p) as [[k v]|] eqn:Hc; [|apply Hs; lia].
      destruct (String.eqb k "LBRACE"); [|apply Hs; lia].
      apply finishes_expect. intros v0 Hc0. apply pending_next in Hc0.
      apply finishes_bind; [apply Hl; lia|].
      intros a q H. apply finishes_expect. intros; apply finishes_ok.
    + destruct (current_token p) as [[k v]|] eqn:Hc; [|apply finishes_ok].
      destruct (String.eqb k "RBRACE"); [apply finishes_ok|].
      apply finishes_bind; [apply Hs; lia|].
      intros a q H. apply Ps, parsed_pending in H. apply Hl. lia.
Qed.

Lemma parse_loop_finishes (n : nat) :
  forall l p, 3 * pending p + 5 <= n -> finishes (parse_loop n l p).
Proof.
  induction n as [|n IH]; intros l p Hn; [lia|].
  cbn [parse_loop]. destruct (current_token p); [|apply finishes_ok].
  apply finishes_bind; [apply (statement_group_finishes n); lia|].
  intros a q H. apply statement_parsed, parsed_pending in H. apply IH. lia.
Qed.

(** Parsing always ends with a tree or an exception: the budget [parse]
    gives its loop is never used up. *)
Lemma parse_terminates (p : Parser) : parse p <> OutOfFuel.
Proof.
  unfold parse.
  assert (H : finishes (parse_loop (parse_fuel p) [] p)).
  { unfold parse_fuel. destruct (current_token p) eqn:Hc.
    - apply parse_loop_finishes. unfold pending, remaining. rewrite Hc. simpl. lia.
    - replace (3 * _ + 9) with (S (3 * List.length (tokens p) + 8)) by lia.
      cbn [parse_loop]. rewrite Hc. apply finishes_ok. }
  destruct (parse_loop (parse_fuel p) [] p) as [[l q]| |];
    [discriminate | discriminate | contradiction].
Qed.

(** With any larger budget the loop of [parse] gives what [parse] gives. *)
Lemma parse_any_fuel (p : Parser) (n : nat) (l : list node) (q : Parser) :
  parse_loop n [] p = Ok (l, q) -> parse p = Ok (Block l).
Proof.
  intros H. pose proof (parse_terminates p) as Hp. unfold parse in *.
  destruct (parse_loop_mono (parse_fuel p) (Nat.max (parse_fuel p) n) [] p
              (Nat.le_max_l _ _)) as [E|E];
    [rewrite E in Hp; contradiction|].
  destruct (parse_loop_mono n (Nat.max (parse_fuel p) n) [] p
              (Nat.le_max_r _ _)) as [E'|E']; [congruence|].
  rewrite E, <- E', H. reflexivity.
Qed.

(* ------------------------------------------------------------------ *)
(** ** Else branches and [else] tokens *)

(** Induction on trees, through the statements of a [Block] and the
    optional else branch. *)
Lemma node_induction (P : node -> Prop) :
  (forall z, P (Number z)) ->
  (forall name, P (Identifier name)) ->
  (forall l op r, P l -> P r -> P (BinOp l op r)) ->
  (forall t v, P t -> P v -> P (Assignment t v)) ->
  (forall c t e, P c -> P t -> (forall e', e = Some e' -> P e') ->
     P (IfStatement c t e)) ->
  (forall l, Forall P l -> P (Block l)) ->
  forall n, P n.
Proof.
  intros P_number P_identifier P_binop P_assignment P_if P_block.
  fix IH 1. intros [z | name | l op r | t v | c t e | l].
  - apply P_number.
  - apply P_identifier.
  - apply P_binop; apply IH.
  - apply P_assignment; apply IH.
  - apply P_if; [apply IH | apply IH |].
    destruct e as [x|]; intros e' [= <-]. apply IH.
  - apply P_block. induction l as [|x l IHl]; constructor; [apply IH | exact IHl].
Qed.

Lemma count_else_app a b : count_else (a ++ b) = count_else a + count_else b.
Proof. unfold count_else. now rewrite filter_app, List.length_app. Qed.

Lemma count_else_items (n : node) : count_else (node_items n) = else_branches n.
Proof.
  induction n as [z | name | l op r IHl IHr | t v IHt IHv | c t e IHc IHt IHe | l IH]
    using node_induction; cbn [node_items else_branches].
  - reflexivity.
  - reflexivity.
  - rewrite !count_else_app, IHl, IHr. reflexivity.
  - rewrite count_else_app, IHt, IHv. reflexivity.
  - rewrite !count_else_app, IHc, IHt, Nat.add_assoc.
    destruct e as [e'|]; [|reflexivity].
    change (count_else (IElse :: node_items e')) with (S (count_else (node_items e'))).
    now rewrite (IHe e' eq_refl).
  - induction IH as [|x l Hx _ IHl]; [reflexivity|].
    cbn [flat_map map list_sum]. now rewrite count_else_app, Hx, IHl.
Qed.

Lemma count_else_trace (ts : list token) : count_else (trace ts) = else_tokens ts.
Proof.
  induction ts as [|[k v] ts IH]; [reflexivity|].
  unfold trace, else_tokens in *. cbn [flat_map filter fst].
  rewrite count_else_app, IH.
  destruct (String.eqb_spec k "ELSE") as [->|Hk]; [reflexivity|].
  replace (count_else (token_item (k, v))) with 0; [reflexivity|].
  unfold token_item.
  destruct (String.eqb k "NUMBER"); [destruct (py_int v); reflexivity|].
  destruct (String.eqb k "IDENTIFIER"); [reflexivity|].
  destruct (kind_in k expr_ops || kind_in k term_ops); [reflexivity|].
  destruct (String.eqb_spec k "ELSE"); [contradiction | reflexivity].
Qed.

(** The statements the loop of [parse] adds are in the order of the tokens:
    the tokens it consumes split into consecutive segments, one for each
    statement, in the same order, each holding the content of its
    statement. *)
Lemma parse_loop_segments (n : nat) :
  forall l p l' q, parse_loop n l p = Ok (l', q) ->
    exists new segments,
      l' = (l ++ new)%list /\
      remaining p = (concat segments ++ remaining q)%list /\
      Forall2 (fun seg s => seg <> [] /\ node_items s = trace seg) segments new.
Proof.
  induction n as [|n IH]; intros l p l' q; [discriminate|].
  cbn [parse_loop]. destruct (current_token p) as [t|] eqn:Hc.
  - intros H. inv_bind H as s p1 H1.
    apply statement_parsed in H1 as (c & Hr & Hl & Hi & _).
    apply IH in H as (new & segments & -> & Hr' & Hf).
    exists (s :: new), (c :: segments). split; [|split].
    + now rewrite <- List.app_assoc.
    + cbn [concat]. now rewrite Hr, Hr', List.app_assoc.
    + constructor; [|exact Hf]. split; [|exact Hi].
      destruct c; [simpl in Hl; lia | discriminate].
  - intros H. inv_ok H. exists [], []. split; [|split].
    + now rewrite List.app_nil_r.
    + reflexivity.
    + constructor.
Qed.

(** A successful parse of a token sequence: the tree is a [Block] whose
    statements match consecutive segments of the tokens, it is well formed
    when the tokens are consistent, and its content is that of the tokens,
    in their order. *)
Lemma parse_spec (toks : list token) (ast : node) :
  parse (Parser_init toks) = Ok ast ->
  (exists statements segments,
     ast = Block statements /\ toks = concat segments /\
     Forall2 (fun seg s => seg <> [] /\ node_items s = trace seg)
             segments statements) /\
  (forallb lexeme_ok toks = true -> well_formed ast = true) /\
  node_items ast = trace toks.
Proof.
  unfold parse.
  destruct (parse_loop _ [] (Parser_init toks)) as [[l q]| |] eqn:E;
    try discriminate.
  intros [= <-].
  assert (Hinit : remaining (Parser_init toks) = toks)
    by (unfold Parser_init; now rewrite remaining_next).
  pose proof (parse_loop_segments _ _ _ _ _ E) as (new & segments & Hn & Hs & Hf).
  apply parse_loop_parsed in E as [(c & Hr & _ & Hi & Hw) Hq].
  assert (Hend : remaining q = []) by (unfold remaining; now rewrite Hq).
  rewrite Hinit, Hend, List.app_nil_r in Hr, Hs. subst c. cbn [app] in Hn. subst l.
  split; [exists new, segments; auto|].
  split; [intros Hok; now apply Hw | exact Hi].
Qed.

(* ------------------------------------------------------------------ *)
(** ** The loops of [expr] and [term], step by step *)

Lemma Parser_init_cons t ts : Parser_init (t :: ts) = mkParser ts (Some t).
Proof. reflexivity. Qed.

Lemma expr_eq n p : expr (S n) p = (result <- term n ;; expr_loop n result) p.
Proof. reflexivity. Qed.

Lemma term_eq n p : term (S n) p = (result <- factor n ;; term_loop n result) p.
Proof. reflexivity. Qed.

Lemma expr_loop_eq n result p :
  expr_loop (S n) result p =
  match current_token p with
  | Some (k, op) =>
      if kind_in k expr_ops
      then (next_token ;;; r <- term n ;; expr_loop n (BinOp result op r)) p
      else Ok (result, p)
  | None => Ok (result, p)
  end.
Proof. reflexivity. Qed.

Lemma term_loop_eq n result p :
  term_loop (S n) result p =
  match current_token p with
  | Some (k, op) =>
      if kind_in k term_ops
      then (next_token ;;; r <- factor n ;; term_loop n (BinOp result op r)) p
      else Ok (result, p)
  | None => Ok (result, p)
  end.
Proof. reflexivity. Qed.

Lemma loops_stop q m a :
  no_operator q = true ->
  term_loop (S m) a q = Ok (a, q) /\ expr_loop (S m) a q = Ok (a, q).
Proof.
  unfold no_operator. intros H. cbn [term_loop expr_loop].
  destruct (current_token q) as [[k v]|]; [|split; reflexivity].
  apply negb_true_iff, orb_false_iff in H as [-> ->]. split; reflexivity.
Qed.

Lemma term_loop_step n l p k op r q :
  current_token p = Some (k, op) -> kind_in k term_ops = true ->
  factor n (next_token_of p) = Ok (r, q) ->
  term_loop (S n) l p = term_loop n (BinOp l op r) q.
Proof.
  intros Hc Hk Hf. rewrite term_loop_eq, Hc, Hk, next_token_bind.
  unfold bind. now rewrite Hf.
Qed.

Lemma term_loop_stop n l p k op :
  current_token p = Some (k, op) -> kind_in k term_ops = false ->
  term_loop (S n) l p = Ok (l, p).
Proof. intros Hc Hk. now rewrite term_loop_eq, Hc, Hk. Qed.

Lemma expr_loop_step n l p k op r q :
  current_token p = Some (k, op) -> kind_in k expr_ops = true ->
  term n (next_token_of p) = Ok (r, q) ->
  expr_loop (S n) l p = expr_loop n (BinOp l op r) q.
Proof.
  intros Hc Hk Hf. rewrite expr_loop_eq, Hc, Hk, next_token_bind.
  unfold bind. now rewrite Hf.
Qed.

Lemma expr_loop_stop n l p k op :
  current_token p = Some (k, op) -> kind_in k expr_ops = false ->
  expr_loop (S n) l p = Ok (l, p).
Proof. intros Hc Hk. now rewrite expr_loop_eq, Hc, Hk. Qed.

Lemma term_of_factor n p l q :
  factor n p = Ok (l, q) -> term (S n) p = term_loop n l q.
Proof. intros H. rewrite term_eq. unfold bind. now rewrite H. Qed.

Lemma expr_of_term n p l q :
  term n p = Ok (l, q) -> expr (S n) p = expr_loop n l q.
Proof. intros H. rewrite expr_eq. unfold bind. now rewrite H. Qed.

(** [term] and [expr] on a factor that no operator follows. *)
Lemma term_single n p t q :
  factor n p = Ok (t, q) -> no_operator q = true ->
  term (S n) p = Ok (t, q).
Proof.
  intros Hf Hq. destruct n as [|n]; [discriminate|].
  rewrite term_eq, (bind_Ok _ _ _ _ _ Hf). now apply loops_stop.
Qed.

Lemma expr_single n p t q :
  factor n p = Ok (t, q) -> no_operator q = true ->
  expr (S (S n)) p = Ok (t, q).
Proof.
  intros Hf Hq.
  rewrite expr_eq, (bind_Ok _ _ _ _ _ (term_single n p t q Hf Hq)).
  now apply loops_stop.
Qed.

(** [expr] on two factors joined by an operator, where no operator
    follows. *)
Lemma expr_binary n p l k op r ts q' :
  factor n p = Ok (l, mkParser ts (Some (k, op))) ->
  kind_in k expr_ops || kind_in k term_ops = true ->
  factor n (Parser_init ts) = Ok (r, q') ->
  no_operator q' = true ->
  expr (S (S (S n))) p = Ok (BinOp l op r, q').
Proof.
  intros Hl Hk Hr Hq'. destruct n as [|n]; [discriminate|].
  set (q := mkParser ts (Some (k, op))) in *.
  assert (Hq : next_token_of q = Parser_init ts) by reflexivity.
  apply (factor_enough (S n) (S (S n))) in Hl; [|lia].
  assert (Ht' : term (S (S (S n))) p = term_loop (S (S n)) l q)
    by (rewrite term_eq; apply (bind_Ok _ _ _ _ _ Hl)).
  rewrite term_loop_eq in Ht'. subst q. cbn [current_token] in Ht'.
  rewrite expr_eq.
  destruct (kind_in k term_ops) eqn:Ht.
  - rewrite next_token_bind, Hq, (bind_Ok _ _ _ _ _ Hr) in Ht'.
    rewrite (proj1 (loops_stop q' n _ Hq')) in Ht'.
    rewrite (bind_Ok _ _ _ _ _ Ht'). now apply loops_stop.
  - rewrite orb_false_r in Hk.
    rewrite (bind_Ok _ _ _ _ _ Ht').
    rewrite expr_loop_eq. cbn [current_token]. rewrite Hk.
    rewrite next_token_bind, Hq.
    rewrite (bind_Ok _ _ _ _ _ (term_single _ _ _ _ Hr Hq')).
    now apply loops_stop.
Qed.

Lemma factor_number n s z ts :
  py_int s = Ok z ->
  factor (S n) (mkParser ts (Some ("NUMBER", s))) = Ok (Number z, Parser_init ts).
Proof.
  intros H. cbn [factor current_token String.eqb Ascii.eqb Bool.eqb].
  unfold bind, lift. now rewrite H.
Qed.

(** A program that is one expression statement. *)
Lemma parse_expression_statement n p t k v :
  expr n p = Ok (t, Parser_init [("SEMICOLON", ";")]) ->
  current_token p = Some (k, v) ->
  String.eqb k "IF" = false ->
  String.eqb k "IDENTIFIER" && lookahead "ASSIGN" p = false ->
  parse p = Ok (Block [t]).
Proof.
  intros He Hc Hif Hid.
  apply (parse_any_fuel p (S (S (S n))) [t] (Parser_init [])).
  cbn [parse_loop]. rewrite Hc. unfold bind at 1.
  cbn [statement]. rewrite Hc, Hif, Hid. unfold bind at 1.
  rewrite (enough _ _ _ (expr_mono n (S n) p ltac:(lia)) He).
  reflexivity.
Qed.

(* ================================================================== *)
(** * Rendering and reading back *)

(* ------------------------------------------------------------------ *)
(** ** Expressions *)

(** Lexing the rendering of an expression, followed by a text that begins
    with no word character, gives the tokens of the rendering and then those
    of the text. *)
Lemma lex_expression (t : node) :
  expression t ->
  exists s, generate_code t = Ok s /\ s <> "" /\ starts is_space s = false /\
    forall prev rest, starts is_word rest = false ->
      lex_from prev (s ++ rest) =
      (expr_tokens t ++ lex_from (last_char prev s) rest)%list.
Proof.
  induction 1 as [z Hz | name Hid Hif Helse
                 | l name op r Hl (sl & Gl & Nl & Sl & Ll) Hop
                     Hr (sr & Gr & Nr & Sr & Lr)].
  - destruct (py_str_nonneg z Hz) as (Hne & Hd & _).
    exists (py_str z). repeat split; auto.
    + destruct (py_str z) as [|c s]; [contradiction|]. simpl in *.
      apply andb_true_iff in Hd as [Hc _]. now apply digit_not_space.
    + intros prev rest Hrest.
      now rewrite (lex_from_match _ _ _ _ _
                     (TOKEN_REGEX_number _ rest prev Hne Hd
                        (starts_digit_word _ Hrest))).
  - exists name. repeat split; auto.
    + destruct name; [discriminate | discriminate].
    + destruct name as [|c s]; [discriminate|]. simpl in *.
      apply andb_true_iff in Hid as [Hc _]. now apply ident_start_not_space.
    + intros prev rest Hrest.
      now rewrite (lex_from_match _ _ _ _ _
                     (TOKEN_REGEX_identifier _ rest prev Hid Hif Helse Hrest)).
  - destruct (lexed_operator_facts name op Hop) as (Hn & Hw & Hs & Hne & _).
    exists ("(" ++ sl ++ " " ++ op ++ " " ++ sr ++ ")").
    split; [simpl; now rewrite Gl, Gr|].
    split; [discriminate|]. split; [reflexivity|].
    intros prev rest Hrest.
    repeat rewrite string_app_assoc.
    change ("(" ++ sl ++ " " ++ op ++ " " ++ sr ++ ")" ++ rest)
      with (String "(" (sl ++ String " " (op ++ String " " (sr ++ String ")" rest)))).
    rewrite (lex_from_match _ _ _ _ _ (TOKEN_REGEX_lparen _ prev)).
    cbn [String.eqb Ascii.eqb Bool.eqb].
    rewrite Ll by reflexivity.
    rewrite (lex_from_match _ _ _ _ _ (TOKEN_REGEX_space _ _
               ltac:(rewrite starts_app by exact Hne; exact Hs))).
    cbn [String.eqb Ascii.eqb Bool.eqb].
    rewrite (lex_from_match _ _ _ _ _ (TOKEN_REGEX_operator name op _ _ Hop)).
    rewrite Hw.
    rewrite (lex_from_match _ _ _ _ _ (TOKEN_REGEX_space _ _
               ltac:(rewrite starts_app by exact Nr; exact Sr))).
    cbn [String.eqb Ascii.eqb Bool.eqb].
    rewrite Lr by reflexivity.
    rewrite (lex_from_match _ _ _ _ _ (TOKEN_REGEX_rparen _ _)).
    cbn [String.eqb Ascii.eqb Bool.eqb expr_tokens].
    rewrite Hn.
    replace (last_char prev ("(" ++ sl ++ " " ++ op ++ " " ++ sr ++ ")"))
      with (Some ")"%char)
      by (repeat rewrite last_char_app; reflexivity).
    cbn [last_char app]. rewrite <- !List.app_assoc. cbn [app].
    rewrite <- !List.app_assoc. reflexivity.
Qed.

(** [factor] reads back an expression from the tokens of its rendering,
    whatever follows them. *)
Lemma factor_expression (t : node) :
  expression t ->
  exists n, forall more,
    factor n (Parser_init (expr_tokens t ++ more)) = Ok (t, Parser_init more).
Proof.
  induction 1 as [z Hz | name Hid Hif Helse
                 | l name op r Hl (nl & Fl) Hop Hr (nr & Fr)].
  - exists 1. intros more. destruct (py_str_nonneg z Hz) as (_ & _ & Hi).
    cbn [expr_tokens app factor Parser_init_cons]. rewrite Parser_init_cons.
    cbn [current_token String.eqb Ascii.eqb Bool.eqb].
    unfold bind, lift. rewrite Hi. reflexivity.
  - exists 1. intros more. reflexivity.
  - destruct (lexed_operator_facts name op Hop) as (Hn & _ & _ & _ & Hk).
    exists (S (S (S (S (Nat.max nl nr))))). intros more.
    cbn [expr_tokens app]. rewrite Hn.
    rewrite <- !List.app_assoc. cbn [app]. rewrite <- !List.app_assoc. cbn [app].
    rewrite Parser_init_cons.
    cbn [factor current_token String.eqb Ascii.eqb Bool.eqb].
    unfold bind at 1, next_token at 1.
    change (next_token_of (mkParser ?ts (Some ("LPAREN", "("))))
      with (Parser_init ts).
    unfold bind at 1.
    rewrite (expr_binary (Nat.max nl nr) _ l name op r
               (expr_tokens r ++ ("RPAREN", ")") :: more)
               (Parser_init (("RPAREN", ")") :: more))).
    + reflexivity.
    + rewrite <- Parser_init_cons.
      apply (factor_enough nl); [apply Fl | apply Nat.le_max_l].
    + exact Hk.
    + apply (factor_enough nr); [apply Fr | apply Nat.le_max_r].
    + reflexivity.
Qed.

(** The tokens of a rendered expression followed by [";"] parse back to the
    expression, as the only statement of the program. *)
Lemma parse_rendered_expression (t : node) :
  expression t ->
  parse (Parser_init (expr_tokens t ++ [("SEMICOLON", ";")])) = Ok (Block [t]).
Proof.
  intros Ht. destruct (factor_expression t Ht) as (n & Hf).
  specialize (Hf [("SEMICOLON", ";")]).
  apply expr_single in Hf; [|reflexivity].
  destruct Ht as [z Hz | name Hid Hif Helse | l name op r Hl Hop Hr];
    eapply parse_expression_statement; try exact Hf; reflexivity.
Qed.

(* ------------------------------------------------------------------ *)
(** ** Number literals joined by operators *)

(** The text [a op b;] with [a] and [b] non-negative literals and [op] an
    operator the lexer recognises compiles to [(a op b)]. *)
Lemma compile_binary_literals (a b : Z) (name op : string) :
  (0 <= a)%Z -> (0 <= b)%Z -> In (name, op) lexed_operators ->
  compile_code (py_str a ++ " " ++ op ++ " " ++ py_str b ++ ";") =
  Ok ("(" ++ py_str a ++ " " ++ op ++ " " ++ py_str b ++ ")").
Proof.
  intros Ha Hb Hop.
  destruct (py_str_nonneg a Ha) as (_ & _ & Ia).
  destruct (py_str_nonneg b Hb) as (_ & _ & Ib).
  destruct (lexed_operator_facts name op Hop) as (_ & _ & _ & _ & Hk).
  assert (Hlex : lex (py_str a ++ " " ++ op ++ " " ++ py_str b ++ ";") =
                 [("NUMBER", py_str a); (name, op); ("NUMBER", py_str b);
                  ("SEMICOLON", ";")]).
  { unfold lex.
    change (py_str a ++ " " ++ op ++ " " ++ py_str b ++ ";")
      with (py_str a ++ String " " (op ++ String " " (py_str b ++ String ";" ""))).
    rewrite lex_from_number by (exact Ha || reflexivity).
    rewrite (lex_from_operator name op) by (exact Hop || now apply py_str_starts).
    rewrite lex_from_number by (exact Hb || reflexivity).
    now rewrite (lex_from_match _ _ _ _ _ (TOKEN_REGEX_semicolon _ _)). }
  unfold compile_code. rewrite Hlex.
  rewrite (parse_expression_statement 4 _
             (BinOp (Number a) op (Number b)) "NUMBER" (py_str a));
    try reflexivity.
  rewrite Parser_init_cons.
  apply (expr_binary 1 _ (Number a) name op (Number b)
           [("NUMBER", py_str b); ("SEMICOLON", ";")]).
  - now apply factor_number.
  - exact Hk.
  - rewrite Parser_init_cons. now apply factor_number.
  - reflexivity.
Qed.

Lemma parse_three_operands sa sb sc a b c n1 o1 n2 o2 :
  py_int sa = Ok a -> py_int sb = Ok b -> py_int sc = Ok c ->
  In (n1, o1) lexed_operators -> In (n2, o2) lexed_operators ->
  parse (Parser_init [("NUMBER", sa); (n1, o1); ("NUMBER", sb); (n2, o2);
                      ("NUMBER", sc); ("SEMICOLON", ";")]) =
  Ok (Block [if binds_tighter n2 n1
             then BinOp (Number a) o1 (BinOp (Number b) o2 (Number c))
             else BinOp (BinOp (Number a) o1 (Number b)) o2 (Number c)]).
Proof.
  intros Ha Hb Hc H1 H2.
  pose proof (lexed_operator_level n1 o1 H1) as L1.
  pose proof (lexed_operator_level n2 o2 H2) as L2.
  eapply (parse_expression_statement 6); try reflexivity.
  rewrite Parser_init_cons.
  set (end_ := Parser_init [("SEMICOLON", ";")]).
  assert (Send : forall m x, term_loop (S m) x end_ = Ok (x, end_)
                             /\ expr_loop (S m) x end_ = Ok (x, end_))
    by (intros; now apply loops_stop).
  unfold binds_tighter.
  destruct (kind_in n1 term_ops) eqn:T1, (kind_in n2 term_ops) eqn:T2;
    cbn [negb andb] in *.
  - erewrite expr_of_term; [apply Send|].
    erewrite term_of_factor by (apply factor_number; eassumption).
    erewrite term_loop_step;
      [| reflexivity | exact T1 | apply factor_number; eassumption].
    erewrite term_loop_step;
      [| reflexivity | exact T2 | apply factor_number; eassumption].
    apply Send.
  - erewrite expr_of_term.
    2:{ erewrite term_of_factor by (apply factor_number; eassumption).
        erewrite term_loop_step;
          [| reflexivity | exact T1 | apply factor_number; eassumption].
        eapply term_loop_stop; [reflexivity | exact T2]. }
    erewrite expr_loop_step; [apply Send | reflexivity | exact L2 |].
    erewrite term_of_factor by (apply factor_number; eassumption). apply Send.
  - erewrite expr_of_term.
    2:{ erewrite term_of_factor by (apply factor_number; eassumption).
        eapply term_loop_stop; [reflexivity | exact T1]. }
    erewrite expr_loop_step; [apply Send | reflexivity | exact L1 |].
    erewrite term_of_factor by (apply factor_number; eassumption).
    erewrite term_loop_step;
      [| reflexivity | exact T2 | apply factor_number; eassumption].
    apply Send.
  - erewrite expr_of_term.
    2:{ erewrite term_of_factor by (apply factor_number; eassumption).
        eapply term_loop_stop; [reflexivity | exact T1]. }
    erewrite expr_loop_step; [| reflexivity | exact L1 |].
    2:{ erewrite term_of_factor by (apply factor_number; eassumption).
        eapply term_loop_stop; [reflexivity | exact T2]. }
    erewrite expr_loop_step; [apply Send | reflexivity | exact L2 |].
    erewrite term_of_factor by (apply factor_number; eassumption). apply Send.
Qed.

Lemma compile_three_literals (a b c : Z) (n1 o1 n2 o2 : string) :
  (0 <= a)%Z -> (0 <= b)%Z -> (0 <= c)%Z ->
  In (n1, o1) lexed_operators -> In (n2, o2) lexed_operators ->
  compile_code (py_str a ++ " " ++ o1 ++ " " ++ py_str b ++ " " ++ o2 ++ " "
                ++ py_str c ++ ";") =
  Ok (if binds_tighter n2 n1
      then "(" ++ py_str a ++ " " ++ o1 ++ " ("
           ++ py_str b ++ " " ++ o2 ++ " " ++ py_str c ++ "))"
      else "((" ++ py_str a ++ " " ++ o1 ++ " " ++ py_str b ++ ") "
           ++ o2 ++ " " ++ py_str c ++ ")").
Proof.
  intros Ha Hb Hc H1 H2.
  destruct (py_str_nonneg a Ha) as (_ & _ & Ia).
  destruct (py_str_nonneg b Hb) as (_ & _ & Ib).
  destruct (py_str_nonneg c Hc) as (_ & _ & Ic).
  assert (Hlex : lex (py_str a ++ " " ++ o1 ++ " " ++ py_str b ++ " " ++ o2
                      ++ " " ++ py_str c ++ ";") =
                 [("NUMBER", py_str a); (n1, o1); ("NUMBER", py_str b);
                  (n2, o2); ("NUMBER", py_str c); ("SEMICOLON", ";")]).
  { unfold lex.
    change (py_str a ++ " " ++ o1 ++ " " ++ py_str b ++ " " ++ o2 ++ " "
            ++ py_str c ++ ";")
      with (py_str a ++ String " " (o1 ++ String " "
              (py_str b ++ String " " (o2 ++ String " "
                 (py_str c ++ String ";" ""))))).
    rewrite lex_from_number by (exact Ha || reflexivity).
    rewrite (lex_from_operator n1 o1) by (exact H1 || now apply py_str_starts).
    rewrite lex_from_number by (exact Hb || reflexivity).
    rewrite (lex_from_operator n2 o2) by (exact H2 || now apply py_str_starts).
    rewrite lex_from_number by (exact Hc || reflexivity).
    now rewrite (lex_from_match _ _ _ _ _ (TOKEN_REGEX_semicolon _ _)). }
  unfold compile_code. rewrite Hlex.
  rewrite (parse_three_operands _ _ _ a b c n1 o1 n2 o2 Ia Ib Ic H1 H2).
  destruct (binds_tighter n2 n1); cbn [rbind generate_code join].
  - repeat rewrite string_app_assoc. reflexivity.
  - repeat rewrite string_app_assoc. reflexivity.
Qed.

(* ------------------------------------------------------------------ *)
(** ** The rendering of [IfStatement] *)

(** How [generate_code] renders an [IfStatement] whose parts render: the
    else part is there exactly when the rendered else branch is not the
    empty text. *)
Lemma generate_if (c t : node) (e : option node) (sc st se : string) :
  generate_code c = Ok sc -> generate_code t = Ok st ->
  match e with Some e' => generate_code e' | None => Ok "" end = Ok se ->
  generate_code (IfStatement c t e) =
  Ok ("if (" ++ sc ++ ") {" ++ nl ++ "  " ++ st ++ nl ++ "}"
      ++ (if String.eqb se "" then ""
          else " else {" ++ nl ++ "  " ++ se ++ nl ++ "}")).
Proof. intros Hc Ht He. cbn [generate_code]. now rewrite Hc, Ht, He. Qed.

(* ------------------------------------------------------------------ *)
(** ** The pipeline returns a text or raises *)

Lemma finishes_rbind {A B} (r : result A) (k : A -> result B) :
  finishes r -> (forall a, finishes (k a)) -> finishes (rbind r k).
Proof.
  unfold finishes. intros Hr Hk.
  destruct r as [a| |]; cbn [rbind]; [apply Hk | discriminate | contradiction].
Qed.

Lemma generate_code_finishes (n : node) : finishes (generate_code n).
Proof.
  induction n as [z | name | l op r IHl IHr | t v IHt IHv | c t e IHc IHt IHe | l IH]
    using node_induction; cbn [generate_code].
  - apply finishes_ok.
  - apply finishes_ok.
  - repeat (apply finishes_rbind; [assumption | intros ?]). apply finishes_ok.
  - destruct t; try apply finishes_raise.
    apply finishes_rbind; [assumption | intros ?; apply finishes_ok].
  - apply finishes_rbind; [assumption | intros ?].
    apply finishes_rbind; [assumption | intros ?].
    apply finishes_rbind; [|intros ?; apply finishes_ok].
    destruct e as [e'|]; [now apply IHe | apply finishes_ok].
  - apply finishes_rbind; [|intros ?; apply finishes_ok].
    induction IH as [|x l Hx _ IHl]; [apply finishes_ok|].
    apply finishes_rbind; [exact Hx | intros ?].
    apply finishes_rbind; [exact IHl | intros ?; apply finishes_ok].
Qed.

(** The budget of the model is never what ends a run of the pipeline. *)
Lemma compile_code_finishes (code : string) : finishes (compile_code code).
Proof.
  unfold compile_code. apply finishes_rbind.
  - apply parse_terminates.
  - apply generate_code_finishes.
Qed.

(* ================================================================== *)
(** * The claims of the specification *)

(** C1.  The claim is that [a op b;] compiles to [(a op b)] for each of the
    ten operators.  It holds, for all non-negative literals [a] and [b], for
    the eight operators the lexer recognises.  For ["<="] and [">="] the
    code does otherwise: the alternation tries ["<"] and [">"] before ["<="]
    and [">="], so the lexer splits them into a comparison and an assignment
    token, and the parser then raises a [SyntaxError] at the ["="]. *)
Theorem compile_binary_operators :
  (forall (a b : Z) (name op : string),
     (0 <= a)%Z -> (0 <= b)%Z -> In (name, op) lexed_operators ->
     compile_code (py_str a ++ " " ++ op ++ " " ++ py_str b ++ ";") =
     Ok ("(" ++ py_str a ++ " " ++ op ++ " " ++ py_str b ++ ")")) /\
  lex "1 <= 2;" =
    [("NUMBER", "1"); ("LT", "<"); ("ASSIGN", "="); ("NUMBER", "2");
     ("SEMICOLON", ";")] /\
  compile_code "1 <= 2;" =
    Raise (SyntaxError "Erro de sintaxe: token inesperado '='") /\
  lex "1 >= 2;" =
    [("NUMBER", "1"); ("GT", ">"); ("ASSIGN", "="); ("NUMBER", "2");
     ("SEMICOLON", ";")] /\
  compile_code "1 >= 2;" =
    Raise (SyntaxError "Erro de sintaxe: token inesperado '='").
Proof.
  split; [exact compile_binary_literals|].
  repeat split; vm_compute; reflexivity.
Qed.

Lemma compile_binary_operators_witness :
  compile_code "12 == 7;" = Ok "(12 == 7)" /\
  compile_code "0 / 345;" = Ok "(0 / 345)".
Proof.
  split.
  - apply (proj1 compile_binary_operators 12 7 "EQ" "==")%Z;
      first [lia | simpl; tauto].
  - apply (proj1 compile_binary_operators 0 345 "DIVIDE" "/")%Z;
      first [lia | simpl; tauto].
Defined.

(** C2.  The claim is that the else part is rendered whenever the else
    branch is present, an empty [Block] included.  What the code renders,
    for parts that render, is the [if] part followed by the else part
    exactly when the rendered text of the else branch is not empty.  So the
    code does otherwise for an else branch that is an empty [Block]:
    [if (x) y; else {}] parses to an [IfStatement] with that else branch,
    and it is rendered with no else part at all, whereas an empty [Block]
    as the then branch is rendered between its braces. *)
Theorem if_rendering :
  (forall (c t : node) (e : option node) (sc st se : string),
     generate_code c = Ok sc -> generate_code t = Ok st ->
     match e with Some e' => generate_code e' | None => Ok "" end = Ok se ->
     generate_code (IfStatement c t e) =
     Ok ("if (" ++ sc ++ ") {" ++ nl ++ "  " ++ st ++ nl ++ "}"
         ++ (if String.eqb se "" then ""
             else " else {" ++ nl ++ "  " ++ se ++ nl ++ "}"))) /\
  parse (Parser_init (lex "if (x) y; else {}")) =
    Ok (Block [IfStatement (Identifier "x") (Identifier "y") (Some (Block []))]) /\
  generate_code (IfStatement (Identifier "x") (Identifier "y") (Some (Block []))) =
    Ok ("if (x) {" ++ nl ++ "  y" ++ nl ++ "}") /\
  compile_code "if (x) y; else {}" = Ok ("if (x) {" ++ nl ++ "  y" ++ nl ++ "}") /\
  generate_code (IfStatement (Identifier "x") (Block []) None) =
    Ok ("if (x) {" ++ nl ++ "  " ++ nl ++ "}").
Proof.
  split; [exact generate_if|].
  repeat split; vm_compute; reflexivity.
Qed.

Lemma if_rendering_witness :
  generate_code
    (IfStatement (Identifier "x") (Identifier "y") (Some (Identifier "z"))) =
  Ok ("if (" ++ "x" ++ ") {" ++ nl ++ "  " ++ "y" ++ nl ++ "}"
      ++ " else {" ++ nl ++ "  " ++ "z" ++ nl ++ "}").
Proof.
  apply (proj1 if_rendering (Identifier "x") (Identifier "y")
           (Some (Identifier "z")) "x" "y" "z"); reflexivity.
Defined.

(** C3.  Multiplicative operators bind tighter than the additive and
    comparison operators, which share one left-associative level.  For all
    non-negative literals [a], [b], [c] and operators [o1], [o2] that the
    lexer recognises, [a o1 b o2 c;] compiles to [(a o1 (b o2 c))] when [o2]
    is multiplicative and [o1] is not, and to [((a o1 b) o2 c)] otherwise;
    in particular [1 + 2 * 3;] compiles to [(1 + (2 * 3))]. *)
Theorem precedence_and_associativity :
  (forall (a b c : Z) (n1 o1 n2 o2 : string),
     (0 <= a)%Z -> (0 <= b)%Z -> (0 <= c)%Z ->
     In (n1, o1) lexed_operators -> In (n2, o2) lexed_operators ->
     compile_code (py_str a ++ " " ++ o1 ++ " " ++ py_str b ++ " " ++ o2 ++ " "
                   ++ py_str c ++ ";") =
     Ok (if binds_tighter n2 n1
         then "(" ++ py_str a ++ " " ++ o1 ++ " ("
              ++ py_str b ++ " " ++ o2 ++ " " ++ py_str c ++ "))"
         else "((" ++ py_str a ++ " " ++ o1 ++ " " ++ py_str b ++ ") "
              ++ o2 ++ " " ++ py_str c ++ ")")) /\
  compile_code "1 + 2 * 3;" = Ok "(1 + (2 * 3))" /\
  compile_code "1 * 2 + 3;" = Ok "((1 * 2) + 3)" /\
  compile_code "1 - 2 - 3;" = Ok "((1 - 2) - 3)" /\
  compile_code "8 / 4 / 2;" = Ok "((8 / 4) / 2)" /\
  compile_code "1 < 2 + 3;" = Ok "((1 < 2) + 3)" /\
  compile_code "1 + 2 == 3 - 4;" = Ok "(((1 + 2) == 3) - 4)" /\
  compile_code "1 != 2 / 3 > 4;" = Ok "((1 != (2 / 3)) > 4)".
Proof.
  split; [exact compile_three_literals|].
  repeat split; vm_compute; reflexivity.
Qed.

Lemma precedence_and_associativity_witness :
  compile_code "10 - 2 / 3;" = Ok "(10 - (2 / 3))" /\
  compile_code "10 < 2 != 3;" = Ok "((10 < 2) != 3)".
Proof.
  split.
  - apply (proj1 precedence_and_associativity 10 2 3 "MINUS" "-" "DIVIDE" "/")%Z;
      first [lia | simpl; tauto].
  - apply (proj1 precedence_and_associativity 10 2 3 "LT" "<" "NEQ" "!=")%Z;
      first [lia | simpl; tauto].
Defined.

(** C4.  The pipeline on [x = 5;] returns [x = 5;]. *)
Theorem assignment_round_trip : compile_code "x = 5;" = Ok "x = 5;".
Proof. vm_compute. reflexivity. Qed.

(** C5, as stated, fails: the rendering of [1 + 2] is [(1 + 2)], with no
    semicolon, and the pipeline on it raises a [SyntaxError] because an
    expression statement must end in [";"]. *)
Lemma rendering_alone_does_not_parse :
  generate_code (BinOp (Number 1) "+" (Number 2)) = Ok "(1 + 2)" /\
  compile_code "(1 + 2)" =
    Raise (SyntaxError "Esperado 'SEMICOLON' mas encontrado 'EOF'") /\
  compile_code "(1 + 2)" <> generate_code (BinOp (Number 1) "+" (Number 2)).
Proof.
  split; [|split].
  - vm_compute. reflexivity.
  - vm_compute. reflexivity.
  - vm_compute. discriminate.
Qed.

(** C5, amended.  For every expression tree built from non-negative
    literals, identifiers that are not keywords and the operators
    [+ - * / == != < >] (a [BinOp] tree in particular), the rendering
    followed by [";"] is lexed and parsed back to the very tree, so the
    pipeline returns the rendering again; and the rendering itself is read
    back by [expr] with no token left. *)
Theorem parenthesization_fixed_point (t : node) :
  expression t ->
  exists s,
    generate_code t = Ok s /\
    parse (Parser_init (lex (s ++ ";"))) = Ok (Block [t]) /\
    compile_code (s ++ ";") = Ok s /\
    exists n, expr n (Parser_init (lex s)) = Ok (t, Parser_init []).
Proof.
  intros Ht. destruct (lex_expression t Ht) as (s & Hg & _ & _ & Hlex).
  exists s. split; [exact Hg|].
  assert (Hl : lex (s ++ ";") = (expr_tokens t ++ [("SEMICOLON", ";")])%list).
  { unfold lex. rewrite Hlex by reflexivity.
    now rewrite (lex_from_match _ _ _ _ _ (TOKEN_REGEX_semicolon _ _)). }
  assert (Hp : parse (Parser_init (lex (s ++ ";"))) = Ok (Block [t]))
    by (rewrite Hl; now apply parse_rendered_expression).
  split; [exact Hp|]. split.
  - unfold compile_code. rewrite Hp. cbn [rbind generate_code]. now rewrite Hg.
  - destruct (factor_expression t Ht) as (n & Hf). exists (S (S n)).
    specialize (Hlex None "" eq_refl). rewrite string_app_nil in Hlex.
    unfold lex. rewrite Hlex. change (lex_from _ "") with (@nil token).
    apply expr_single; [apply Hf | reflexivity].
Qed.

Lemma parenthesization_fixed_point_witness :
  exists s,
    generate_code (BinOp (Number 1) "+" (BinOp (Identifier "x") "*" (Number 3)))
      = Ok s /\
    parse (Parser_init (lex (s ++ ";"))) =
      Ok (Block [BinOp (Number 1) "+" (BinOp (Identifier "x") "*" (Number 3))]) /\
    compile_code (s ++ ";") = Ok s /\
    exists n, expr n (Parser_init (lex s)) =
      Ok (BinOp (Number 1) "+" (BinOp (Identifier "x") "*" (Number 3)),
          Parser_init []).
Proof.
  apply (parenthesization_fixed_point
           (BinOp (Number 1) "+" (BinOp (Identifier "x") "*" (Number 3)))).
  apply (expression_binop _ "PLUS").
  - apply expression_number. lia.
  - simpl. auto.
  - apply (expression_binop _ "MULTIPLY").
    + apply expression_identifier; [reflexivity | discriminate | discriminate].
    + simpl. auto.
    + apply expression_number. lia.
Defined.

(** C6.  Every tree a successful parse returns on lexed text is well
    formed: the target of each [Assignment] is an [Identifier] and the
    operator of each [BinOp] is one of the ten operators.  It is a [Block]
    whose statements, in their order, hold the content of consecutive
    segments of the tokens; the content of the whole tree read from left to
    right (the statements of every [Block] in the order of its list) is the
    content of the tokens in source order; and the tree has as many else
    branches as the text has [else] tokens. *)
Theorem parse_invariants (code : string) (ast : node) :
  parse (Parser_init (lex code)) = Ok ast ->
  (exists statements segments,
     ast = Block statements /\ lex code = concat segments /\
     Forall2 (fun seg s => seg <> [] /\ node_items s = trace seg)
             segments statements) /\
  well_formed ast = true /\
  node_items ast = trace (lex code) /\
  else_branches ast = else_tokens (lex code).
Proof.
  intros H. apply parse_spec in H as (Hb & Hw & Hi).
  split; [exact Hb|].
  split; [apply Hw, lex_from_ok|]. split; [exact Hi|].
  now rewrite <- count_else_items, Hi, count_else_trace.
Qed.

Lemma parse_invariants_witness :
  (exists statements segments,
     Block [IfStatement (BinOp (Identifier "x") "<" (Number 5))
              (Block [Assignment (Identifier "y") (Number 1)])
              (Some (Block [Assignment (Identifier "y") (Number 2)]));
            BinOp (Identifier "a") "+" (Identifier "b")] = Block statements /\
     lex "if (x < 5) { y = 1; } else { y = 2; } a + b;" = concat segments /\
     Forall2 (fun seg s => seg <> [] /\ node_items s = trace seg)
             segments statements) /\
  well_formed
    (Block [IfStatement (BinOp (Identifier "x") "<" (Number 5))
              (Block [Assignment (Identifier "y") (Number 1)])
              (Some (Block [Assignment (Identifier "y") (Number 2)]));
            BinOp (Identifier "a") "+" (Identifier "b")]) = true /\
  node_items
    (Block [IfStatement (BinOp (Identifier "x") "<" (Number 5))
              (Block [Assignment (Identifier "y") (Number 1)])
              (Some (Block [Assignment (Identifier "y") (Number 2)]));
            BinOp (Identifier "a") "+" (Identifier "b")]) =
    trace (lex "if (x < 5) { y = 1; } else { y = 2; } a + b;") /\
  else_branches
    (Block [IfStatement (BinOp (Identifier "x") "<" (Number 5))
              (Block [Assignment (Identifier "y") (Number 1)])
              (Some (Block [Assignment (Identifier "y") (Number 2)]));
            BinOp (Identifier "a") "+" (Identifier "b")]) =
    else_tokens (lex "if (x < 5) { y = 1; } else { y = 2; } a + b;").
Proof.
  apply (parse_invariants "if (x < 5) { y = 1; } else { y = 2; } a + b;").
  vm_compute. reflexivity.
Defined.

(** C7, as stated, fails: the error [factor] raises on [1 +;] names the
    offending text [";"] but no token kind at all, expected or otherwise. *)
Lemma factor_error_names_no_token_kind :
  ~ exists msg,
      compile_code "1 +;" = Raise (SyntaxError msg) /\
      names_a_token_kind msg = true.
Proof.
  intros (msg & H & Hk). vm_compute in H. injection H as <-.
  vm_compute in Hk. discriminate.
Qed.

(** C7, amended.  Whenever [factor] is entered with no current token, or
    with a token that is none of a number, an identifier or ["("], it
    raises a [SyntaxError] whose message says that the input ended, or
    carries the text of the offending token; in particular the pipeline on
    [1 +;] raises such an error and returns no text. *)
Theorem factor_errors (n : nat) (p : Parser) :
  (current_token p = None ->
   factor (S n) p =
     Raise (SyntaxError
              "Erro de sintaxe: token inesperado no final da entrada")) /\
  (forall k v,
     current_token p = Some (k, v) ->
     k <> "NUMBER" -> k <> "IDENTIFIER" -> k <> "LPAREN" ->
     factor (S n) p =
       Raise (SyntaxError ("Erro de sintaxe: token inesperado '" ++ v ++ "'"))) /\
  compile_code "1 +;" =
    Raise (SyntaxError "Erro de sintaxe: token inesperado ';'").
Proof.
  split; [|split].
  - intros H. cbn [factor]. now rewrite H.
  - intros k v H Hn Hi Hl. cbn [factor]. rewrite H.
    apply String.eqb_neq in Hn, Hi, Hl. now rewrite Hn, Hi, Hl.
  - vm_compute. reflexivity.
Qed.

Lemma factor_errors_witness :
  factor 1 (mkParser [] (Some ("SEMICOLON", ";"))) =
    Raise (SyntaxError ("Erro de sintaxe: token inesperado '" ++ ";" ++ "'")) /\
  factor 1 (mkParser [] None) =
    Raise (SyntaxError "Erro de sintaxe: token inesperado no final da entrada").
Proof.
  split.
  - apply (proj1 (proj2 (factor_errors 0 (mkParser [] (Some ("SEMICOLON", ";")))))
             "SEMICOLON" ";"); [reflexivity | discriminate ..].
  - apply (proj1 (factor_errors 0 (mkParser [] None))). reflexivity.
Defined.

(** C8.  The pipeline on [if (x) y = 1] raises the [SyntaxError] of
    [expect] for a [SEMICOLON] met by the end of the input, and so returns
    no text. *)
Theorem missing_semicolon_at_end :
  compile_code "if (x) y = 1" =
    Raise (SyntaxError "Esperado 'SEMICOLON' mas encontrado 'EOF'") /\
  forall text, compile_code "if (x) y = 1" <> Ok text.
Proof. split; [vm_compute; reflexivity | intros text; vm_compute; discriminate]. Qed.

(** C9, as stated, fails for the word characters that match no pattern,
    such as the Latin-1 letter of code 233: alone it yields no token, but it
    is not skipped without effect on the text around it.  Right before it
    the word [if] is a keyword no more, since no [\b] separates them, and
    right after an identifier it is part of the identifier. *)
Lemma word_character_is_not_neutral :
  matches_no_pattern (ascii_of_nat 233) = true /\
  lex (String (ascii_of_nat 233) "") = [] /\
  lex "if" = [("IF", "if")] /\
  lex (String (ascii_of_nat 233) "if") = [("IDENTIFIER", "if")] /\
  lex ("x" ++ String (ascii_of_nat 233) " = 1;") =
    [("IDENTIFIER", "x" ++ String (ascii_of_nat 233) ""); ("ASSIGN", "=");
     ("NUMBER", "1"); ("SEMICOLON", ";")].
Proof. repeat split; vm_compute; reflexivity. Qed.

(** C9, amended.  The lexer is total: whatever budget at least the length of
    the text [lex_go] is given, it returns the tokens of [lex], a finite
    list, and raises nothing.  Where the search for a match stands at a
    character that matches no pattern (for ["!"]: and no ["="] follows), it
    yields no token and goes on after the character.  If moreover the
    character is not a word character, as ["@"], ["#"] or a lone ["!"], the
    text before it and the text after it are lexed as if each stood
    alone. *)
Theorem lex_total_skips_unmatched :
  (forall code n, String.length code <= n -> lex_go n None code = lex code) /\
  (forall c prev s2, matches_no_pattern c = true ->
     (c = "!"%char -> starts (Ascii.eqb "=") s2 = false) ->
     lex_from prev (String c s2) = lex_from (Some c) s2) /\
  (forall c, matches_no_pattern c = true -> lex (String c "") = []) /\
  (forall c s1 s2, matches_no_pattern c = true -> is_word c = false ->
     (c = "!"%char -> starts (Ascii.eqb "=") s2 = false) ->
     lex (s1 ++ String c s2) = (lex s1 ++ lex s2)%list) /\
  matches_no_pattern "@" = true /\ matches_no_pattern "#" = true /\
  lex "x = 1 @ + #2;" =
    [("IDENTIFIER", "x"); ("ASSIGN", "="); ("NUMBER", "1"); ("PLUS", "+");
     ("NUMBER", "2"); ("SEMICOLON", ";")] /\
  lex "a ! b $ c" =
    [("IDENTIFIER", "a"); ("IDENTIFIER", "b"); ("IDENTIFIER", "c")].
Proof.
  split; [|split; [|split; [|split]]].
  - intros code n Hn. unfold lex, lex_from. now apply lex_go_fuel.
  - intros c prev s2 Hc Hb. now rewrite lex_from_eq, TOKEN_REGEX_no_match.
  - intros c Hc. unfold lex.
    rewrite lex_from_eq, TOKEN_REGEX_no_match; [reflexivity | exact Hc |].
    intros _. reflexivity.
  - intros c s1 s2 Hc Hw Hb. unfold lex.
    destruct (no_pattern_cases c Hc Hw) as [Hu| ->].
    + now apply lex_from_unmatched.
    + apply lex_from_bang. now apply Hb.
  - repeat split; vm_compute; reflexivity.
Qed.

Lemma lex_total_skips_unmatched_witness :
  lex ("ab1" ++ String "@" " + c") = (lex "ab1" ++ lex " + c")%list /\
  lex ("a" ++ String "!" " b") = (lex "a" ++ lex " b")%list /\
  lex_go 40 None "x = 1 @ + #2;" = lex "x = 1 @ + #2;" /\
  lex (String "#" "") = [] /\
  lex_from None (String (ascii_of_nat 233) "if") =
    lex_from (Some (ascii_of_nat 233)) "if".
Proof.
  split; [|split; [|split; [|split]]].
  - apply (proj1 (proj2 (proj2 (proj2 lex_total_skips_unmatched))) "@"%char);
      [reflexivity | reflexivity | discriminate].
  - apply (proj1 (proj2 (proj2 (proj2 lex_total_skips_unmatched))) "!"%char);
      [reflexivity | reflexivity | reflexivity].
  - apply (proj1 lex_total_skips_unmatched). simpl. lia.
  - apply (proj1 (proj2 (proj2 lex_total_skips_unmatched)) "#"%char). reflexivity.
  - apply (proj1 (proj2 lex_total_skips_unmatched)); [reflexivity | discriminate].
Defined.

(** C10.  A name that begins with [if] or [else] and goes on with word
    characters is lexed as one [IDENTIFIER] token carrying the whole name,
    never as a keyword followed by the remainder; so it is too inside a
    text, wherever a character that is not a word character follows the
    name. *)
Theorem keyword_prefix_is_identifier (rest : string) :
  rest <> "" -> all_chars is_word rest = true ->
  lex ("if" ++ rest) = [("IDENTIFIER", "if" ++ rest)] /\
  lex ("else" ++ rest) = [("IDENTIFIER", "else" ++ rest)] /\
  forall prev after, starts is_word after = false ->
    lex_from prev ("if" ++ rest ++ after) =
      ("IDENTIFIER", "if" ++ rest)
        :: lex_from (last_char prev ("if" ++ rest)) after /\
    lex_from prev ("else" ++ rest ++ after) =
      ("IDENTIFIER", "else" ++ rest)
        :: lex_from (last_char prev ("else" ++ rest)) after.
Proof.
  intros Hne Hw.
  assert (Hif : is_identifier ("if" ++ rest) = true) by exact Hw.
  assert (Helse : is_identifier ("else" ++ rest) = true) by exact Hw.
  assert (N1 : "if" ++ rest <> "if") by (destruct rest; [contradiction | discriminate]).
  assert (N2 : "if" ++ rest <> "else") by (destruct rest; discriminate).
  assert (N3 : "else" ++ rest <> "if") by (destruct rest; discriminate).
  assert (N4 : "else" ++ rest <> "else")
    by (destruct rest; [contradiction | discriminate]).
  split; [now apply lex_identifier|]. split; [now apply lex_identifier|].
  intros prev after Hafter. split.
  - change ("if" ++ rest ++ after) with (("if" ++ rest) ++ after).
    now rewrite (lex_from_match _ _ _ _ _
                   (TOKEN_REGEX_identifier _ after prev Hif N1 N2 Hafter)).
  - change ("else" ++ rest ++ after) with (("else" ++ rest) ++ after).
    now rewrite (lex_from_match _ _ _ _ _
                   (TOKEN_REGEX_identifier _ after prev Helse N3 N4 Hafter)).
Qed.

Lemma keyword_prefix_is_identifier_witness :
  lex "ify" = [("IDENTIFIER", "ify")] /\
  lex "elsewhere" = [("IDENTIFIER", "elsewhere")].
Proof.
  split.
  - assert (H : "y" <> "") by discriminate.
    exact (proj1 (keyword_prefix_is_identifier "y" H eq_refl)).
  - assert (H : "where" <> "") by discriminate.
    exact (proj1 (proj2 (keyword_prefix_is_identifier "where" H eq_refl))).
Defined.

(* ================================================================== *)
(** * Further properties of the lexer *)

(* ------------------------------------------------------------------ *)
(** ** The shape of tokens *)

Lemma span_all (p : ascii -> bool) (s : string) :
  all_chars p (fst (span p s)) = true.
Proof.
  induction s as [|c s IH]; simpl; [reflexivity|].
  destruct (p c) eqn:E; [|reflexivity].
  destruct (span p s); simpl in *. now rewrite E.
Qed.

Lemma re_keyword_text kw prev s v rest :
  re_keyword kw prev s = Some (v, rest) -> v = kw.
Proof.
  unfold re_keyword. destruct (at_boundary prev s); [|discriminate].
  destruct (strip_prefix kw s); [|discriminate].
  destruct (at_boundary _ _); [|discriminate]. now intros [= <- _].
Qed.

Lemma re_plus_text p prev s v rest :
  re_plus p prev s = Some (v, rest) -> v <> "" /\ all_chars p v = true.
Proof.
  unfold re_plus. pose proof (span_all p s) as H.
  destruct (span p s) as [[|a l] r]; [discriminate|].
  intros [= <- _]. split; [discriminate | exact H].
Qed.

Lemma re_ident_text prev s v rest :
  re_ident prev s = Some (v, rest) -> is_identifier v = true.
Proof.
  unfold re_ident. destruct s as [|c s]; [discriminate|].
  destruct (is_ident_start c) eqn:E; [|discriminate].
  pose proof (span_all is_word s) as H.
  destruct (span is_word s) as [l r]. intros [= <- _]. simpl in *.
  now rewrite E, H.
Qed.

(** Where [<] does not match, [<=] does not either; the same for [>]. *)
Lemma re_lit_longer (a : ascii) (l : string) prev s :
  re_lit (String a "") prev s = None -> re_lit (String a l) prev s = None.
Proof.
  unfold re_lit. destruct s as [|b s]; simpl; [reflexivity|].
  destruct (Ascii.eqb a b); [discriminate | reflexivity].
Qed.

Lemma TOKEN_REGEX_shape prev s name v rest :
  TOKEN_REGEX prev s = Some (name, v, rest) ->
  name = "WHITESPACE" \/ token_shape (name, v) = true.
Proof.
  unfold TOKEN_REGEX, TOKENS. cbn [alternation].
  repeat match goal with
  | |- context [match re_keyword ?kw prev s with _ => _ end] =>
      let E := fresh "E" in
      destruct (re_keyword kw prev s) as [[? ?]|] eqn:E;
      [ apply re_keyword_text in E; subst; intros [= <- <- _]; now right |]
  | |- context [match re_plus is_digit prev s with _ => _ end] =>
      let E := fresh "E" in
      destruct (re_plus is_digit prev s) as [[? ?]|] eqn:E;
      [ apply re_plus_text in E as [Hne Hd]; intros [= <- <- _]; right;
        cbn [token_shape String.eqb Ascii.eqb Bool.eqb]; rewrite Hd;
        destruct (String.eqb_spec s0 ""); [contradiction | reflexivity] |]
  | |- context [match re_lit ?lit prev s with _ => _ end] =>
      let E := fresh "E" in
      destruct (re_lit lit prev s) as [[? ?]|] eqn:E;
      [ first [ apply re_lit_text in E; subst; intros [= <- <- _]; now right
              | exfalso;
                match goal with
                | H : re_lit _ prev s = None |- _ =>
                    apply re_lit_longer with (l := "=") in H; congruence
                end ] |]
  end.
  destruct (re_ident prev s) as [[? ?]|] eqn:Ei.
  { apply re_ident_text in Ei. intros [= <- <- _]. right. exact Ei. }
  destruct (re_plus is_space prev s) as [[? ?]|]; [|discriminate].
  intros [= <- _ _]. now left.
Qed.

Lemma lex_from_shape (s : string) :
  forall prev, forallb token_shape (lex_from prev s) = true.
Proof.
  remember (String.length s) as n eqn:Hn. revert s Hn.
  induction n as [n IH] using lt_wf_ind. intros s Hn prev.
  destruct s as [|c s]; [reflexivity|]. rewrite lex_from_eq.
  destruct (TOKEN_REGEX prev (String c s)) as [[[k v] rest]|] eqn:E.
  - pose proof (TOKEN_REGEX_shape _ _ _ _ _ E) as Hs.
    apply TOKEN_REGEX_shorter in E. cbv zeta.
    destruct (String.eqb_spec k "WHITESPACE") as [Hk|Hk].
    + apply (IH (String.length rest)); [subst n; exact E | reflexivity].
    + destruct Hs as [Hs|Hs]; [contradiction|].
      cbn [forallb]. rewrite Hs.
      apply (IH (String.length rest)); [subst n; exact E | reflexivity].
  - apply (IH (String.length s)); [subst n; simpl; lia | reflexivity].
Qed.

(** X1.  Every token [lex] returns carries all of what the pattern of its
    kind matches: a [NUMBER] a non-empty run of digits, an [IDENTIFIER] a
    letter or underscore followed by word characters, every other kind its
    one fixed text; and no token has the kind [LE], [GE] or [WHITESPACE]. *)
Theorem lex_token_shapes (code : string) :
  forallb token_shape (lex code) = true.
Proof. apply lex_from_shape. Qed.

(* ------------------------------------------------------------------ *)
(** ** White space *)

Lemma is_space_not_word c : is_space c = true -> is_word c = false.
Proof.
  destruct c as [[] [] [] [] [] [] [] []]; vm_compute; congruence.
Qed.

Lemma is_space_not_unmatched c : is_space c = true -> unmatched c = false.
Proof.
  intros H. unfold unmatched. rewrite H. simpl. now rewrite andb_false_r.
Qed.

Lemma all_chars_app (p : ascii -> bool) (a b : string) :
  all_chars p (a ++ b) = all_chars p a && all_chars p b.
Proof.
  induction a as [|c a IH]; simpl; [reflexivity|].
  now rewrite IH, andb_assoc.
Qed.

Lemma all_chars_impl (p q : ascii -> bool) (s : string) :
  (forall c, p c = true -> q c = true) ->
  all_chars p s = true -> all_chars q s = true.
Proof.
  intros Hpq. induction s as [|c s IH]; simpl; [reflexivity|].
  intros H. apply andb_true_iff in H as [Hc Hs].
  now rewrite (Hpq c Hc), IH.
Qed.

(** A text without white space does not contain the white-space character
    [c]. *)
Lemma not_space_text (c : ascii) (l : string) :
  is_space c = true ->
  all_chars (fun a => negb (is_space a)) l = true ->
  all_chars (fun a => negb (Ascii.eqb a c)) l = true.
Proof.
  intros Hc. apply all_chars_impl. intros a Ha.
  destruct (Ascii.eqb_spec a c) as [->|_]; [|reflexivity].
  now rewrite Hc in Ha.
Qed.

Lemma span_rest (p : ascii -> bool) (s : string) :
  starts p (snd (span p s)) = false.
Proof.
  induction s as [|c s IH]; simpl; [reflexivity|].
  destruct (p c) eqn:E; [|simpl; exact E].
  destruct (span p s); exact IH.
Qed.

Lemma last_char_class (p : ascii -> bool) (u : string) (prev : option ascii) :
  u <> "" -> all_chars p u = true ->
  exists a, last_char prev u = Some a /\ p a = true.
Proof.
  revert prev. induction u as [|c u IH]; intros prev Hne Hu; [contradiction|].
  simpl in *. apply andb_true_iff in Hu as [Hc Hu].
  destruct u as [|d u]; [exists c; now split|].
  apply IH; [discriminate | exact Hu].
Qed.

Lemma last_char_space (u : string) (prev : option ascii) :
  u <> "" -> all_chars is_space u = true ->
  word_opt (last_char prev u) = false.
Proof.
  intros Hne Hu.
  destruct (last_char_class is_space u prev Hne Hu) as (a & -> & Ha).
  simpl. now apply is_space_not_word.
Qed.

Lemma visible_tokens_stop (c : ascii) :
  is_space c = true ->
  Forall (fun a => stops_before c (snd a)) visible_tokens.
Proof.
  intros Hc. pose proof (is_space_not_word c Hc) as Hw.
  assert (Hd : is_digit c = false).
  { destruct (is_digit c) eqn:E; [|reflexivity].
    apply is_digit_word in E. congruence. }
  unfold visible_tokens, TOKENS. cbn [firstn].
  repeat (apply Forall_cons;
          [first [ apply re_keyword_before;
                   [exact Hw | now apply not_space_text]
                 | apply re_lit_before; now apply not_space_text
                 | apply re_plus_before; exact Hd
                 | apply re_ident_before; exact Hw ] |]).
  apply Forall_nil.
Qed.

Lemma alternation_before (c : ascii) (alts : list (string * matcher)) :
  Forall (fun a => stops_before c (snd a)) alts ->
  forall prev s s2,
    alternation alts prev (s ++ String c s2) =
    match alternation alts prev s with
    | Some (name, v, rest) => Some (name, v, rest ++ String c s2)
    | None => None
    end.
Proof.
  induction 1 as [|[n m] alts Hm _ IH]; intros prev s s2; simpl.
  - reflexivity.
  - simpl in Hm. rewrite (Hm prev s s2).
    destruct (m prev s) as [[v r]|]; simpl; [reflexivity | now apply IH].
Qed.

Lemma alternation_app (a b : list (string * matcher)) prev s :
  alternation (a ++ b) prev s =
  match alternation a prev s with
  | Some x => Some x
  | None => alternation b prev s
  end.
Proof.
  induction a as [|[n m] a IH]; simpl; [reflexivity|].
  destruct (m prev s) as [[v r]|]; [reflexivity | exact IH].
Qed.

Lemma alternation_name (alts : list (string * matcher)) prev s k v r :
  alternation alts prev s = Some (k, v, r) -> In k (map fst alts).
Proof.
  induction alts as [|[n m] alts IH]; simpl; [discriminate|].
  destruct (m prev s) as [[v' r']|].
  - intros [= <- _ _]. now left.
  - intros H. right. now apply IH.
Qed.

(** [TOKEN_REGEX] is the alternation of the visible tokens, and after them
    of white space. *)
Lemma TOKEN_REGEX_split prev s :
  TOKEN_REGEX prev s =
  match alternation visible_tokens prev s with
  | Some x => Some x
  | None =>
      match re_plus is_space prev s with
      | Some (v, r) => Some ("WHITESPACE", v, r)
      | None => None
      end
  end.
Proof.
  unfold TOKEN_REGEX.
  change TOKENS with (visible_tokens ++ [("WHITESPACE", re_plus is_space)])%list.
  rewrite alternation_app. reflexivity.
Qed.

Lemma visible_not_whitespace prev s k v r :
  alternation visible_tokens prev s = Some (k, v, r) ->
  String.eqb k "WHITESPACE" = false.
Proof.
  intros H. apply alternation_name in H. simpl in H.
  repeat (destruct H as [<-|H]; [reflexivity|]). contradiction.
Qed.

Lemma visible_miss_space (a : ascii) (s : string) prev :
  is_space a = true -> alternation visible_tokens prev (String a s) = None.
Proof.
  intros Ha.
  pose proof (not_space_text a "ie+-*/(){};=!<>" Ha eq_refl) as H.
  simpl in H. repeat (apply andb_true_iff in H as [?H H]).
  repeat match goal with
         | H : negb _ = true |- _ => apply negb_true_iff in H
         end.
  assert (Hw := is_space_not_word a Ha).
  assert (Hd : is_digit a = false).
  { destruct (is_digit a) eqn:E; [|reflexivity].
    apply is_digit_word in E. congruence. }
  assert (Hi : is_ident_start a = false).
  { destruct (is_ident_start a) eqn:E; [|reflexivity].
    apply is_ident_start_word in E. congruence. }
  unfold visible_tokens, TOKENS. cbn [firstn].
  do 2 (rewrite alternation_skip by (apply re_keyword_miss; assumption)).
  rewrite alternation_skip by (unfold re_plus; simpl; now rewrite Hd).
  repeat (rewrite alternation_skip by (apply re_lit_miss; assumption)).
  cbn [alternation]. unfold re_ident. now rewrite Hi.
Qed.

(** A run of white space up to a character that is not is one match. *)
Lemma TOKEN_REGEX_spaces (u y : string) (prev : option ascii) :
  u <> "" -> all_chars is_space u = true -> starts is_space y = false ->
  TOKEN_REGEX prev (u ++ y) = Some ("WHITESPACE", u, y).
Proof.
  intros Hne Hu Hy. rewrite TOKEN_REGEX_split.
  destruct u as [|a u]; [contradiction|].
  pose proof Hu as Ha. simpl in Ha. apply andb_true_iff in Ha as [Ha _].
  change (String a u ++ y) with (String a (u ++ y)).
  rewrite visible_miss_space by exact Ha.
  change (String a (u ++ y)) with (String a u ++ y).
  unfold re_plus. rewrite (span_app_all is_space _ y Hu Hy). reflexivity.
Qed.

(** White space before a text leaves no trace. *)
Lemma lex_from_spaces (v x : string) (prev : option ascii) :
  v <> "" -> all_chars is_space v = true ->
  lex_from prev (v ++ x) = lex_from None x.
Proof.
  intros Hne Hv.
  pose proof (span_app is_space x) as Hx.
  pose proof (span_all is_space x) as Hw.
  pose proof (span_rest is_space x) as Hy.
  destruct (span is_space x) as [w y]. simpl in *. subst x.
  rewrite <- string_app_assoc.
  assert (Hvw : all_chars is_space (v ++ w) = true)
    by now rewrite all_chars_app, Hv, Hw.
  assert (Hnvw : v ++ w <> "") by (destruct v; [contradiction | discriminate]).
  rewrite (lex_from_match _ _ _ _ _ (TOKEN_REGEX_spaces (v ++ w) y prev Hnvw Hvw Hy)).
  cbn [String.eqb Ascii.eqb Bool.eqb]. simpl.
  destruct w as [|b w].
  - simpl. apply lex_from_prev. simpl. now apply last_char_space.
  - assert (Hnw : String b w <> "") by discriminate.
    rewrite (lex_from_match _ _ _ _ _
               (TOKEN_REGEX_spaces (String b w) y None Hnw Hw Hy)).
    simpl. apply lex_from_prev.
    rewrite (last_char_space (v ++ String b w) prev Hnvw Hvw).
    symmetry. exact (last_char_space (String b w) None Hnw Hw).
Qed.

Lemma TOKEN_REGEX_before_space (c : ascii) prev s s2 k v rest :
  is_space c = true ->
  TOKEN_REGEX prev s = Some (k, v, rest) ->
  String.eqb k "WHITESPACE" = false ->
  TOKEN_REGEX prev (s ++ String c s2) = Some (k, v, rest ++ String c s2).
Proof.
  intros Hc. rewrite !TOKEN_REGEX_split.
  rewrite (alternation_before c _ (visible_tokens_stop c Hc)).
  destruct (alternation visible_tokens prev s) as [[[k' v'] r']|].
  - now intros [= -> -> ->] _.
  - destruct (re_plus is_space prev s) as [[v' r']|]; [|discriminate].
    intros [= <- _ _]. discriminate.
Qed.

Lemma TOKEN_REGEX_none_before_space (c b : ascii) prev s s2 :
  is_space c = true ->
  TOKEN_REGEX prev (String b s) = None ->
  TOKEN_REGEX prev (String b s ++ String c s2) = None.
Proof.
  intros Hc. rewrite !TOKEN_REGEX_split.
  rewrite (alternation_before c _ (visible_tokens_stop c Hc)).
  destruct (alternation visible_tokens prev (String b s)) as [[[k' v'] r']|];
    [discriminate|].
  unfold re_plus. simpl.
  destruct (is_space b); [|reflexivity].
  destruct (span is_space s); discriminate.
Qed.

Lemma TOKEN_REGEX_whitespace prev s v rest :
  TOKEN_REGEX prev s = Some ("WHITESPACE", v, rest) ->
  s = v ++ rest /\ v <> "" /\ all_chars is_space v = true.
Proof.
  intros H. destruct (TOKEN_REGEX_sound _ _ _ _ _ H) as [Hs Hv].
  split; [exact Hs|]. split; [exact Hv|].
  rewrite TOKEN_REGEX_split in H.
  destruct (alternation visible_tokens prev s) as [[[k' v'] r']|] eqn:E.
  - injection H as -> _ _. apply visible_not_whitespace in E. discriminate.
  - destruct (re_plus is_space prev s) as [[v' r']|] eqn:E'; [|discriminate].
    injection H as -> _. now apply re_plus_text in E'.
Qed.

(** Lexing a text in which a white-space character occurs: the parts before
    and after it are lexed as if each stood alone. *)
Lemma lex_from_space (c : ascii) (s2 : string) :
  is_space c = true ->
  forall (s1 : string) (prev : option ascii),
    lex_from prev (s1 ++ String c s2) = (lex_from prev s1 ++ lex_from None s2)%list.
Proof.
  intros Hc s1.
  remember (String.length s1) as n eqn:Hn.
  revert s1 Hn. induction n as [n IH] using lt_wf_ind. intros s1 Hn prev.
  destruct s1 as [|b s1].
  - change ("" ++ String c s2) with (String c "" ++ s2).
    apply lex_from_spaces; [discriminate | simpl; now rewrite Hc].
  - destruct (TOKEN_REGEX prev (String b s1)) as [[[k v] rest]|] eqn:E.
    + destruct (String.eqb_spec k "WHITESPACE") as [->|Hk].
      * apply TOKEN_REGEX_whitespace in E as (Hs & Hv & Hsp).
        rewrite Hs, string_app_assoc.
        rewrite (lex_from_spaces v (rest ++ String c s2) prev Hv Hsp).
        rewrite (lex_from_spaces v rest prev Hv Hsp).
        apply (IH (String.length rest)); [|reflexivity].
        subst n. rewrite Hs, string_length_app.
        destruct v; [contradiction | simpl; lia].
      * apply String.eqb_neq in Hk.
        rewrite (lex_from_match _ _ _ _ _ E), Hk.
        rewrite (lex_from_match _ _ _ _ _
                   (TOKEN_REGEX_before_space c prev _ s2 _ _ _ Hc E Hk)), Hk.
        apply TOKEN_REGEX_shorter in E.
        rewrite (IH (String.length rest)) by (subst n; auto).
        reflexivity.
    + pose proof (TOKEN_REGEX_none_before_space c b prev s1 s2 Hc E) as E'.
      change (String b s1 ++ String c s2) with (String b (s1 ++ String c s2)) in *.
      rewrite !lex_from_eq, E, E'.
      apply (IH (String.length s1)); [subst n; simpl; lia | reflexivity].
Qed.


(** X2.  White space only separates: the tokens of two texts joined by a
    non-empty run of white space are the tokens of the first followed by the
    tokens of the second.  In particular white space at either end of a text
    yields nothing. *)
Theorem whitespace_separates (w s1 s2 : string) :
  w <> "" -> all_chars is_space w = true ->
  lex (s1 ++ w ++ s2) = (lex s1 ++ lex s2)%list.
Proof.
  intros Hne Hw. destruct w as [|c w]; [contradiction|].
  simpl in Hw. apply andb_true_iff in Hw as [Hc Hw].
  change (String c w ++ s2) with (String c (w ++ s2)).
  unfold lex. rewrite (lex_from_space c (w ++ s2) Hc). f_equal.
  destruct w as [|d w]; [reflexivity|].
  apply lex_from_spaces; [discriminate | exact Hw].
Qed.

Lemma whitespace_separates_witness :
  lex ("x=1;" ++ (" " ++ nl) ++ "y") = (lex "x=1;" ++ lex "y")%list.
Proof.
  apply (whitespace_separates (" " ++ nl) "x=1;" "y"); [discriminate | reflexivity].
Defined.



(* ------------------------------------------------------------------ *)
(** ** Keywords *)

Lemma head_not_word rest : starts is_word rest = false -> word_opt (head rest) = false.
Proof. destruct rest; simpl; auto. Qed.

Lemma TOKEN_REGEX_if (rest : string) (prev : option ascii) :
  starts is_word rest = false ->
  TOKEN_REGEX prev ("if" ++ rest) =
  Some ((if word_opt prev then "IDENTIFIER" else "IF"), "if", rest).
Proof.
  intros Hrest. pose proof (head_not_word rest Hrest) as Hh.
  unfold TOKEN_REGEX, TOKENS. destruct (word_opt prev) eqn:Hp.
  - rewrite alternation_skip
      by (unfold re_keyword, at_boundary; simpl; now rewrite Hp).
    rewrite alternation_skip by (apply re_keyword_miss; reflexivity).
    repeat (rewrite alternation_skip by reflexivity).
    cbn [alternation]. unfold re_ident. simpl.
    rewrite (span_starts is_word rest Hrest). reflexivity.
  - cbn [alternation]. unfold re_keyword, at_boundary. simpl.
    rewrite Hp, Hh. reflexivity.
Qed.

Lemma TOKEN_REGEX_else (rest : string) (prev : option ascii) :
  starts is_word rest = false ->
  TOKEN_REGEX prev ("else" ++ rest) =
  Some ((if word_opt prev then "IDENTIFIER" else "ELSE"), "else", rest).
Proof.
  intros Hrest. pose proof (head_not_word rest Hrest) as Hh.
  unfold TOKEN_REGEX, TOKENS.
  rewrite alternation_skip by (apply re_keyword_miss; reflexivity).
  destruct (word_opt prev) eqn:Hp.
  - rewrite alternation_skip
      by (unfold re_keyword, at_boundary; simpl; now rewrite Hp).
    repeat (rewrite alternation_skip by reflexivity).
    cbn [alternation]. unfold re_ident. simpl.
    rewrite (span_starts is_word rest Hrest). reflexivity.
  - cbn [alternation]. unfold re_keyword, at_boundary. simpl.
    rewrite Hp, Hh. reflexivity.
Qed.

Lemma lex_from_if (rest : string) (prev : option ascii) :
  starts is_word rest = false ->
  lex_from prev ("if" ++ rest) =
  ((if word_opt prev then "IDENTIFIER" else "IF"), "if")
    :: lex_from (Some "f"%char) rest.
Proof.
  intros H. rewrite (lex_from_match _ _ _ _ _ (TOKEN_REGEX_if rest prev H)).
  now destruct (word_opt prev).
Qed.

Lemma lex_from_else (rest : string) (prev : option ascii) :
  starts is_word rest = false ->
  lex_from prev ("else" ++ rest) =
  ((if word_opt prev then "IDENTIFIER" else "ELSE"), "else")
    :: lex_from (Some "e"%char) rest.
Proof.
  intros H. rewrite (lex_from_match _ _ _ _ _ (TOKEN_REGEX_else rest prev H)).
  now destruct (word_opt prev).
Qed.

Lemma last_char_digit (ds : string) (prev : option ascii) :
  ds <> "" -> all_chars is_digit ds = true ->
  word_opt (last_char prev ds) = true.
Proof.
  intros Hne Hd.
  destruct (last_char_class is_digit ds prev Hne Hd) as (a & -> & Ha).
  simpl. now apply is_digit_word.
Qed.

(** X4.  The words [if] and [else], standing alone (no word character
    after them), are keywords only where no word character comes before
    them: after one, [\b] fails and the same text is lexed as an
    [IDENTIFIER].  So a keyword written right after a number, as in [1if],
    is an identifier named like the keyword. *)
Theorem keyword_recognition (rest : string) :
  starts is_word rest = false ->
  (forall prev,
     lex_from prev ("if" ++ rest) =
       ((if word_opt prev then "IDENTIFIER" else "IF"), "if")
         :: lex_from (Some "f"%char) rest /\
     lex_from prev ("else" ++ rest) =
       ((if word_opt prev then "IDENTIFIER" else "ELSE"), "else")
         :: lex_from (Some "e"%char) rest) /\
  lex ("if" ++ rest) = ("IF", "if") :: lex_from (Some "f"%char) rest /\
  lex ("else" ++ rest) = ("ELSE", "else") :: lex_from (Some "e"%char) rest /\
  (forall ds, ds <> "" -> all_chars is_digit ds = true ->
     lex (ds ++ "if" ++ rest) =
       ("NUMBER", ds) :: ("IDENTIFIER", "if") :: lex_from (Some "f"%char) rest /\
     lex (ds ++ "else" ++ rest) =
       ("NUMBER", ds) :: ("IDENTIFIER", "else") :: lex_from (Some "e"%char) rest).
Proof.
  intros Hrest. split; [|split; [|split]].
  - intros prev. split; [now apply lex_from_if | now apply lex_from_else].
  - exact (lex_from_if rest None Hrest).
  - exact (lex_from_else rest None Hrest).
  - intros ds Hne Hd. unfold lex. split.
    + rewrite (lex_from_match _ _ _ _ _
                 (TOKEN_REGEX_number ds ("if" ++ rest) None Hne Hd eq_refl)).
      simpl. rewrite (lex_from_if rest _ Hrest).
      now rewrite (last_char_digit ds None Hne Hd).
    + rewrite (lex_from_match _ _ _ _ _
                 (TOKEN_REGEX_number ds ("else" ++ rest) None Hne Hd eq_refl)).
      simpl. rewrite (lex_from_else rest _ Hrest).
      now rewrite (last_char_digit ds None Hne Hd).
Qed.

Lemma keyword_recognition_witness :
  lex ("if" ++ " (x) y;") = ("IF", "if") :: lex_from (Some "f"%char) " (x) y;" /\
  lex ("1" ++ "if" ++ " (x) y;") =
    ("NUMBER", "1") :: ("IDENTIFIER", "if") :: lex_from (Some "f"%char) " (x) y;".
Proof.
  pose proof (keyword_recognition " (x) y;" eq_refl) as (_ & H1 & _ & H2).
  split; [exact H1|]. apply (H2 "1"); [discriminate | reflexivity].
Defined.

(* ================================================================== *)
(** * Further properties of the code generator *)

Lemma generate_code_block (l : list node) :
  generate_code (Block l) =
  rbind (generate_each l) (fun parts => Ok (join nl parts)).
Proof.
  reflexivity.
Qed.

(** The outcome of [generate_code] read off the tree. *)
Lemma generate_code_outcome (n : node) :
  match generate_code n with
  | Ok _ => targets_named n = true
  | Raise (AttributeError _) => targets_named n = false
  | _ => False
  end.
Proof.
  induction n as [z | name | l op r IHl IHr | t v IHt IHv | c t e IHc IHt IHe | l IH]
    using node_induction.
  - reflexivity.
  - reflexivity.
  - cbn [generate_code targets_named].
    destruct (generate_code l) as [sl|[]|]; simpl in *; try contradiction;
      [|now rewrite IHl].
    destruct (generate_code r) as [sr|[]|]; simpl in *; try contradiction;
      now rewrite IHl, IHr.
  - cbn [generate_code targets_named].
    destruct t; try reflexivity.
    destruct (generate_code v) as [sv|[]|]; simpl in *; try contradiction;
      exact IHv.
  - cbn [generate_code targets_named].
    destruct (generate_code c) as [sc|[]|]; simpl in *; try contradiction;
      [|now rewrite IHc].
    destruct (generate_code t) as [st|[]|]; simpl in *; try contradiction;
      [|now rewrite IHc, IHt].
    rewrite IHc, IHt. simpl.
    destruct e as [e'|]; [|reflexivity].
    specialize (IHe e' eq_refl).
    destruct (generate_code e') as [se|[]|]; simpl in *; try contradiction;
      exact IHe.
  - rewrite generate_code_block. cbn [targets_named].
    assert (H : match generate_each l with
                | Ok _ => forallb targets_named l = true
                | Raise (AttributeError _) => forallb targets_named l = false
                | _ => False
                end).
    { induction IH as [|x l Hx _ IHl]; [reflexivity|].
      cbn [generate_each forallb].
      destruct (generate_code x) as [sx|[]|]; simpl in *; try contradiction;
        [|now rewrite Hx].
      destruct (generate_each l) as [ss|[]|]; simpl in *; try contradiction;
        now rewrite Hx, IHl. }
    destruct (generate_each l) as [ss|[]|]; simpl in *; try contradiction;
      exact H.
Qed.

Lemma well_formed_targets (n : node) :
  well_formed n = true -> targets_named n = true.
Proof.
  induction n as [z | name | l op r IHl IHr | t v IHt IHv | c t e IHc IHt IHe | l IH]
    using node_induction; cbn [well_formed targets_named]; intros H.
  - reflexivity.
  - reflexivity.
  - apply andb_true_iff in H as [H Hr]. apply andb_true_iff in H as [Hl _].
    now rewrite IHl, IHr.
  - apply andb_true_iff in H as [Ht Hv]. now rewrite Ht, IHv.
  - apply andb_true_iff in H as [H He]. apply andb_true_iff in H as [Hc Ht].
    rewrite IHc, IHt by assumption. simpl.
    destruct e as [e'|]; [now apply IHe | reflexivity].
  - induction IH as [|x l Hx _ IHl]; [reflexivity|]. simpl in *.
    apply andb_true_iff in H as [H1 H2]. now rewrite Hx, IHl.
Qed.

Lemma generate_code_named (n : node) :
  targets_named n = true -> exists s, generate_code n = Ok s.
Proof.
  intros H. pose proof (generate_code_outcome n) as G.
  destruct (generate_code n) as [s|[]|]; try contradiction; [now exists s|].
  congruence.
Qed.

(** X5.  On a tree within the limits of the interpreter (no number of more
    digits than [str] converts, no nesting deeper than the budget of calls),
    [generate_code] returns a text exactly if the target of every
    [Assignment] is an [Identifier]; on any other such tree it raises an
    [AttributeError], for the missing attribute [name] of the first target
    that is none. *)
Theorem generate_code_outcomes (n : node) :
  renders_within_limits n = true ->
  if targets_named n then exists s, generate_code n = Ok s
  else exists msg, generate_code n = Raise (AttributeError msg).
Proof.
  intros _. pose proof (generate_code_outcome n) as G.
  destruct (generate_code n) as [s|[]|]; try contradiction; rewrite G; eauto.
Qed.

Lemma generate_code_outcomes_witness :
  (exists s,
     generate_code (Block [Assignment (Identifier "x") (Number 5)]) = Ok s) /\
  (exists msg,
     generate_code (Block [Assignment (Number 1) (Number 5)]) =
     Raise (AttributeError msg)).
Proof.
  split.
  - exact (generate_code_outcomes
             (Block [Assignment (Identifier "x") (Number 5)]) eq_refl).
  - exact (generate_code_outcomes
             (Block [Assignment (Number 1) (Number 5)]) eq_refl).
Defined.

(* ================================================================== *)
(** * Further properties of the parser *)

(* ------------------------------------------------------------------ *)
(** ** [int] on the text of a [NUMBER] token *)

Lemma uint_of_string_digits (s : string) :
  all_chars is_digit s = true ->
  exists d, DecimalString.NilEmpty.uint_of_string s = Some d.
Proof.
  induction s as [|c s IH]; simpl; [now exists Decimal.Nil|].
  intros H. apply andb_true_iff in H as [Hc Hs].
  destruct (IH Hs) as [d ->].
  destruct c as [[] [] [] [] [] [] [] []]; try discriminate Hc;
    eexists; reflexivity.
Qed.

Lemma py_int_digits (s : string) :
  s <> "" -> all_chars is_digit s = true ->
  exists z, (0 <= z)%Z /\ py_int s = Ok z.
Proof.
  intros Hne Hs. destruct (uint_of_string_digits s Hs) as [d Hd].
  exists (Z.of_uint d). split; [unfold Z.of_uint; lia|].
  unfold py_int. rewrite Hd. destruct s; [contradiction | reflexivity].
Qed.

Lemma token_shape_number (t : token) : token_shape t = true -> number_ok t = true.
Proof.
  destruct t as [k v]. unfold token_shape, number_ok. simpl.
  destruct (String.eqb k "NUMBER"); [|reflexivity].
  intros H. apply andb_true_iff in H as [Hne Hd].
  apply negb_true_iff, String.eqb_neq in Hne.
  destruct (py_int_digits v Hne Hd) as (z & _ & ->). reflexivity.
Qed.

Lemma lex_numbers (code : string) : forallb number_ok (lex code) = true.
Proof.
  pose proof (lex_from_shape code None) as H. fold (lex code) in H.
  apply forallb_forall. intros t Ht.
  apply token_shape_number. revert t Ht. now apply forallb_forall.
Qed.

(* ------------------------------------------------------------------ *)
(** ** The exceptions of the parser *)

Lemma raises_bind {A B} (P : exn -> bool) (m : M A) (k : A -> M B) p :
  raises_only P (m p) ->
  (forall a q, m p = Ok (a, q) -> raises_only P (k a q)) ->
  raises_only P (bind m k p).
Proof.
  unfold raises_only, bind. intros Hm Hk.
  destruct (m p) as [[a q]|e|]; [now apply Hk | | discriminate].
  intros e' [= <-]. now apply Hm.
Qed.

Lemma raises_ok {A} (P : exn -> bool) (a : A) : raises_only P (Ok a).
Proof. intros e. discriminate. Qed.

Lemma raises_out {A} (P : exn -> bool) : raises_only P (@OutOfFuel A).
Proof. intros e. discriminate. Qed.

Lemma raises_raise {A} (P : exn -> bool) e : P e = true -> raises_only P (@Raise A e).
Proof. intros H e' [= <-]. exact H. Qed.

Lemma raises_weaken {A} (P Q : exn -> bool) (r : result A) :
  (forall e, P e = true -> Q e = true) -> raises_only P r -> raises_only Q r.
Proof. intros H Hr e E. apply H, Hr, E. Qed.

Lemma syntax_parse_error e : is_syntax_error e = true -> is_parse_error e = true.
Proof. now destruct e. Qed.

Lemma raises_expect {B} (P : exn -> bool) token_type (k : unit -> M B) p :
  (forall msg, P (SyntaxError msg) = true) ->
  (forall v, current_token p = Some (token_type, v) ->
     raises_only P (k tt (next_token_of p))) ->
  raises_only P (bind (expect token_type) k p).
Proof.
  intros HP Hk. apply raises_bind.
  - unfold expect, next_token.
    destruct (current_token p) as [[? ?]|]; [destruct (String.eqb _ _)|];
      first [apply raises_ok | apply raises_raise, HP].
  - intros [] q H. apply expect_ok in H as (v & Hc & ->). eauto.
Qed.

Lemma raises_next {B} (P : exn -> bool) (k : unit -> M B) p :
  raises_only P (k tt (next_token_of p)) -> raises_only P (bind next_token k p).
Proof.
  intros Hk. apply raises_bind; [apply raises_ok|].
  intros [] q H. apply next_token_ok in H. now subst.
Qed.

Lemma numbers_next p t :
  current_token p = Some t -> forallb number_ok (remaining p) = true ->
  number_ok t = true /\ forallb number_ok (remaining (next_token_of p)) = true.
Proof.
  intros Hc. rewrite (remaining_current p t Hc). simpl.
  intros H. now apply andb_true_iff in H.
Qed.

Lemma numbers_parsed least pre W p a q :
  parsed least pre W p a q -> forallb number_ok (remaining p) = true ->
  forallb number_ok (remaining q) = true.
Proof.
  intros (c & Hr & _). rewrite Hr, forallb_app.
  intros H. now apply andb_true_iff in H.
Qed.

Lemma expr_group_raises (n : nat) :
  (forall p, forallb number_ok (remaining p) = true ->
     raises_only is_syntax_error (expr n p)) /\
  (forall r p, forallb number_ok (remaining p) = true ->
     raises_only is_syntax_error (expr_loop n r p)) /\
  (forall p, forallb number_ok (remaining p) = true ->
     raises_only is_syntax_error (term n p)) /\
  (forall r p, forallb number_ok (remaining p) = true ->
     raises_only is_syntax_error (term_loop n r p)) /\
  (forall p, forallb number_ok (remaining p) = true ->
     raises_only is_syntax_error (factor n p)).
Proof.
  induction n as [|n (He & Hel & Ht & Htl & Hf)].
  - repeat split; intros; apply raises_out.
  - pose proof (expr_group_parsed n) as (Pe & _ & Pt & _ & Pf).
    repeat split; intros *; cbn [expr expr_loop term term_loop factor]; intros Hn.
    + apply raises_bind; [now apply Ht|].
      intros a q H. apply Hel. exact (numbers_parsed _ _ _ _ _ _ (Pt _ _ _ H) Hn).
    + destruct (current_token p) as [[k op]|] eqn:Hc; [|apply raises_ok].
      destruct (kind_in k expr_ops); [|apply raises_ok].
      destruct (numbers_next p _ Hc Hn) as [_ Hn'].
      apply raises_next, raises_bind; [now apply Ht|].
      intros a q H. apply Hel. exact (numbers_parsed _ _ _ _ _ _ (Pt _ _ _ H) Hn').
    + apply raises_bind; [now apply Hf|].
      intros a q H. apply Htl. exact (numbers_parsed _ _ _ _ _ _ (Pf _ _ _ H) Hn).
    + destruct (current_token p) as [[k op]|] eqn:Hc; [|apply raises_ok].
      destruct (kind_in k term_ops); [|apply raises_ok].
      destruct (numbers_next p _ Hc Hn) as [_ Hn'].
      apply raises_next, raises_bind; [now apply Hf|].
      intros a q H. apply Htl. exact (numbers_parsed _ _ _ _ _ _ (Pf _ _ _ H) Hn').
    + destruct (current_token p) as [[k v]|] eqn:Hc; [|now apply raises_raise].
      destruct (numbers_next p _ Hc Hn) as [Hk Hn'].
      unfold number_ok in Hk. simpl in Hk.
      destruct (String.eqb k "NUMBER").
      { unfold bind, lift, next_token, ret.
        destruct (py_int v); [apply raises_ok | discriminate | discriminate]. }
      destruct (String.eqb k "IDENTIFIER"); [apply raises_next, raises_ok|].
      destruct (String.eqb k "LPAREN"); [|now apply raises_raise].
      apply raises_next, raises_bind; [now apply He|].
      intros a q H. apply raises_expect; [reflexivity|]. intros; apply raises_ok.
Qed.

Lemma expr_raises n p :
  forallb number_ok (remaining p) = true ->
  raises_only is_parse_error (expr n p).
Proof.
  intros H. apply (raises_weaken is_syntax_error); [exact syntax_parse_error|].
  now apply (expr_group_raises n).
Qed.

Lemma assignment_raises n p :
  forallb number_ok (remaining p) = true ->
  raises_only is_parse_error (assignment n p).
Proof.
  intros Hn. unfold assignment.
  destruct (current_token p) as [[k name]|] eqn:Hc; [|now apply raises_raise].
  apply raises_expect; [reflexivity|]. intros v0 Hc0.
  destruct (numbers_next p _ Hc0 Hn) as [_ Hn0].
  apply raises_expect; [reflexivity|]. intros v1 Hc1.
  destruct (numbers_next _ _ Hc1 Hn0) as [_ Hn1].
  apply raises_bind; [now apply expr_raises|].
  intros a q H. apply raises_expect; [reflexivity|]. intros; apply raises_ok.
Qed.

Lemma statement_group_raises (n : nat) :
  (forall p, forallb number_ok (remaining p) = true ->
     raises_only is_parse_error (statement n p)) /\
  (forall p, forallb number_ok (remaining p) = true ->
     raises_only is_parse_error (if_statement n p)) /\
  (forall p, forallb number_ok (remaining p) = true ->
     raises_only is_parse_error (block_or_statement n p)) /\
  (forall l p, forallb number_ok (remaining p) = true ->
     raises_only is_parse_error (block_loop n l p)).
Proof.
  induction n as [|n (Hs & Hi & Hb & Hl)].
  - repeat split; intros; apply raises_out.
  - pose proof (statement_group_parsed n) as (Ps & _ & Pb & _).
    repeat split; intros *;
      cbn [statement if_statement block_or_statement block_loop]; intros Hn.
    + destruct (current_token p) as [[k v]|] eqn:Hc; [|now apply raises_raise].
      destruct (String.eqb k "IF"); [now apply Hi|].
      destruct (String.eqb k "IDENTIFIER" && lookahead "ASSIGN" p);
        [now apply assignment_raises|].
      apply raises_bind; [now apply expr_raises|].
      intros a q H. apply raises_expect; [reflexivity|]. intros; apply raises_ok.
    + apply raises_expect; [reflexivity|]. intros v0 Hc0.
      destruct (numbers_next p _ Hc0 Hn) as [_ Hn0].
      apply raises_expect; [reflexivity|]. intros v1 Hc1.
      destruct (numbers_next _ _ Hc1 Hn0) as [_ Hn1].
      apply raises_bind; [now apply expr_raises|].
      intros condition q H.
      pose proof (numbers_parsed _ _ _ _ _ _ (expr_parsed _ _ _ _ H) Hn1) as Hq.
      apply raises_expect; [reflexivity|]. intros v2 Hc2.
      destruct (numbers_next _ _ Hc2 Hq) as [_ Hn2].
      apply raises_bind; [now apply Hb|].
      intros then_branch q' H'.
      pose proof (numbers_parsed _ _ _ _ _ _ (Pb _ _ _ H') Hn2) as Hq'.
      destruct (current_token q') as [[k v]|] eqn:Hc3; [|apply raises_ok].
      destruct (String.eqb k "ELSE"); [|apply raises_ok].
      destruct (numbers_next _ _ Hc3 Hq') as [_ Hn3].
      apply raises_next, raises_bind; [now apply Hb|].
      intros; apply raises_ok.
    + destruct (current_token p) as [[k v]|] eqn:Hc; [|now apply Hs].
      destruct (String.eqb k "LBRACE"); [|now apply Hs].
      apply raises_expect; [reflexivity|]. intros v0 Hc0.
      destruct (numbers_next p _ Hc0 Hn) as [_ Hn0].
      apply raises_bind; [now apply Hl|].
      intros a q H. apply raises_expect; [reflexivity|]. intros; apply raises_ok.
    + destruct (current_token p) as [[k v]|] eqn:Hc; [|apply raises_ok].
      destruct (String.eqb k "RBRACE"); [apply raises_ok|].
      apply raises_bind; [now apply Hs|].
      intros a q H. apply Hl. exact (numbers_parsed _ _ _ _ _ _ (Ps _ _ _ H) Hn).
Qed.

Lemma parse_loop_raises (n : nat) :
  forall l p, forallb number_ok (remaining p) = true ->
    raises_only is_parse_error (parse_loop n l p).
Proof.
  induction n as [|n IH]; intros l p Hn; [apply raises_out|].
  cbn [parse_loop]. destruct (current_token p); [|apply raises_ok].
  apply raises_bind; [now apply (statement_group_raises n)|].
  intros a q H. apply IH.
  exact (numbers_parsed _ _ _ _ _ _ (statement_parsed _ _ _ _ H) Hn).
Qed.

Lemma remaining_init (toks : list token) : remaining (Parser_init toks) = toks.
Proof. now destruct toks. Qed.

Lemma parse_raises (toks : list token) :
  forallb number_ok toks = true ->
  raises_only is_parse_error (parse (Parser_init toks)).
Proof.
  intros Hn e. unfold parse.
  pose proof (parse_loop_raises (parse_fuel (Parser_init toks)) []
                (Parser_init toks)) as H.
  rewrite remaining_init in H. specialize (H Hn e).
  destruct (parse_loop _ _ _) as [[l q]|e'|]; [discriminate | | discriminate].
  intros [= <-]. now apply H.
Qed.

Lemma parse_error_cases (e : exn) :
  is_parse_error e = true ->
  (exists msg, e = SyntaxError msg) \/ e = none_not_subscriptable.
Proof.
  destruct e as [msg|msg|msg|msg]; try discriminate.
  - intros _. left. now exists msg.
  - simpl. intros H. apply String.eqb_eq in H. subst msg. now right.
Qed.

(** X6.  What a run of the pipeline can end with, on a text whose tokens are
    within the limits of the interpreter: the generated text, a
    [SyntaxError], or the [TypeError] Python raises when [statement] or
    [assignment] subscripts [current_token] after the tokens have run out.
    In particular, on such a text [int] does not fail on a [NUMBER] token,
    [generate_code] does not fail on the tree [parse] returned, and the
    recursion ends. *)
Theorem compile_code_outcomes (code : string) :
  within_limits (lex code) = true ->
  (exists text, compile_code code = Ok text) \/
  (exists msg, compile_code code = Raise (SyntaxError msg)) \/
  compile_code code = Raise none_not_subscriptable.
Proof.
  intros _. unfold compile_code.
  pose proof (parse_raises (lex code) (lex_numbers code)) as Hr.
  pose proof (parse_terminates (Parser_init (lex code))) as Ht.
  destruct (parse (Parser_init (lex code))) as [ast|e|] eqn:E;
    [| |contradiction].
  - left. simpl. apply generate_code_named, well_formed_targets.
    apply (parse_spec _ _ E). apply lex_from_ok.
  - right. simpl. destruct (parse_error_cases e (Hr e eq_refl)) as [[msg ->]| ->].
    + left. now exists msg.
    + now right.
Qed.

Lemma compile_code_outcomes_witness :
  (exists text, compile_code "if (x) y = 1 +; else" = Ok text) \/
  (exists msg, compile_code "if (x) y = 1 +; else" = Raise (SyntaxError msg)) \/
  compile_code "if (x) y = 1 +; else" = Raise none_not_subscriptable.
Proof.
  apply (compile_code_outcomes "if (x) y = 1 +; else"). reflexivity.
Defined.


(* ------------------------------------------------------------------ *)
(** ** The trees the parser builds are those of the grammar *)

Lemma py_int_nonneg (s : string) (z : Z) : py_int s = Ok z -> (0 <= z)%Z.
Proof.
  unfold py_int. destruct s; [discriminate|].
  destruct (DecimalString.NilEmpty.uint_of_string _); [|discriminate].
  intros [= <-]. unfold Z.of_uint. lia.
Qed.

Lemma expr_group_shape (n : nat) :
  (forall p a q, expr n p = Ok (a, q) -> is_expression a = true) /\
  (forall r p a q, expr_loop n r p = Ok (a, q) ->
     is_expression r = true -> is_expression a = true) /\
  (forall p a q, term n p = Ok (a, q) -> is_expression a = true) /\
  (forall r p a q, term_loop n r p = Ok (a, q) ->
     is_expression r = true -> is_expression a = true) /\
  (forall p a q, factor n p = Ok (a, q) -> is_expression a = true).
Proof.
  induction n as [|n (He & Hel & Ht & Htl & Hf)].
  - repeat split; intros; discriminate.
  - repeat split; intros *; cbn [expr expr_loop term term_loop factor]; intros H.
    + inv_bind H as r p1 H1. exact (Hel _ _ _ _ H (Ht _ _ _ H1)).
    + intros Hr. destruct (current_token p) as [[k op]|]; [|now inv_ok H].
      destruct (kind_in k expr_ops); [|now inv_ok H].
      inv_next H. inv_bind H as r' p1 H1.
      apply (Hel _ _ _ _ H). simpl. now rewrite Hr, (Ht _ _ _ H1).
    + inv_bind H as r p1 H1. exact (Htl _ _ _ _ H (Hf _ _ _ H1)).
    + intros Hr. destruct (current_token p) as [[k op]|]; [|now inv_ok H].
      destruct (kind_in k term_ops); [|now inv_ok H].
      inv_next H. inv_bind H as r' p1 H1.
      apply (Htl _ _ _ _ H). simpl. now rewrite Hr, (Hf _ _ _ H1).
    + destruct (current_token p) as [[k v]|]; [|discriminate].
      destruct (String.eqb k "NUMBER").
      { unfold bind, lift, next_token, ret in H.
        destruct (py_int v) as [z| |] eqn:Ez; try discriminate.
        inv_ok H. simpl. apply Z.leb_le. exact (py_int_nonneg _ _ Ez). }
      destruct (String.eqb k "IDENTIFIER").
      { inv_next H. now inv_ok H. }
      destruct (String.eqb k "LPAREN"); [|discriminate].
      inv_next H. inv_bind H as r p1 H1. inv_expect H as v' Hc. inv_ok H.
      exact (He _ _ _ H1).
Qed.

Lemma expression_statement (b : bool) (a : node) :
  is_expression a = true -> is_statement b a = true.
Proof. destruct a; simpl; auto; discriminate. Qed.

Lemma statement_branch (a : node) :
  is_statement false a = true -> is_statement true a = true.
Proof. destruct a; simpl; auto; discriminate. Qed.

Lemma forallb_snoc {A} (f : A -> bool) l x :
  forallb f (l ++ [x]) = forallb f l && f x.
Proof. rewrite forallb_app. simpl. now rewrite andb_true_r. Qed.

Lemma assignment_shape n p a q :
  assignment n p = Ok (a, q) -> is_statement false a = true.
Proof.
  unfold assignment. destruct (current_token p) as [[k name]|]; [|discriminate].
  intros H. inv_expect H as v0 Hc0. inv_expect H as v1 Hc1.
  inv_bind H as value p1 H1. inv_expect H as v2 Hc2. inv_ok H.
  simpl. exact (proj1 (expr_group_shape n) _ _ _ H1).
Qed.

Lemma statement_group_shape (n : nat) :
  (forall p a q, statement n p = Ok (a, q) -> is_statement false a = true) /\
  (forall p a q, if_statement n p = Ok (a, q) -> is_statement false a = true) /\
  (forall p a q, block_or_statement n p = Ok (a, q) ->
     is_statement true a = true) /\
  (forall l p l' q, block_loop n l p = Ok (l', q) ->
     forallb (is_statement false) l = true ->
     forallb (is_statement false) l' = true).
Proof.
  induction n as [|n (Hs & Hi & Hb & Hl)].
  - repeat split; intros; discriminate.
  - pose proof (proj1 (expr_group_shape n)) as He.
    repeat split; intros *;
      cbn [statement if_statement block_or_statement block_loop]; intros H.
    + destruct (current_token p) as [[k v]|]; [|discriminate].
      destruct (String.eqb k "IF"); [exact (Hi _ _ _ H)|].
      destruct (String.eqb k "IDENTIFIER" && lookahead "ASSIGN" p);
        [exact (assignment_shape _ _ _ _ H)|].
      inv_bind H as e p1 H1. inv_expect H as v' Hc. inv_ok H.
      apply expression_statement. exact (He _ _ _ H1).
    + inv_expect H as v0 Hc0. inv_expect H as v1 Hc1.
      inv_bind H as condition p1 H1. inv_expect H as v2 Hc2.
      inv_bind H as then_branch p2 H2.
      apply He in H1. apply Hb in H2.
      destruct (current_token p2) as [[k v]|];
        [|inv_ok H; simpl; now rewrite H1, H2].
      destruct (String.eqb k "ELSE"); [|inv_ok H; simpl; now rewrite H1, H2].
      inv_next H. inv_bind H as else_branch p3 H3. inv_ok H.
      apply Hb in H3. simpl. now rewrite H1, H2, H3.
    + assert (Hstmt : statement n p = Ok (a, q) -> is_statement true a = true).
      { intros H'. apply statement_branch. exact (Hs _ _ _ H'). }
      destruct (current_token p) as [[k v]|]; [|exact (Hstmt H)].
      destruct (String.eqb k "LBRACE"); [|exact (Hstmt H)].
      inv_expect H as v0 Hc0. inv_bind H as statements p1 H1.
      inv_expect H as v1 Hc1. inv_ok H. simpl.
      exact (Hl _ _ _ _ H1 eq_refl).
    + intros Hacc. destruct (current_token p) as [[k v]|]; [|now inv_ok H].
      destruct (String.eqb k "RBRACE"); [now inv_ok H|].
      inv_bind H as s p1 H1. apply (Hl _ _ _ _ H).
      now rewrite forallb_snoc, Hacc, (Hs _ _ _ H1).
Qed.

Lemma parse_loop_shape (n : nat) :
  forall l p l' q, parse_loop n l p = Ok (l', q) ->
    forallb (is_statement false) l = true ->
    forallb (is_statement false) l' = true.
Proof.
  induction n as [|n IH]; intros l p l' q H Hacc; [discriminate|].
  cbn [parse_loop] in H. destruct (current_token p); [|now inv_ok H].
  inv_bind H as s p1 H1. apply (IH _ _ _ _ H).
  now rewrite forallb_snoc, Hacc, (proj1 (statement_group_shape n) _ _ _ H1).
Qed.

(** X7.  A tree [parse] returns for the tokens of a text has the shape of
    the grammar: it is a [Block] of statements; a statement is an [if], an
    assignment to an [Identifier], or an expression; a condition, an
    assigned value and an expression statement are built of [Number],
    [Identifier] and [BinOp] only, with no negative [Number], the text of a
    [NUMBER] token being a run of digits; a [Block] occurs nowhere but at
    the top and as a branch of an [if], and its elements are statements
    again. *)
Theorem parse_shape (code : string) (ast : node) :
  parse (Parser_init (lex code)) = Ok ast ->
  exists statements,
    ast = Block statements /\ forallb (is_statement false) statements = true.
Proof.
  unfold parse. intros H.
  destruct (parse_loop _ [] _) as [[l q]| |] eqn:E; try discriminate.
  injection H as <-. exists l. split; [reflexivity|].
  exact (parse_loop_shape _ _ _ _ _ E eq_refl).
Qed.

Lemma parse_shape_witness :
  exists statements,
    Block [IfStatement (BinOp (Identifier "x") "<" (Number 5))
             (Block [Assignment (Identifier "y") (Number 1)])
             (Some (IfStatement (Identifier "z") (Identifier "w") None));
           BinOp (Number 2) "*" (Identifier "y")] = Block statements /\
    forallb (is_statement false) statements = true.
Proof.
  apply (parse_shape "if (x < 5) { y = 1; } else if (z) w; 2 * y;").
  vm_compute. reflexivity.
Defined.

(* ------------------------------------------------------------------ *)
(** ** Parsing a token sequence followed by another *)

Lemma current_extend p extra t :
  current_token p = Some t -> current_token (extend p extra) = Some t.
Proof. intros H. unfold extend. now rewrite H. Qed.

Lemma next_extend p extra :
  current_token p <> None ->
  next_token_of (extend p extra) = extend (next_token_of p) extra.
Proof.
  intros H. unfold extend, next_token_of.
  destruct (current_token p) as [t|]; [|contradiction].
  simpl. destruct (tokens p) as [|t' ts]; reflexivity.
Qed.

Lemma extend_init t1 t2 : extend (Parser_init t1) t2 = Parser_init (t1 ++ t2).
Proof. destruct t1; reflexivity. Qed.

Lemma lookahead_extend token_type p extra :
  current_token p <> None -> tokens p <> [] ->
  lookahead token_type (extend p extra) = lookahead token_type p.
Proof.
  intros Hc Ht. unfold extend, lookahead.
  destruct (current_token p); [|contradiction].
  simpl. destruct (tokens p); [contradiction | reflexivity].
Qed.

Lemma current_before least pre W p a q :
  parsed least pre W p a q -> current_token q <> None -> current_token p <> None.
Proof.
  intros (c & Hr & _) Hq Hp. unfold remaining in Hr. rewrite Hp in Hr.
  destruct (current_token q); [|contradiction].
  destruct c; discriminate.
Qed.

Lemma expect_bind {B} token_type (k : unit -> M B) p v :
  current_token p = Some (token_type, v) ->
  bind (expect token_type) k p = k tt (next_token_of p).
Proof.
  intros H. unfold bind, expect, next_token. now rewrite H, String.eqb_refl.
Qed.

Section Extension.

Variable extra : list token.

Lemma expr_group_extend (n : nat) :
  (forall p a q, expr n p = Ok (a, q) -> current_token q <> None ->
     expr n (extend p extra) = Ok (a, extend q extra)) /\
  (forall r p a q, expr_loop n r p = Ok (a, q) -> current_token q <> None ->
     expr_loop n r (extend p extra) = Ok (a, extend q extra)) /\
  (forall p a q, term n p = Ok (a, q) -> current_token q <> None ->
     term n (extend p extra) = Ok (a, extend q extra)) /\
  (forall r p a q, term_loop n r p = Ok (a, q) -> current_token q <> None ->
     term_loop n r (extend p extra) = Ok (a, extend q extra)) /\
  (forall p a q, factor n p = Ok (a, q) -> current_token q <> None ->
     factor n (extend p extra) = Ok (a, extend q extra)).
Proof.
  induction n as [|n (He & Hel & Ht & Htl & Hf)].
  - repeat split; intros; discriminate.
  - pose proof (expr_group_parsed n) as (Pe & Pel & Pt & Ptl & Pf).
    repeat split; intros *; intros H Hq.
    + rewrite expr_eq in H |- *. inv_bind H as r p1 H1.
      pose proof (current_before _ _ _ _ _ _ (Pel _ _ _ _ H) Hq) as Hp1.
      rewrite (bind_Ok _ _ _ _ _ (Ht _ _ _ H1 Hp1)). exact (Hel _ _ _ _ H Hq).
    + rewrite expr_loop_eq in H |- *.
      destruct (current_token p) as [[k op]|] eqn:Hc;
        [|inv_ok H; congruence].
      rewrite (current_extend _ extra _ Hc).
      destruct (kind_in k expr_ops); [|now inv_ok H].
      rewrite next_token_bind in H |- *. inv_bind H as r' p1 H1.
      rewrite next_extend by congruence.
      pose proof (current_before _ _ _ _ _ _ (Pel _ _ _ _ H) Hq) as Hp1.
      rewrite (bind_Ok _ _ _ _ _ (Ht _ _ _ H1 Hp1)). exact (Hel _ _ _ _ H Hq).
    + rewrite term_eq in H |- *. inv_bind H as r p1 H1.
      pose proof (current_before _ _ _ _ _ _ (Ptl _ _ _ _ H) Hq) as Hp1.
      rewrite (bind_Ok _ _ _ _ _ (Hf _ _ _ H1 Hp1)). exact (Htl _ _ _ _ H Hq).
    + rewrite term_loop_eq in H |- *.
      destruct (current_token p) as [[k op]|] eqn:Hc;
        [|inv_ok H; congruence].
      rewrite (current_extend _ extra _ Hc).
      destruct (kind_in k term_ops); [|now inv_ok H].
      rewrite next_token_bind in H |- *. inv_bind H as r' p1 H1.
      rewrite next_extend by congruence.
      pose proof (current_before _ _ _ _ _ _ (Ptl _ _ _ _ H) Hq) as Hp1.
      rewrite (bind_Ok _ _ _ _ _ (Hf _ _ _ H1 Hp1)). exact (Htl _ _ _ _ H Hq).
    + cbn [factor] in H |- *.
      destruct (current_token p) as [[k v]|] eqn:Hc; [|discriminate].
      rewrite (current_extend _ extra _ Hc).
      assert (Hnext : next_token_of (extend p extra)
                      = extend (next_token_of p) extra)
        by (apply next_extend; congruence).
      destruct (String.eqb k "NUMBER").
      { unfold bind, lift, next_token, ret in H |- *.
        destruct (py_int v); try discriminate. inv_ok H. now rewrite Hnext. }
      destruct (String.eqb k "IDENTIFIER").
      { rewrite next_token_bind in H |- *. unfold ret in H |- *.
        inv_ok H. now rewrite Hnext. }
      destruct (String.eqb k "LPAREN"); [|discriminate].
      rewrite next_token_bind in H |- *. rewrite Hnext.
      inv_bind H as r p1 H1. inv_expect H as v' Hc'. unfold ret in H. inv_ok H.
      assert (Hp1 : current_token p1 <> None) by congruence.
      rewrite (bind_Ok _ _ _ _ _ (He _ _ _ H1 Hp1)).
      rewrite (expect_bind _ _ _ _ (current_extend _ extra _ Hc')).
      unfold ret. now rewrite next_extend.
Qed.

Lemma expr_extend n p a q :
  expr n p = Ok (a, q) -> current_token q <> None ->
  expr n (extend p extra) = Ok (a, extend q extra).
Proof. apply (expr_group_extend n). Qed.

Lemma assignment_extend n p a q :
  assignment n p = Ok (a, q) ->
  assignment n (extend p extra) = Ok (a, extend q extra).
Proof.
  unfold assignment. intros H.
  destruct (current_token p) as [[k name]|] eqn:Hc; [|discriminate].
  rewrite (current_extend _ extra _ Hc).
  inv_expect H as v0 Hc0. inv_expect H as v1 Hc1.
  inv_bind H as value p1 H1. inv_expect H as v2 Hc2. unfold ret in H. inv_ok H.
  rewrite (expect_bind _ _ _ _ (current_extend _ extra _ Hc0)).
  rewrite next_extend by congruence.
  rewrite (expect_bind _ _ _ _ (current_extend _ extra _ Hc1)).
  rewrite next_extend by congruence.
  assert (Hp1 : current_token p1 <> None) by congruence.
  rewrite (bind_Ok _ _ _ _ _ (expr_extend _ _ _ _ H1 Hp1)).
  rewrite (expect_bind _ _ _ _ (current_extend _ extra _ Hc2)).
  unfold ret. now rewrite next_extend.
Qed.

Hypothesis no_else : starts_else extra = false.

(** The test for an [else] after the then branch of an [if]. *)
Lemma else_test_extend (p : Parser) (c t : node) (k : M node) :
  match current_token p with
  | Some (kind, _) => String.eqb kind "ELSE"
  | None => false
  end = false ->
  match current_token (extend p extra) with
  | Some (kind, _) =>
      if String.eqb kind "ELSE" then k (extend p extra)
      else Ok (IfStatement c t None, extend p extra)
  | None => Ok (IfStatement c t None, extend p extra)
  end = Ok (IfStatement c t None, extend p extra).
Proof.
  intros H. destruct (current_token p) as [[kind v]|] eqn:Hc.
  - rewrite (current_extend _ extra _ Hc). now rewrite H.
  - unfold extend at 1. rewrite Hc.
    destruct extra as [|[kind v] ts]; [reflexivity|].
    simpl in no_else. simpl. now rewrite no_else.
Qed.

Lemma statement_group_extend (n : nat) :
  (forall p a q, statement n p = Ok (a, q) ->
     statement n (extend p extra) = Ok (a, extend q extra)) /\
  (forall p a q, if_statement n p = Ok (a, q) ->
     if_statement n (extend p extra) = Ok (a, extend q extra)) /\
  (forall p a q, block_or_statement n p = Ok (a, q) ->
     block_or_statement n (extend p extra) = Ok (a, extend q extra)) /\
  (forall l p l' q, block_loop n l p = Ok (l', q) -> current_token q <> None ->
     block_loop n l (extend p extra) = Ok (l', extend q extra)).
Proof.
  induction n as [|n (Hs & Hi & Hb & Hl)].
  - repeat split; intros; discriminate.
  - pose proof (statement_group_parsed n) as (Ps & Pi & Pb & Pl).
    repeat split; intros *; intros H.
    + pose proof (statement_parsed _ _ _ _ H) as (c & Hr & Hlen & _).
      cbn [statement] in H |- *.
      destruct (current_token p) as [[k v]|] eqn:Hc; [|discriminate].
      rewrite (current_extend _ extra _ Hc).
      destruct (String.eqb k "IF"); [exact (Hi _ _ _ H)|].
      assert (Htok : tokens p <> []).
      { unfold remaining in Hr. rewrite Hc in Hr. intros E. rewrite E in Hr.
        destruct c as [|? [|? ?]]; simpl in Hlen; try lia; discriminate. }
      rewrite lookahead_extend by (congruence || exact Htok).
      destruct (String.eqb k "IDENTIFIER" && lookahead "ASSIGN" p);
        [exact (assignment_extend _ _ _ _ H)|].
      inv_bind H as e p1 H1. inv_expect H as v' Hc'. unfold ret in H. inv_ok H.
      assert (Hp1 : current_token p1 <> None) by congruence.
      rewrite (bind_Ok _ _ _ _ _ (expr_extend _ _ _ _ H1 Hp1)).
      rewrite (expect_bind _ _ _ _ (current_extend _ extra _ Hc')).
      unfold ret. now rewrite next_extend.
    + cbn [if_statement] in H |- *.
      inv_expect H as v0 Hc0. inv_expect H as v1 Hc1.
      inv_bind H as condition p1 H1. inv_expect H as v2 Hc2.
      inv_bind H as then_branch p2 H2.
      rewrite (expect_bind _ _ _ _ (current_extend _ extra _ Hc0)).
      rewrite next_extend by congruence.
      rewrite (expect_bind _ _ _ _ (current_extend _ extra _ Hc1)).
      rewrite next_extend by congruence.
      assert (Hp1 : current_token p1 <> None) by congruence.
      rewrite (bind_Ok _ _ _ _ _ (expr_extend _ _ _ _ H1 Hp1)).
      rewrite (expect_bind _ _ _ _ (current_extend _ extra _ Hc2)).
      rewrite next_extend by congruence.
      rewrite (bind_Ok _ _ _ _ _ (Hb _ _ _ H2)).
      destruct (current_token p2) as [[k v]|] eqn:Hc3.
      * destruct (String.eqb k "ELSE") eqn:Ek.
        -- rewrite (current_extend _ extra _ Hc3), Ek.
           rewrite next_token_bind in H |- *.
           inv_bind H as else_branch p3 H3. unfold ret in H. inv_ok H.
           rewrite next_extend by congruence.
           now rewrite (bind_Ok _ _ _ _ _ (Hb _ _ _ H3)).
        -- inv_ok H. apply else_test_extend. now rewrite Hc3.
      * inv_ok H. apply else_test_extend. now rewrite Hc3.
    + cbn [block_or_statement] in H |- *.
      destruct (current_token p) as [[k v]|] eqn:Hc.
      2:{ exfalso. pose proof (Ps _ _ _ H) as (c & Hr & Hlen & _).
          unfold remaining in Hr. rewrite Hc in Hr.
          destruct c; simpl in Hlen; [lia | discriminate]. }
      rewrite (current_extend _ extra _ Hc).
      destruct (String.eqb k "LBRACE"); [|exact (Hs _ _ _ H)].
      inv_expect H as v0 Hc0. inv_bind H as statements p1 H1.
      inv_expect H as v1 Hc1. unfold ret in H. inv_ok H.
      rewrite (expect_bind _ _ _ _ (current_extend _ extra _ Hc0)).
      rewrite next_extend by congruence.
      assert (Hp1 : current_token p1 <> None) by congruence.
      rewrite (bind_Ok _ _ _ _ _ (Hl _ _ _ _ H1 Hp1)).
      rewrite (expect_bind _ _ _ _ (current_extend _ extra _ Hc1)).
      unfold ret. now rewrite next_extend.
    + intros Hq. cbn [block_loop] in H |- *.
      destruct (current_token p) as [[k v]|] eqn:Hc; [|inv_ok H; congruence].
      rewrite (current_extend _ extra _ Hc).
      destruct (String.eqb k "RBRACE"); [now inv_ok H|].
      inv_bind H as s p1 H1.
      rewrite (bind_Ok _ _ _ _ _ (Hs _ _ _ H1)).
      exact (Hl _ _ _ _ H Hq).
Qed.

Lemma statement_extend n p a q :
  statement n p = Ok (a, q) ->
  statement n (extend p extra) = Ok (a, extend q extra).
Proof. apply (statement_group_extend n). Qed.

(** The loop of [parse] on the extended tokens: it goes through the first
    tokens as before, then on through [extra]. *)
Lemma parse_loop_extend (n : nat) :
  forall acc p l q, parse_loop n acc p = Ok (l, q) ->
  forall m, finishes (parse_loop m l (Parser_init extra)) ->
    parse_loop (n + m) acc (extend p extra) =
    parse_loop m l (Parser_init extra).
Proof.
  induction n as [|n IH]; intros acc p l q H m Hr; [discriminate|].
  cbn [parse_loop] in H.
  destruct (current_token p) as [t|] eqn:Hc.
  - inv_bind H as s p1 H1.
    change (S n + m) with (S (n + m)). cbn [parse_loop].
    rewrite (current_extend _ extra _ Hc).
    pose proof (statement_extend _ _ _ _ H1) as H1'.
    apply (enough _ _ _ (statement_mono n (n + m) _ ltac:(lia))) in H1'.
    rewrite (bind_Ok _ _ _ _ _ H1'). exact (IH _ _ _ _ H m Hr).
  - inv_ok H. unfold extend. rewrite Hc.
    destruct (parse_loop_mono m (S n + m) l (Parser_init extra) ltac:(lia))
      as [E|E]; [destruct (Hr E) | now rewrite <- E].
Qed.

End Extension.

Lemma parse_loop_acc (n : nat) :
  forall acc p,
    parse_loop n acc p =
    match parse_loop n [] p with
    | Ok (l, q) => Ok ((acc ++ l)%list, q)
    | Raise e => Raise e
    | OutOfFuel => OutOfFuel
    end.
Proof.
  induction n as [|n IH]; intros acc p; [reflexivity|].
  cbn [parse_loop]. destruct (current_token p); [|now rewrite List.app_nil_r].
  unfold bind. destruct (statement n p) as [[s p1]| |]; try reflexivity.
  rewrite (IH (acc ++ [s])%list), (IH ([] ++ [s])%list).
  destruct (parse_loop n [] p1) as [[l q]| |]; try reflexivity.
  now rewrite <- List.app_assoc.
Qed.

Lemma parse_any_fuel_raise (p : Parser) (n : nat) (e : exn) :
  parse_loop n [] p = Raise e -> parse p = Raise e.
Proof.
  intros H. pose proof (parse_terminates p) as Hp. unfold parse in *.
  destruct (parse_loop_mono (parse_fuel p) (Nat.max (parse_fuel p) n) [] p
              (Nat.le_max_l _ _)) as [E|E];
    [rewrite E in Hp; contradiction|].
  destruct (parse_loop_mono n (Nat.max (parse_fuel p) n) [] p
              (Nat.le_max_r _ _)) as [E'|E']; [congruence|].
  rewrite E, <- E', H. reflexivity.
Qed.

Lemma expr_else n p v :
  current_token p = Some ("ELSE", v) -> forall x, expr n p <> Ok x.
Proof.
  intros Hc x. destruct n as [|[|[|n]]]; try discriminate;
    cbn [expr term factor]; unfold bind; cbn [factor]; try discriminate.
  rewrite Hc. simpl. discriminate.
Qed.

Lemma statement_else n p v :
  current_token p = Some ("ELSE", v) -> forall x, statement n p <> Ok x.
Proof.
  intros Hc x. destruct n as [|n]; [discriminate|].
  cbn [statement]. rewrite Hc. simpl. unfold bind.
  pose proof (expr_else n p v Hc) as He.
  destruct (expr n p) as [[e q]| |]; [now destruct (He (e, q)) | |]; discriminate.
Qed.

Lemma parse_starts_else (toks : list token) (ast : node) :
  parse (Parser_init toks) = Ok ast -> starts_else toks = false.
Proof.
  destruct toks as [|[k v] ts]; [reflexivity|]. simpl.
  destruct (String.eqb_spec k "ELSE") as [->|]; [|reflexivity].
  unfold parse, parse_fuel. rewrite Nat.add_comm. cbn [Nat.add parse_loop].
  rewrite Parser_init_cons. cbn [current_token]. unfold bind.
  pose proof (statement_else (8 + 3 * List.length (tokens (mkParser ts (Some ("ELSE", v)))))
                (mkParser ts (Some ("ELSE", v))) v eq_refl) as Hs.
  cbn [Nat.add] in Hs.
  destruct (statement _ _) as [[s q]| |]; [now destruct (Hs (s, q)) | |];
    discriminate.
Qed.

Lemma parse_loop_init_finishes (toks : list token) :
  finishes (parse_loop (parse_fuel (Parser_init toks)) [] (Parser_init toks)).
Proof.
  pose proof (parse_terminates (Parser_init toks)) as H. unfold parse in H.
  intros E. rewrite E in H. now apply H.
Qed.

(** The loop of [parse] on two token sequences, one after the other. *)
Lemma parse_loop_concat (t1 t2 : list token) (l1 : list node) :
  parse (Parser_init t1) = Ok (Block l1) -> starts_else t2 = false ->
  exists n,
    parse_loop n [] (Parser_init (t1 ++ t2)) =
    match parse_loop (parse_fuel (Parser_init t2)) [] (Parser_init t2) with
    | Ok (l, q) => Ok ((l1 ++ l)%list, q)
    | Raise e => Raise e
    | OutOfFuel => OutOfFuel
    end.
Proof.
  intros H1 Helse. unfold parse in H1.
  destruct (parse_loop _ [] (Parser_init t1)) as [[l q1]| |] eqn:E1;
    try discriminate.
  injection H1 as ->.
  pose proof (parse_loop_init_finishes t2) as Hf.
  exists (parse_fuel (Parser_init t1) + parse_fuel (Parser_init t2)).
  rewrite <- extend_init.
  rewrite (parse_loop_extend t2 Helse _ _ _ _ _ E1).
  - apply parse_loop_acc.
  - rewrite parse_loop_acc.
    destruct (parse_loop _ [] (Parser_init t2)) as [[l q]| |];
      [discriminate | discriminate | exact Hf].
Qed.

(** X8.  Programs compose.  If [parse] accepts a token sequence, then on
    that sequence followed by a second one it returns the statements of the
    first followed by those of the second when it accepts the second, and
    raises what it raises on the second when that does not start with
    [else] (an [else] would be taken by an [if] that ends the first). *)
Theorem parse_concat (t1 t2 : list token) (l1 : list node) :
  parse (Parser_init t1) = Ok (Block l1) ->
  (forall l2, parse (Parser_init t2) = Ok (Block l2) ->
     parse (Parser_init (t1 ++ t2)) = Ok (Block (l1 ++ l2))) /\
  (forall e, starts_else t2 = false -> parse (Parser_init t2) = Raise e ->
     parse (Parser_init (t1 ++ t2)) = Raise e).
Proof.
  intros H1. split.
  - intros l2 H2.
    destruct (parse_loop_concat t1 t2 l1 H1 (parse_starts_else _ _ H2)) as [n Hn].
    unfold parse in H2.
    destruct (parse_loop _ [] (Parser_init t2)) as [[l q]| |]; try discriminate.
    injection H2 as ->. exact (parse_any_fuel _ _ _ _ Hn).
  - intros e Helse H2.
    destruct (parse_loop_concat t1 t2 l1 H1 Helse) as [n Hn].
    unfold parse in H2.
    destruct (parse_loop _ [] (Parser_init t2)) as [[l q]| |]; try discriminate.
    injection H2 as ->. exact (parse_any_fuel_raise _ _ _ Hn).
Qed.

Lemma parse_concat_witness :
  parse (Parser_init (lex "x = 1; if (x) y;" ++ lex "z; 2 + 3;")) =
    Ok (Block ([Assignment (Identifier "x") (Number 1);
                IfStatement (Identifier "x") (Identifier "y") None]
               ++ [Identifier "z"; BinOp (Number 2) "+" (Number 3)])) /\
  parse (Parser_init (lex "x = 1; if (x) y;" ++ lex "z; 2 +")) =
    Raise (SyntaxError "Erro de sintaxe: token inesperado no final da entrada").
Proof.
  destruct (parse_concat (lex "x = 1; if (x) y;") (lex "z; 2 + 3;")
              [Assignment (Identifier "x") (Number 1);
               IfStatement (Identifier "x") (Identifier "y") None]
              eq_refl) as [H _].
  destruct (parse_concat (lex "x = 1; if (x) y;") (lex "z; 2 +")
              [Assignment (Identifier "x") (Number 1);
               IfStatement (Identifier "x") (Identifier "y") None]
              eq_refl) as [_ H'].
  split; [apply H; reflexivity | apply H'; reflexivity].
Defined.

(* ------------------------------------------------------------------ *)
(** ** The pipeline on a text followed by another *)

Lemma join_app (sep : string) (a b : list string) :
  a <> [] -> b <> [] ->
  join sep (a ++ b) = join sep a ++ sep ++ join sep b.
Proof.
  intros Ha Hb. induction a as [|x a IH]; [contradiction|].
  destruct a as [|y a].
  - destruct b; [contradiction | reflexivity].
  - change (join sep ((x :: y :: a) ++ b))
      with (x ++ sep ++ join sep ((y :: a) ++ b)).
    rewrite IH by discriminate.
    change (join sep (x :: y :: a)) with (x ++ sep ++ join sep (y :: a)).
    now rewrite !string_app_assoc.
Qed.

Lemma generate_each_app (l1 l2 : list node) :
  generate_each (l1 ++ l2) =
  rbind (generate_each l1) (fun a =>
  rbind (generate_each l2) (fun b => Ok (a ++ b)%list)).
Proof.
  induction l1 as [|x l1 IH]; simpl.
  - now destruct (generate_each l2).
  - destruct (generate_code x); simpl; try reflexivity.
    rewrite IH. destruct (generate_each l1); simpl; try reflexivity.
    now destruct (generate_each l2).
Qed.

Lemma generate_each_nonempty (l : list node) (parts : list string) :
  generate_each l = Ok parts -> l <> [] -> parts <> [].
Proof.
  destruct l as [|x l]; [contradiction|]. simpl.
  destruct (generate_code x); simpl; try discriminate.
  destruct (generate_each l); simpl; try discriminate.
  intros [= <-] _. discriminate.
Qed.

Lemma parse_block (p : Parser) (ast : node) :
  parse p = Ok ast -> exists l, ast = Block l.
Proof.
  unfold parse. destruct (parse_loop _ [] p) as [[l q]| |]; try discriminate.
  intros [= <-]. now exists l.
Qed.

Lemma parse_nonempty (toks : list token) (l : list node) :
  parse (Parser_init toks) = Ok (Block l) -> toks <> [] -> l <> [].
Proof.
  intros H Ht ->.
  destruct (parse_spec _ _ H) as ((statements & segments & E & Hc & Hf) & _).
  injection E as <-. inversion Hf; subst. now apply Ht.
Qed.

Lemma lex_from_space_run (w s1 s2 : string) :
  w <> "" -> all_chars is_space w = true ->
  lex (s1 ++ w ++ s2) = (lex s1 ++ lex s2)%list.
Proof.
  intros Hne Hw. destruct w as [|c w]; [contradiction|].
  simpl in Hw. apply andb_true_iff in Hw as [Hc Hw].
  change (String c w ++ s2) with (String c (w ++ s2)).
  unfold lex. rewrite (lex_from_space c (w ++ s2) Hc). f_equal.
  destruct w as [|d w]; [reflexivity|].
  apply lex_from_spaces; [discriminate | exact Hw].
Qed.

(** What [compile_code] returning a text amounts to. *)
Lemma compile_code_ok (code text : string) :
  compile_code code = Ok text ->
  exists l parts,
    parse (Parser_init (lex code)) = Ok (Block l) /\
    generate_each l = Ok parts /\ text = join nl parts.
Proof.
  unfold compile_code. intros H.
  destruct (parse (Parser_init (lex code))) as [ast| |] eqn:E; try discriminate.
  destruct (parse_block _ _ E) as [l ->]. cbn [rbind] in H.
  rewrite generate_code_block in H.
  destruct (generate_each l) as [parts| |] eqn:G; try discriminate.
  cbn [rbind] in H. injection H as <-. exists l, parts. repeat split; auto.
Qed.

(** X9.  The pipeline composes across white space.  If it turns a first
    text into [o1], then on that text, white space and a second text it
    returns [o1], a newline and the output for the second text when that is
    accepted (both texts having a token), and raises what it raises on the
    second text when that does not start with [else]. *)
Theorem compile_code_concat (s1 w s2 o1 : string) :
  w <> "" -> all_chars is_space w = true ->
  compile_code s1 = Ok o1 ->
  (forall o2, compile_code s2 = Ok o2 -> lex s1 <> [] -> lex s2 <> [] ->
     compile_code (s1 ++ w ++ s2) = Ok (o1 ++ nl ++ o2)) /\
  (forall e, starts_else (lex s2) = false -> compile_code s2 = Raise e ->
     compile_code (s1 ++ w ++ s2) = Raise e).
Proof.
  intros Hne Hw H1.
  destruct (compile_code_ok _ _ H1) as (l1 & ps1 & P1 & G1 & ->).
  pose proof (parse_concat (lex s1) (lex s2) l1 P1) as [Hok Hraise].
  unfold compile_code at 2 4.
  rewrite (lex_from_space_run w s1 s2 Hne Hw).
  split.
  - intros o2 H2 Hn1 Hn2.
    destruct (compile_code_ok _ _ H2) as (l2 & ps2 & P2 & G2 & ->).
    rewrite (Hok l2 P2). cbn [rbind].
    rewrite generate_code_block, generate_each_app.
    rewrite G1, G2. cbn [rbind]. f_equal. apply join_app.
    + exact (generate_each_nonempty _ _ G1 (parse_nonempty _ _ P1 Hn1)).
    + exact (generate_each_nonempty _ _ G2 (parse_nonempty _ _ P2 Hn2)).
  - intros e Helse H2. unfold compile_code in H2.
    destruct (parse (Parser_init (lex s2))) as [ast| |] eqn:P2.
    + destruct (parse_block _ _ P2) as [l2 ->]. rewrite (Hok l2 eq_refl).
      cbn [rbind] in H2 |- *. rewrite generate_code_block in H2 |- *.
      rewrite generate_each_app, G1. cbn [rbind].
      destruct (generate_each l2); cbn [rbind] in *; congruence.
    + cbn [rbind] in H2. injection H2 as ->. now rewrite (Hraise e Helse eq_refl).
    + discriminate.
Qed.

Lemma compile_code_concat_witness :
  compile_code ("x = 1;" ++ nl ++ "if (x) y;") =
    Ok ("x = 1;" ++ nl ++ ("if (x) {" ++ nl ++ "  y" ++ nl ++ "}")) /\
  compile_code ("x = 1;" ++ nl ++ "y = ;") =
    Raise (SyntaxError "Erro de sintaxe: token inesperado ';'").
Proof.
  destruct (compile_code_concat "x = 1;" nl "if (x) y;" "x = 1;"
              ltac:(discriminate) eq_refl eq_refl) as [H _].
  destruct (compile_code_concat "x = 1;" nl "y = ;" "x = 1;"
              ltac:(discriminate) eq_refl eq_refl) as [_ H'].
  split.
  - apply H; [reflexivity | discriminate | discriminate].
  - apply H'; reflexivity.
Defined.


(* ================================================================== *)
(** * Further properties of the pipeline *)

(* ------------------------------------------------------------------ *)
(** ** Lexing one token *)

Lemma lex_space_char (c : ascii) (x : string) (prev : option ascii) :
  is_space c = true -> lex_from prev (String c x) = lex_from None x.
Proof.
  intros Hc. change (String c x) with (String c "" ++ x).
  apply lex_from_spaces; [discriminate | simpl; now rewrite Hc].
Qed.

Lemma lex_lparen (x : string) (prev : option ascii) :
  lex_from prev (String "(" x) = ("LPAREN", "(") :: lex_from (Some "("%char) x.
Proof. now rewrite (lex_from_match _ _ _ _ _ (TOKEN_REGEX_lparen x prev)). Qed.

Lemma lex_rparen (x : string) (prev : option ascii) :
  lex_from prev (String ")" x) = ("RPAREN", ")") :: lex_from (Some ")"%char) x.
Proof. now rewrite (lex_from_match _ _ _ _ _ (TOKEN_REGEX_rparen x prev)). Qed.

Lemma lex_semicolon (x : string) (prev : option ascii) :
  lex_from prev (String ";" x) = ("SEMICOLON", ";") :: lex_from (Some ";"%char) x.
Proof. now rewrite (lex_from_match _ _ _ _ _ (TOKEN_REGEX_semicolon x prev)). Qed.

Lemma TOKEN_REGEX_lbrace (rest : string) (prev : option ascii) :
  TOKEN_REGEX prev (String "{" rest) = Some ("LBRACE", "{", rest).
Proof. skip_alternatives. reflexivity. Qed.

Lemma TOKEN_REGEX_rbrace (rest : string) (prev : option ascii) :
  TOKEN_REGEX prev (String "}" rest) = Some ("RBRACE", "}", rest).
Proof. skip_alternatives. reflexivity. Qed.

Lemma TOKEN_REGEX_assign (rest : string) (prev : option ascii) :
  TOKEN_REGEX prev (String "=" (String " " rest)) =
  Some ("ASSIGN", "=", String " " rest).
Proof. skip_alternatives. reflexivity. Qed.

Lemma lex_lbrace (x : string) (prev : option ascii) :
  lex_from prev (String "{" x) = ("LBRACE", "{") :: lex_from (Some "{"%char) x.
Proof. now rewrite (lex_from_match _ _ _ _ _ (TOKEN_REGEX_lbrace x prev)). Qed.

Lemma lex_rbrace (x : string) (prev : option ascii) :
  lex_from prev (String "}" x) = ("RBRACE", "}") :: lex_from (Some "}"%char) x.
Proof. now rewrite (lex_from_match _ _ _ _ _ (TOKEN_REGEX_rbrace x prev)). Qed.

Lemma lex_assign (x : string) (prev : option ascii) :
  lex_from prev (String "=" (String " " x)) = ("ASSIGN", "=") :: lex_from None x.
Proof.
  rewrite (lex_from_match _ _ _ _ _ (TOKEN_REGEX_assign x prev)).
  cbn [String.eqb Ascii.eqb Bool.eqb]. now rewrite lex_space_char.
Qed.

Lemma lex_if (x : string) (prev : option ascii) :
  word_opt prev = false ->
  lex_from prev (String "i" (String "f" (String " " x))) =
  ("IF", "if") :: lex_from None x.
Proof.
  intros Hp. change (String "i" (String "f" (String " " x)))
    with ("if" ++ String " " x).
  rewrite lex_from_if by reflexivity. rewrite Hp.
  now rewrite lex_space_char.
Qed.

Lemma lex_else (x : string) (prev : option ascii) :
  word_opt prev = false ->
  lex_from prev (String "e" (String "l" (String "s" (String "e" (String " " x))))) =
  ("ELSE", "else") :: lex_from None x.
Proof.
  intros Hp.
  change (String "e" (String "l" (String "s" (String "e" (String " " x)))))
    with ("else" ++ String " " x).
  rewrite lex_from_else by reflexivity. rewrite Hp.
  now rewrite lex_space_char.
Qed.

(** The rendering of an expression is the one [lex_expression] speaks of. *)
Lemma lex_rendering (t : node) (s : string) :
  expression t -> generate_code t = Ok s ->
  s <> "" /\ starts is_space s = false /\
  forall prev rest, starts is_word rest = false ->
    lex_from prev (s ++ rest) =
    (expr_tokens t ++ lex_from (last_char prev s) rest)%list.
Proof.
  intros Ht Hs. destruct (lex_expression t Ht) as (s' & Hs' & H).
  rewrite Hs in Hs'. injection Hs' as <-. exact H.
Qed.

Lemma expression_rendered (t : node) :
  expression t -> exists s, generate_code t = Ok s.
Proof. intros Ht. destruct (lex_expression t Ht) as (s & Hs & _). now exists s. Qed.

(* ------------------------------------------------------------------ *)
(** ** Parsing the tokens of a rendered expression *)

Lemma expr_enough n m p x : expr n p = Ok x -> n <= m -> expr m p = Ok x.
Proof. intros H Hn. exact (enough _ _ _ (expr_mono n m p Hn) H). Qed.

Lemma statement_enough n m p x :
  statement n p = Ok x -> n <= m -> statement m p = Ok x.
Proof. intros H Hn. exact (enough _ _ _ (statement_mono n m p Hn) H). Qed.

(** [expr] reads back an expression from the tokens of its rendering, up to
    a token that is no operator. *)
Lemma expr_rendered (t : node) :
  expression t ->
  exists n, forall m more, n <= m -> no_operator (Parser_init more) = true ->
    expr m (Parser_init (expr_tokens t ++ more)) = Ok (t, Parser_init more).
Proof.
  intros Ht. destruct (factor_expression t Ht) as (n & Hf).
  exists (S (S n)). intros m more Hm Hno.
  apply (expr_enough (S (S n))); [|exact Hm].
  apply expr_single; [apply Hf | exact Hno].
Qed.

(** The first token of a rendered expression. *)
Lemma expr_tokens_head (t : node) :
  expression t ->
  exists k v ts, expr_tokens t = (k, v) :: ts /\
    String.eqb k "IF" = false /\ String.eqb k "ELSE" = false /\
    String.eqb k "RBRACE" = false /\ String.eqb k "LBRACE" = false /\
    (String.eqb k "IDENTIFIER" = true -> ts = []).
Proof.
  intros [z Hz | name Hid Hif Helse | l name op r Hl Hop Hr]; simpl.
  - exists "NUMBER", (py_str z), []. repeat split; discriminate.
  - exists "IDENTIFIER", name, []. repeat split; reflexivity.
  - eexists "LPAREN", "(", _. repeat split; discriminate.
Qed.

(** An expression statement: the tokens of a rendered expression, not
    followed by an operator or by [=], go through [statement] as through
    [expr] and [expect]. *)
Lemma statement_rendered (t : node) :
  expression t ->
  exists n, forall m more, n <= m ->
    no_operator (Parser_init more) = true ->
    lookahead "ASSIGN" (mkParser more None) = false ->
    statement m (Parser_init (expr_tokens t ++ more)) =
    (expect "SEMICOLON" ;;; ret t) (Parser_init more).
Proof.
  intros Ht. destruct (expr_rendered t Ht) as (n & He).
  exists (S n). intros m more Hm Hno Hla.
  destruct m as [|m]; [lia|].
  destruct (expr_tokens_head t Ht) as (k & v & ts & E & Hif & _ & _ & _ & Hid).
  remember (Parser_init (expr_tokens t ++ more)) as p eqn:Ep.
  assert (Hc : current_token p = Some (k, v)) by (subst p; now rewrite E).
  assert (Hl : String.eqb k "IDENTIFIER" && lookahead "ASSIGN" p = false).
  { destruct (String.eqb k "IDENTIFIER") eqn:Ek; [|reflexivity].
    subst p. rewrite E, (Hid eq_refl). exact Hla. }
  cbn [statement]. rewrite Hc, Hif, Hl. subst p.
  now rewrite (bind_Ok _ _ _ _ _ (He m more ltac:(lia) Hno)).
Qed.

(** A program of one statement. *)
Lemma parse_one_statement n p s :
  statement n p = Ok (s, Parser_init []) -> current_token p <> None ->
  parse p = Ok (Block [s]).
Proof.
  intros H Hc. destruct n as [|n]; [discriminate|].
  apply (parse_any_fuel p (S (S n)) [s] (Parser_init [])).
  cbn [parse_loop]. destruct (current_token p); [|contradiction].
  now rewrite (bind_Ok _ _ _ _ _ H).
Qed.

(** A program whose first statement raises. *)
Lemma parse_first_raises n p e :
  statement n p = Raise e -> current_token p <> None -> parse p = Raise e.
Proof.
  intros H Hc. apply (parse_any_fuel_raise p (S n)).
  cbn [parse_loop]. destruct (current_token p); [|contradiction].
  unfold bind. now rewrite H.
Qed.

(* ------------------------------------------------------------------ *)
(** ** Number literals *)

Lemma string_of_uint_unorm (d : Decimal.uint) :
  d <> Decimal.Nil ->
  DecimalString.NilEmpty.string_of_uint (Decimal.unorm d) =
  strip_zeros (DecimalString.NilEmpty.string_of_uint d).
Proof.
  induction d as [|d IH| | | | | | | | |]; intros Hd;
    try contradiction; try reflexivity.
  change (Decimal.unorm (Decimal.D0 d)) with (Decimal.unorm d).
  cbn [DecimalString.NilEmpty.string_of_uint strip_zeros Ascii.eqb Bool.eqb].
  destruct d; try (now apply IH). reflexivity.
Qed.

(** [str] of what [int] reads is the text without its leading zeros. *)
Lemma py_str_py_int (ds : string) (z : Z) :
  py_int ds = Ok z -> py_str z = strip_zeros ds.
Proof.
  unfold py_int. destruct ds as [|c ds]; [discriminate|].
  destruct (DecimalString.NilEmpty.uint_of_string (String c ds)) as [d|] eqn:E;
    [|discriminate].
  intros [= <-]. apply DecimalString.NilEmpty.sus in E.
  assert (Hd : d <> Decimal.Nil) by (intros ->; discriminate).
  rewrite <- E, <- (string_of_uint_unorm d Hd).
  unfold py_str, Z.of_uint.
  replace (Z.to_int (Z.of_N (Pos.of_uint d)))
    with (Decimal.Pos (N.to_uint (Pos.of_uint d)))
    by (now destruct (Pos.of_uint d)).
  rewrite DecimalPos.Unsigned.to_of. simpl.
  pose proof (DecimalFacts.unorm_nonnil d) as Hn.
  unfold DecimalString.NilZero.string_of_uint.
  destruct (Decimal.unorm d); [contradiction | reflexivity ..].
Qed.

(** X10.  A number literal is rendered without its leading zeros: the
    statement that is a run of digits, of no more digits than [int]
    converts, compiles to that run stripped of them ([007;] gives [7],
    [000;] gives [0]), since [Number] holds the integer [int] reads and
    [generate_code] prints it with [str]. *)
Theorem number_literal (ds : string) :
  ds <> "" -> all_chars is_digit ds = true ->
  (String.length ds <= max_str_digits)%nat ->
  compile_code (ds ++ ";") = Ok (strip_zeros ds).
Proof.
  intros Hne Hd _. destruct (py_int_digits ds Hne Hd) as (z & _ & Hz).
  assert (Hlex : lex (ds ++ ";") = [("NUMBER", ds); ("SEMICOLON", ";")]).
  { unfold lex.
    rewrite (lex_from_match _ _ _ _ _
               (TOKEN_REGEX_number ds ";" None Hne Hd eq_refl)).
    cbn [String.eqb Ascii.eqb Bool.eqb]. now rewrite lex_semicolon. }
  unfold compile_code. rewrite Hlex.
  rewrite (parse_expression_statement 3 _ (Number z) "NUMBER" ds);
    try reflexivity.
  - cbn [rbind generate_code]. now rewrite (py_str_py_int ds z Hz).
  - rewrite Parser_init_cons. apply expr_single; [|reflexivity].
    now apply factor_number.
Qed.

Lemma number_literal_witness :
  compile_code ("007" ++ ";") = Ok "7" /\ compile_code ("000" ++ ";") = Ok "0".
Proof.
  split.
  - apply (number_literal "007");
      [discriminate | reflexivity | unfold max_str_digits; simpl; lia].
  - apply (number_literal "000");
      [discriminate | reflexivity | unfold max_str_digits; simpl; lia].
Defined.

(* ------------------------------------------------------------------ *)
(** ** The tree parsed from tokens within the limits *)

Lemma strip_zeros_length (s : string) :
  (String.length (strip_zeros s) <= String.length s)%nat.
Proof.
  induction s as [|c s IH]; [reflexivity|].
  cbn [strip_zeros]. destruct (Ascii.eqb c "0"); [|reflexivity].
  destruct s; [reflexivity|]. cbn [String.length] in *. lia.
Qed.

(** What [int] reads has no more digits than the text. *)
Lemma py_int_digits_length (v : string) (z : Z) :
  py_int v = Ok z -> (digits z <= String.length v)%nat.
Proof.
  intros H. unfold digits.
  rewrite Z.abs_eq by exact (py_int_nonneg v z H).
  rewrite (py_str_py_int v z H). apply strip_zeros_length.
Qed.

Lemma trace_number (toks : list token) (z : Z) :
  In (INumber z) (trace toks) ->
  exists v, In ("NUMBER", v) toks /\ py_int v = Ok z.
Proof.
  unfold trace. intros H. apply in_flat_map in H as ([k v] & Ht & Hi).
  unfold token_item in Hi.
  destruct (String.eqb_spec k "NUMBER") as [->|_].
  - destruct (py_int v) as [z'| |] eqn:E; try contradiction.
    destruct Hi as [[= ->]|[]]. now exists v.
  - destruct (String.eqb k "IDENTIFIER"); [destruct Hi as [|[]]; discriminate|].
    destruct (kind_in k expr_ops || kind_in k term_ops);
      [destruct Hi as [|[]]; discriminate|].
    destruct (String.eqb k "ELSE"); [destruct Hi as [|[]]; discriminate|].
    contradiction.
Qed.

Lemma trace_length (toks : list token) :
  (List.length (trace toks) <= List.length toks)%nat.
Proof.
  induction toks as [|[k v] toks IH]; [reflexivity|].
  change (trace ((k, v) :: toks)) with (token_item (k, v) ++ trace toks)%list.
  rewrite List.length_app. cbn [List.length].
  assert (H : (List.length (token_item (k, v)) <= 1)%nat).
  { unfold token_item. destruct (String.eqb k "NUMBER").
    - destruct (py_int v); simpl; lia.
    - destruct (String.eqb k "IDENTIFIER"); [simpl; lia|].
      destruct (kind_in k expr_ops || kind_in k term_ops); [simpl; lia|].
      destruct (String.eqb k "ELSE"); simpl; lia. }
  lia.
Qed.

Lemma numbers_convert_items (n : node) :
  (forall z, In (INumber z) (node_items n) -> (digits z <= max_str_digits)%nat) ->
  numbers_convert n = true.
Proof.
  induction n as [z | name | l op r IHl IHr | t v IHt IHv | c t e IHc IHt IHe | l IH]
    using node_induction; cbn [numbers_convert node_items]; intros H.
  - apply Nat.leb_le, H. now left.
  - reflexivity.
  - rewrite IHl, IHr; [reflexivity | |];
      intros z Hz; apply H; rewrite !in_app_iff; auto.
  - apply IHv. intros z Hz. apply H. rewrite in_app_iff. auto.
  - rewrite IHc, IHt; [| |];
      try (intros z Hz; apply H; rewrite !in_app_iff; now auto).
    destruct e as [e'|]; [|reflexivity]. cbn [andb].
    apply (IHe e' eq_refl). intros z Hz. apply H.
    rewrite !in_app_iff. right. right. now right.
  - apply forallb_forall. intros x Hx.
    rewrite Forall_forall in IH. apply (IH x Hx).
    intros z Hz. apply H. apply in_flat_map. now exists x.
Qed.

Lemma frames_expression (e : node) :
  is_expression e = true ->
  (frames e + 1 <= 2 * List.length (node_items e))%nat.
Proof.
  induction e as [z | name | l op r IHl IHr | t v IHt IHv | c t e IHc IHt IHe | l IH]
    using node_induction; cbn [is_expression]; intros H; try discriminate.
  - simpl. lia.
  - simpl. lia.
  - apply andb_true_iff in H as [Hl Hr].
    specialize (IHl Hl). specialize (IHr Hr).
    cbn [frames node_items]. rewrite !List.length_app. cbn [List.length]. lia.
Qed.

Lemma is_statement_expression (b : bool) (n : node) :
  is_expression n = true -> is_statement b n = true.
Proof. destruct n; try discriminate; auto. Qed.

Lemma frames_statement (n : node) :
  forall b, is_statement b n = true ->
    (frames n <= 3 * List.length (node_items n) + (if b then 2 else 0))%nat.
Proof.
  induction n as [z | name | l op r IHl IHr | t v IHt IHv | c t e IHc IHt IHe | l IH]
    using node_induction; intros b H.
  - simpl. lia.
  - simpl. lia.
  - pose proof (frames_expression (BinOp l op r) H). lia.
  - cbn [is_statement] in H. destruct t; try discriminate.
    pose proof (frames_expression v H).
    cbn [frames node_items]. rewrite List.length_app. cbn [List.length]. lia.
  - cbn [is_statement] in H.
    apply andb_true_iff in H as [H He]. apply andb_true_iff in H as [Hc Ht].
    pose proof (frames_expression c Hc) as Fc.
    pose proof (IHt true Ht) as Ft.
    cbn [frames node_items]. rewrite !List.length_app.
    destruct e as [e'|].
    + pose proof (IHe e' eq_refl true He) as Fe. cbn [List.length].
      cbv iota in Ft, Fe. destruct b; lia.
    + cbn [List.length]. cbv iota in Ft. destruct b; lia.
  - cbn [is_statement] in H. apply andb_true_iff in H as [-> Hl].
    cbn [frames node_items].
    assert (F : (list_max (map frames l) <= 3 * List.length (flat_map node_items l))%nat).
    { induction IH as [|x l Hx _ IHl]; [simpl; lia|].
      cbn [forallb] in Hl. apply andb_true_iff in Hl as [Hx' Hl].
      specialize (Hx false Hx'). specialize (IHl Hl).
      cbn [map list_max flat_map]. rewrite List.length_app.
      cbv iota in Hx. cbn [list_max fold_right]. fold (list_max (map frames l)). lia. }
    lia.
Qed.

(** The tree [parse] returns for tokens within the limits is rendered
    within them: each of its numbers was read by [int] from a token, and has
    no more digits than the token; and [generate_code] nests at most three
    calls for each token that carries content and two more. *)
Lemma parsed_within_limits (toks : list token) (ast : node) :
  parse (Parser_init toks) = Ok ast ->
  within_limits toks = true -> renders_within_limits ast = true.
Proof.
  intros H Hlim. pose proof (parse_spec toks ast H) as (_ & _ & Hi).
  unfold within_limits in Hlim. apply andb_true_iff in Hlim as [Hconv Hcalls].
  apply Nat.leb_le in Hcalls.
  unfold renders_within_limits. apply andb_true_iff. split.
  - apply numbers_convert_items. rewrite Hi. intros z Hz.
    apply trace_number in Hz as (v & Hv & Hz).
    pose proof (py_int_digits_length v z Hz) as Hd.
    rewrite forallb_forall in Hconv. specialize (Hconv _ Hv).
    unfold converts in Hconv. cbn [fst snd String.eqb] in Hconv.
    change (String.eqb "NUMBER" "NUMBER") with true in Hconv.
    cbn [negb orb] in Hconv. apply Nat.leb_le in Hconv. lia.
  - apply Nat.leb_le.
    unfold parse in H.
    destruct (parse_loop _ [] _) as [[l q]| |] eqn:E; try discriminate.
    injection H as <-.
    pose proof (parse_loop_shape _ _ _ _ _ E eq_refl) as Hl.
    assert (Hs : is_statement true (Block l) = true) by exact Hl.
    pose proof (frames_statement (Block l) true Hs) as F.
    cbv iota in F.
    pose proof (trace_length toks) as T. rewrite <- Hi in T. lia.
Qed.

(* ------------------------------------------------------------------ *)
(** ** Redundant parentheses *)

Lemma lex_wrapped (t : node) (s : string) (k : nat) :
  expression t -> generate_code t = Ok s ->
  forall prev rest, starts is_word rest = false ->
    exists prev',
      lex_from prev (wrap k s ++ rest) =
      (wrap_tokens k (expr_tokens t) ++ lex_from prev' rest)%list.
Proof.
  intros Ht Hs. destruct (lex_rendering t s Ht Hs) as (_ & _ & Hlex).
  induction k as [|k IH]; intros prev rest Hrest.
  - exists (last_char prev s). now apply Hlex.
  - cbn [wrap wrap_tokens]. rewrite !string_app_assoc.
    change ("(" ++ wrap k s ++ ")" ++ rest)
      with (String "(" (wrap k s ++ String ")" rest)).
    rewrite lex_lparen.
    destruct (IH (Some "("%char) (String ")" rest) eq_refl) as (prev' & ->).
    rewrite lex_rparen. exists (Some ")"%char).
    cbn [app]. now rewrite <- !List.app_assoc.
Qed.

Lemma factor_wrapped (t : node) (k : nat) :
  expression t ->
  exists n, forall more,
    factor n (Parser_init (wrap_tokens k (expr_tokens t) ++ more)) =
    Ok (t, Parser_init more).
Proof.
  intros Ht. induction k as [|k (n & IH)]; [now apply factor_expression|].
  exists (S (S (S n))). intros more.
  cbn [wrap_tokens app]. rewrite <- List.app_assoc. cbn [app].
  rewrite Parser_init_cons.
  cbn [factor current_token String.eqb Ascii.eqb Bool.eqb].
  rewrite next_token_bind.
  change (next_token_of (mkParser ?ts (Some ("LPAREN", "("))))
    with (Parser_init ts).
  rewrite (bind_Ok _ _ _ _ _
             (expr_single n _ t _ (IH (("RPAREN", ")") :: more)) eq_refl)).
  reflexivity.
Qed.

(** X11.  Parentheses around an expression leave no trace: the rendering of
    an expression in pairs of parentheses, as a statement, compiles to the
    rendering itself, for as many pairs as leave the tokens of the statement
    within the limits of the interpreter. *)
Theorem redundant_parentheses (t : node) (s : string) (k : nat) :
  expression t -> generate_code t = Ok s ->
  within_limits (lex (wrap k s ++ ";")) = true ->
  compile_code (wrap k s ++ ";") = Ok s.
Proof.
  intros Ht Hs _.
  destruct (lex_wrapped t s k Ht Hs None ";" eq_refl) as (prev' & Hlex).
  rewrite lex_semicolon in Hlex. change (lex_from _ "") with (@nil token) in Hlex.
  fold (lex (wrap k s ++ ";")) in Hlex.
  unfold compile_code. rewrite Hlex.
  match goal with |- rbind ?p _ = _ => assert (Hp : p = Ok (Block [t])) end.
  { destruct k as [|k]; [now apply parse_rendered_expression|].
    destruct (factor_wrapped t (S k) Ht) as (n & Hf).
    specialize (Hf [("SEMICOLON", ";")]).
    apply expr_single in Hf; [|reflexivity].
    eapply parse_expression_statement; try exact Hf; reflexivity. }
  rewrite Hp. cbn [rbind]. rewrite generate_code_block. cbn [generate_each].
  now rewrite Hs.
Qed.

Lemma redundant_parentheses_witness :
  compile_code (wrap 2 "(x + 1)" ++ ";") = Ok "(x + 1)".
Proof.
  apply (redundant_parentheses (BinOp (Identifier "x") "+" (Number 1)) "(x + 1)" 2).
  - apply (expression_binop _ "PLUS").
    + now apply expression_identifier.
    + simpl. auto.
    + now apply expression_number.
  - reflexivity.
  - reflexivity.
Defined.

(* ------------------------------------------------------------------ *)
(** ** Errors at the end of an expression *)

Lemma expr_of_factor_raise n p e :
  factor n p = Raise e -> expr (S (S n)) p = Raise e.
Proof.
  intros H. rewrite expr_eq. unfold bind at 1. rewrite term_eq.
  unfold bind at 1. now rewrite H.
Qed.

(** [factor] at an opening parenthesis before the tokens of a rendered
    expression: what remains is to find the closing one. *)
Lemma factor_open (t : node) :
  expression t ->
  exists n, forall m more, n <= m -> no_operator (Parser_init more) = true ->
    factor (S m) (Parser_init (("LPAREN", "(") :: expr_tokens t ++ more)) =
    (expect "RPAREN" ;;; ret t) (Parser_init more).
Proof.
  intros Ht. destruct (expr_rendered t Ht) as (n & He).
  exists n. intros m more Hm Hno.
  rewrite Parser_init_cons.
  cbn [factor current_token String.eqb Ascii.eqb Bool.eqb].
  rewrite next_token_bind.
  change (next_token_of (mkParser ?ts (Some ("LPAREN", "("))))
    with (Parser_init ts).
  now rewrite (bind_Ok _ _ _ _ _ (He m more Hm Hno)).
Qed.

Lemma statement_open_raises n ts e :
  factor n (Parser_init (("LPAREN", "(") :: ts)) = Raise e ->
  parse (Parser_init (("LPAREN", "(") :: ts)) = Raise e.
Proof.
  intros H. remember (Parser_init (("LPAREN", "(") :: ts)) as p eqn:Ep.
  assert (Hc : current_token p = Some ("LPAREN", "(")) by now subst p.
  apply (parse_first_raises (S (S (S n)))); [|congruence].
  cbn [statement]. rewrite Hc.
  cbn [String.eqb Ascii.eqb Bool.eqb andb]. unfold bind at 1.
  now rewrite (expr_of_factor_raise _ _ _ H).
Qed.

Lemma rbind_raise {A B} (r : result A) (k : A -> result B) e :
  r = Raise e -> rbind r k = Raise e.
Proof. now intros ->. Qed.

Lemma rendered_statement_raises (t : node) (more : list token) e :
  expression t ->
  no_operator (Parser_init more) = true ->
  lookahead "ASSIGN" (mkParser more None) = false ->
  (expect "SEMICOLON" ;;; ret t) (Parser_init more) = Raise e ->
  parse (Parser_init (expr_tokens t ++ more)) = Raise e.
Proof.
  intros Ht Hno Hla He. destruct (statement_rendered t Ht) as (n & Hst).
  destruct (expr_tokens_head t Ht) as (k & v & ts & E & _).
  apply (parse_first_raises n).
  - now rewrite (Hst n more (le_n _) Hno Hla).
  - rewrite E. discriminate.
Qed.

Lemma open_statement_raises (t : node) (more : list token) e :
  expression t ->
  no_operator (Parser_init more) = true ->
  (expect "RPAREN" ;;; ret t) (Parser_init more) = Raise e ->
  parse (Parser_init (("LPAREN", "(") :: expr_tokens t ++ more)) = Raise e.
Proof.
  intros Ht Hno He. destruct (factor_open t Ht) as (n & Hf).
  apply (statement_open_raises (S n)).
  now rewrite (Hf n more (le_n _) Hno).
Qed.

(** X12.  An expression that is not closed is a [SyntaxError] of [expect],
    which names the token kind it wanted and the text it found, or [EOF]:
    the rendering of an expression alone lacks its [;], one followed by [)]
    has a [)] where the [;] should be, and one after an opening parenthesis
    lacks the closing one. *)
Theorem unclosed_expression (t : node) (s : string) :
  expression t -> generate_code t = Ok s ->
  compile_code s =
    Raise (SyntaxError "Esperado 'SEMICOLON' mas encontrado 'EOF'") /\
  compile_code (s ++ ")") =
    Raise (SyntaxError "Esperado 'SEMICOLON' mas encontrado ')'") /\
  compile_code ("(" ++ s) =
    Raise (SyntaxError "Esperado 'RPAREN' mas encontrado 'EOF'") /\
  compile_code ("(" ++ s ++ ";") =
    Raise (SyntaxError "Esperado 'RPAREN' mas encontrado ';'").
Proof.
  intros Ht Hs. destruct (lex_rendering t s Ht Hs) as (_ & _ & Hlex).
  unfold compile_code, lex. split; [|split; [|split]].
  - rewrite <- (string_app_nil s) at 1. rewrite Hlex by reflexivity.
    apply rbind_raise. now apply rendered_statement_raises.
  - rewrite Hlex by reflexivity. rewrite lex_rparen.
    apply rbind_raise. now apply rendered_statement_raises.
  - change ("(" ++ s) with (String "(" s). rewrite lex_lparen.
    rewrite <- (string_app_nil s) at 1. rewrite Hlex by reflexivity.
    apply rbind_raise. now apply open_statement_raises.
  - change ("(" ++ s ++ ";") with (String "(" (s ++ ";")). rewrite lex_lparen.
    rewrite Hlex by reflexivity. rewrite lex_semicolon.
    apply rbind_raise. now apply open_statement_raises.
Qed.

Lemma unclosed_expression_witness :
  compile_code "(a * 2)" =
    Raise (SyntaxError "Esperado 'SEMICOLON' mas encontrado 'EOF'") /\
  compile_code ("(a * 2)" ++ ")") =
    Raise (SyntaxError "Esperado 'SEMICOLON' mas encontrado ')'") /\
  compile_code ("(" ++ "(a * 2)") =
    Raise (SyntaxError "Esperado 'RPAREN' mas encontrado 'EOF'") /\
  compile_code ("(" ++ "(a * 2)" ++ ";") =
    Raise (SyntaxError "Esperado 'RPAREN' mas encontrado ';'").
Proof.
  apply (unclosed_expression (BinOp (Identifier "a") "*" (Number 2))).
  - apply (expression_binop _ "MULTIPLY").
    + now apply expression_identifier.
    + simpl. auto.
    + now apply expression_number.
  - reflexivity.
Defined.

(* ------------------------------------------------------------------ *)
(** ** The head of an [if] *)

Lemma if_statement_eq n :
  if_statement (S n) =
  (expect "IF" ;;; expect "LPAREN" ;;;
   condition <- expr n ;;
   expect "RPAREN" ;;;
   then_branch <- block_or_statement n ;;
   else_part n condition then_branch).
Proof. reflexivity. Qed.

(** [if_statement] on [if (], the tokens of a rendered expression and [)]:
    what remains is to read the branches. *)
Lemma if_head (t : node) :
  expression t ->
  exists n, forall m more, n <= m ->
    if_statement (S m)
      (Parser_init (("IF", "if") :: ("LPAREN", "(") :: expr_tokens t
                    ++ ("RPAREN", ")") :: more)) =
    (then_branch <- block_or_statement m ;; else_part m t then_branch)
      (Parser_init more).
Proof.
  intros Ht. destruct (expr_rendered t Ht) as (n & He).
  exists n. intros m more Hm. rewrite if_statement_eq.
  rewrite Parser_init_cons.
  erewrite expect_bind by reflexivity.
  change (next_token_of (mkParser ?ts (Some ("IF", "if")))) with (Parser_init ts).
  rewrite Parser_init_cons.
  erewrite expect_bind by reflexivity.
  change (next_token_of (mkParser ?ts (Some ("LPAREN", "("))))
    with (Parser_init ts).
  rewrite (bind_Ok _ _ _ _ _ (He m (("RPAREN", ")") :: more) Hm eq_refl)).
  rewrite Parser_init_cons.
  erewrite expect_bind by reflexivity.
  reflexivity.
Qed.

Lemma statement_if n p v :
  current_token p = Some ("IF", v) -> statement (S n) p = if_statement n p.
Proof. intros H. cbn [statement]. now rewrite H. Qed.

Lemma lex_if_head (t : node) (s : string) :
  expression t -> generate_code t = Ok s ->
  forall prev rest, word_opt prev = false ->
    lex_from prev ("if (" ++ s ++ ")" ++ rest) =
    (("IF", "if") :: ("LPAREN", "(") :: expr_tokens t
     ++ ("RPAREN", ")") :: lex_from (Some ")"%char) rest)%list.
Proof.
  intros Ht Hs prev rest Hp.
  destruct (lex_rendering t s Ht Hs) as (_ & _ & Hlex).
  change ("if (" ++ s ++ ")" ++ rest)
    with (String "i" (String "f" (String " " (String "(" (s ++ String ")" rest))))).
  rewrite lex_if by exact Hp. rewrite lex_lparen.
  rewrite Hlex by reflexivity. now rewrite lex_rparen.
Qed.

(** Where the tokens have run out, a branch is a [TypeError]. *)
Lemma branch_at_end n :
  block_or_statement (S (S n)) (Parser_init []) = Raise none_not_subscriptable.
Proof. reflexivity. Qed.

Lemma if_raises (t : node) (more : list token) e :
  expression t ->
  (exists n, forall m, n <= m ->
     (then_branch <- block_or_statement m ;; else_part m t then_branch)
       (Parser_init more) = Raise e) ->
  parse (Parser_init (("IF", "if") :: ("LPAREN", "(") :: expr_tokens t
                      ++ ("RPAREN", ")") :: more)) = Raise e.
Proof.
  intros Ht (n' & H). destruct (if_head t Ht) as (n & Hif).
  apply (parse_first_raises (S (S (n + n')))); [|discriminate].
  rewrite (statement_if _ _ "if") by reflexivity.
  rewrite (Hif (n + n') more) by lia. apply H. lia.
Qed.

(** A rendered expression and its [;] as a branch. *)
Lemma branch_rendered (t : node) :
  expression t ->
  exists n, forall m more, n <= m ->
    block_or_statement m
      (Parser_init (expr_tokens t ++ ("SEMICOLON", ";") :: more)) =
    Ok (t, Parser_init more).
Proof.
  intros Ht. destruct (statement_rendered t Ht) as (n & Hstmt).
  destruct (expr_tokens_head t Ht) as (k & v & ts & E & _ & _ & _ & Hlb & _).
  exists (S n). intros m more Hm. destruct m as [|m]; [lia|].
  remember (Parser_init (expr_tokens t ++ ("SEMICOLON", ";") :: more)) as p eqn:Ep.
  assert (Hc : current_token p = Some (k, v)) by (subst p; now rewrite E).
  cbn [block_or_statement]. rewrite Hc, Hlb. subst p.
  rewrite Hstmt by (lia || reflexivity). reflexivity.
Qed.

(** X13.  An [if] whose branch is missing at the end of the text is not a
    [SyntaxError]: [block_or_statement] calls [statement], which subscripts
    [current_token] when it is [None], and Python raises a [TypeError].  The
    same happens after an [else] that ends the text. *)
Theorem if_without_branch (c : node) (sc : string) :
  expression c -> generate_code c = Ok sc ->
  compile_code ("if (" ++ sc ++ ")") = Raise none_not_subscriptable /\
  forall t st, expression t -> generate_code t = Ok st ->
    compile_code ("if (" ++ sc ++ ") " ++ st ++ "; else") =
    Raise none_not_subscriptable.
Proof.
  intros Hc Hsc. split.
  - unfold compile_code, lex.
    rewrite <- (string_app_nil ("if (" ++ sc ++ ")")), !string_app_assoc.
    rewrite (lex_if_head c sc Hc Hsc) by reflexivity.
    apply rbind_raise. apply if_raises; [exact Hc|].
    exists 2. intros [|[|m]] Hm; try lia. reflexivity.
  - intros t st Ht Hst.
    destruct (lex_rendering t st Ht Hst) as (_ & _ & Hlex).
    destruct (branch_rendered t Ht) as (n & Hb).
    unfold compile_code, lex.
    change ("if (" ++ sc ++ ") " ++ st ++ "; else")
      with ("if (" ++ sc ++ ")" ++ String " " (st ++ String ";" " else")).
    rewrite (lex_if_head c sc Hc Hsc) by reflexivity.
    rewrite lex_space_char by reflexivity.
    rewrite Hlex by reflexivity. rewrite lex_semicolon.
    change (lex_from (Some ";"%char) " else") with [("ELSE", "else")].
    apply rbind_raise. apply if_raises; [exact Hc|].
    exists (S (S n)). intros m Hm.
    rewrite (bind_Ok _ _ _ _ _ (Hb m [("ELSE", "else")] ltac:(lia))).
    destruct m as [|[|m]]; try lia. reflexivity.
Qed.

Lemma if_without_branch_witness :
  compile_code ("if (" ++ "(x < 1)" ++ ")") = Raise none_not_subscriptable /\
  compile_code ("if (" ++ "(x < 1)" ++ ") " ++ "y" ++ "; else") =
    Raise none_not_subscriptable.
Proof.
  assert (H : expression (BinOp (Identifier "x") "<" (Number 1))).
  { apply (expression_binop _ "LT").
    - now apply expression_identifier.
    - simpl. auto 10.
    - now apply expression_number. }
  destruct (if_without_branch (BinOp (Identifier "x") "<" (Number 1)) "(x < 1)"
              H eq_refl) as [H1 H2].
  split; [exact H1|].
  apply (H2 (Identifier "y") "y"); [now apply expression_identifier | reflexivity].
Defined.


(* ------------------------------------------------------------------ *)
(** ** What the generator writes is read back to the same text *)

Lemma plain_name_spec (name : string) :
  plain_name name = true ->
  is_identifier name = true /\ name <> "if" /\ name <> "else".
Proof.
  unfold plain_name. intros H.
  apply andb_true_iff in H as [H He]. apply andb_true_iff in H as [Hid Hi].
  apply negb_true_iff, String.eqb_neq in He, Hi. auto.
Qed.

Lemma plain_expression_spec (t : node) :
  plain_expression t = true -> expression t.
Proof.
  induction t as [z | name | l IHl op r IHr | | |]; cbn [plain_expression];
    intros H; try discriminate.
  - apply expression_number. now apply Z.leb_le.
  - destruct (plain_name_spec name H) as (Hid & Hif & Helse).
    now apply expression_identifier.
  - apply andb_true_iff in H as [H Hr]. apply andb_true_iff in H as [Hl Hop].
    apply existsb_exists in Hop as ([name op'] & Hin & Heq).
    simpl in Heq. apply String.eqb_eq in Heq. subst op'.
    apply (expression_binop _ name); auto.
Qed.

Lemma lexes_to_nil : lexes_to "" [].
Proof. intros prev rest Hp. simpl. now apply lex_from_prev. Qed.

Lemma lexes_to_lines (x y : string) (tx ty : list token) :
  lexes_to x tx -> lexes_to y ty -> lexes_to (x ++ nl ++ y) (tx ++ ty).
Proof.
  intros Hx Hy prev rest Hp. rewrite !string_app_assoc.
  rewrite (Hx prev _ Hp).
  change (nl ++ y ++ rest) with (String (ascii_of_nat 10) (y ++ rest)).
  rewrite lex_space_char by reflexivity.
  rewrite (Hy None rest eq_refl). now rewrite List.app_assoc.
Qed.

(** A text between braces, laid out as a branch of an [if]. *)
Lemma lex_braces (s : string) (toks : list token) :
  lexes_to s toks ->
  forall prev rest,
    lex_from prev ("{" ++ nl ++ "  " ++ s ++ nl ++ "}" ++ rest) =
    (("LBRACE", "{") :: toks ++ ("RBRACE", "}") :: lex_from None rest)%list.
Proof.
  intros Hs prev rest.
  change ("{" ++ nl ++ "  " ++ s ++ nl ++ "}" ++ rest)
    with (String "{" (String (ascii_of_nat 10) (String " " (String " "
            (s ++ String (ascii_of_nat 10) (String "}" rest)))))).
  rewrite lex_lbrace. rewrite !lex_space_char by reflexivity.
  rewrite (Hs None _ eq_refl). rewrite lex_space_char by reflexivity.
  rewrite lex_rbrace. now rewrite (lex_from_prev (Some "}"%char) None rest eq_refl).
Qed.

Lemma starts_else_app (a b : list token) :
  starts_else a = false -> starts_else b = false -> starts_else (a ++ b) = false.
Proof. destruct a; simpl; auto. Qed.

Lemma statement_start_else (a b : list token) :
  statement_start a = true -> starts_else (a ++ b) = false.
Proof.
  destruct a as [|[k v] a]; [discriminate|]. simpl. intros H.
  apply orb_true_iff in H as [H|H]; apply String.eqb_eq in H; now subst k.
Qed.

(** [statement] on the tokens of an assignment of a rendered expression. *)
Lemma assignment_parses (name : string) (v : node) :
  expression v ->
  exists n, forall m more, n <= m ->
    statement m
      (Parser_init (("IDENTIFIER", name) :: ("ASSIGN", "=") :: expr_tokens v
                    ++ ("SEMICOLON", ";") :: more)) =
    Ok (Assignment (Identifier name) v, Parser_init more).
Proof.
  intros Hv. destruct (expr_rendered v Hv) as (n & He).
  exists (S n). intros m more Hm. destruct m as [|m]; [lia|].
  match goal with |- statement _ ?q = _ => remember q as p end.
  assert (Hc : current_token p = Some ("IDENTIFIER", name)) by now subst p.
  assert (Hl : lookahead "ASSIGN" p = true) by now subst p.
  cbn [statement]. rewrite Hc, Hl.
  cbn [String.eqb Ascii.eqb Bool.eqb andb].
  unfold assignment. rewrite Hc. subst p.
  rewrite Parser_init_cons. erewrite expect_bind by reflexivity.
  change (next_token_of (mkParser ?ts (Some ("IDENTIFIER", name))))
    with (Parser_init ts).
  rewrite Parser_init_cons. erewrite expect_bind by reflexivity.
  change (next_token_of (mkParser ?ts (Some ("ASSIGN", "="))))
    with (Parser_init ts).
  rewrite (bind_Ok _ _ _ _ _
             (He m (("SEMICOLON", ";") :: more) ltac:(lia) eq_refl)).
  rewrite Parser_init_cons. erewrite expect_bind by reflexivity.
  reflexivity.
Qed.

(** An assignment of a rendered expression to a plain name. *)
Lemma assignment_round_trips (name : string) (v : node) :
  plain_name name = true -> expression v ->
  statement_round_trip (Assignment (Identifier name) v).
Proof.
  intros Hname Hv. destruct (plain_name_spec name Hname) as (Hid & Hif & Helse).
  destruct (expression_rendered v Hv) as (sv & Hsv).
  destruct (lex_rendering v sv Hv Hsv) as (_ & _ & Hlex).
  destruct (assignment_parses name v Hv) as (n & Hparse).
  assert (Hg : generate_code (Assignment (Identifier name) v) =
               Ok (name ++ " = " ++ sv ++ ";"))
    by (cbn [generate_code]; now rewrite Hsv).
  exists (name ++ " = " ++ sv ++ ";").
  split; [exact Hg|]. split; [|split; [reflexivity|split; [|exact Hg]]].
  - intros prev rest Hp. rewrite !string_app_assoc.
    change (" = " ++ sv ++ ";" ++ rest)
      with (String " " (String "=" (String " " (sv ++ String ";" rest)))).
    rewrite (lex_from_match _ _ _ _ _
               (TOKEN_REGEX_identifier name
                  (String " " (String "=" (String " " (sv ++ String ";" rest))))
                  prev Hid Hif Helse eq_refl)).
    cbn [String.eqb Ascii.eqb Bool.eqb].
    rewrite lex_space_char by reflexivity. rewrite lex_assign.
    rewrite Hlex by reflexivity. rewrite lex_semicolon.
    rewrite (lex_from_prev (Some ";"%char) None rest eq_refl).
    cbn [statement_tokens app]. now rewrite <- List.app_assoc.
  - exists n. intros m more Hm _.
    cbn [reparsed statement_tokens app]. rewrite <- List.app_assoc. cbn [app].
    now apply Hparse.
Qed.

(** Statements that round-trip, one per line. *)
Lemma statements_round_trips (l : list node) :
  Forall statement_round_trip l -> statements_round_trip l.
Proof.
  induction 1 as [|x xs (tx & Gx & Lx & Sx & (nx & Px) & Rx) Hxs
                    (txs & Gxs & Lxs & Exs & (nb & Pb) & (np & Pp) & Rxs)].
  - exists []. split; [reflexivity|]. split; [exact lexes_to_nil|].
    split; [reflexivity|]. split; [|split; [|reflexivity]].
    + exists 1. intros m acc more Hm. destruct m as [|m]; [lia|].
      cbn [flat_map map app block_loop]. rewrite Parser_init_cons.
      cbn [current_token String.eqb Ascii.eqb Bool.eqb].
      now rewrite List.app_nil_r.
    + exists 1. intros m acc Hm. destruct m as [|m]; [lia|].
      cbn [flat_map map parse_loop]. now rewrite List.app_nil_r.
  - exists (tx :: txs). cbn [flat_map map generate_each].
    rewrite Gx, Rx, Gxs, Rxs. cbn [rbind].
    split; [reflexivity|]. split; [|split; [|split; [|split; [|reflexivity]]]].
    + destruct xs as [|y ys].
      * cbn [generate_each] in Gxs. injection Gxs as <-.
        cbn [flat_map join]. now rewrite List.app_nil_r.
      * assert (Hne : exists t ts, txs = t :: ts).
        { cbn [generate_each] in Gxs.
          destruct (generate_code y); try discriminate.
          destruct (generate_each ys); try discriminate.
          cbn [rbind] in Gxs. injection Gxs as <-. eauto. }
        destruct Hne as (t & ts & ->).
        change (join nl (tx :: t :: ts)) with (tx ++ nl ++ join nl (t :: ts)).
        now apply lexes_to_lines.
    + now apply statement_start_else.
    + exists (S (Nat.max nx nb)). intros m acc more Hm.
      destruct m as [|m]; [lia|].
      rewrite <- List.app_assoc.
      destruct (statement_tokens x) as [|[k v] tks] eqn:E; [discriminate|].
      cbn [block_loop app]. rewrite Parser_init_cons. cbn [current_token].
      assert (Hk : String.eqb k "RBRACE" = false).
      { simpl in Sx. apply orb_true_iff in Sx as [H|H];
          apply String.eqb_eq in H; now subst k. }
      rewrite Hk. rewrite <- Parser_init_cons.
      change ((k, v) :: tks ++ ?z)%list with (((k, v) :: tks) ++ z)%list.
      rewrite (bind_Ok _ _ _ _ _
                 (Px m _ ltac:(lia)
                    (starts_else_app _ (("RBRACE", "}") :: more) Exs eq_refl))).
      rewrite (Pb m _ more ltac:(lia)). now rewrite <- List.app_assoc.
    + exists (S (Nat.max nx np)). intros m acc Hm.
      destruct m as [|m]; [lia|].
      destruct (statement_tokens x) as [|[k v] tks] eqn:E; [discriminate|].
      cbn [parse_loop app]. rewrite Parser_init_cons. cbn [current_token].
      rewrite <- Parser_init_cons.
      change ((k, v) :: tks ++ ?z)%list with (((k, v) :: tks) ++ z)%list.
      rewrite (bind_Ok _ _ _ _ _ (Px m _ ltac:(lia) Exs)).
      rewrite (Pp m _ ltac:(lia)). now rewrite <- List.app_assoc.
Qed.

(** A block in braces as a branch. *)
Lemma block_braces (toks : list token) (l : list node) :
  parses_block toks l ->
  exists n, forall m more, n <= m ->
    block_or_statement m
      (Parser_init (("LBRACE", "{") :: toks ++ ("RBRACE", "}") :: more)) =
    Ok (Block l, Parser_init more).
Proof.
  intros (n & Pb). exists (S n). intros m more Hm.
  destruct m as [|m]; [lia|].
  cbn [block_or_statement]. rewrite Parser_init_cons.
  cbn [current_token String.eqb Ascii.eqb Bool.eqb].
  erewrite expect_bind by reflexivity.
  change (next_token_of (mkParser ?ts (Some ("LBRACE", "{"))))
    with (Parser_init ts).
  rewrite (bind_Ok _ _ _ _ _ (Pb m [] more ltac:(lia))).
  rewrite Parser_init_cons. erewrite expect_bind by reflexivity.
  reflexivity.
Qed.

Lemma else_part_none n c t more :
  starts_else more = false ->
  else_part n c t (Parser_init more) = Ok (IfStatement c t None, Parser_init more).
Proof.
  intros H. unfold else_part. destruct more as [|[k v] more]; [reflexivity|].
  rewrite Parser_init_cons. cbn [current_token]. simpl in H. now rewrite H.
Qed.

Lemma else_part_some n c t e toks more :
  block_or_statement n (Parser_init toks) = Ok (e, Parser_init more) ->
  else_part n c t (Parser_init (("ELSE", "else") :: toks)) =
  Ok (IfStatement c t (Some e), Parser_init more).
Proof.
  intros H. unfold else_part. rewrite Parser_init_cons.
  cbn [current_token String.eqb Ascii.eqb Bool.eqb].
  rewrite next_token_bind.
  change (next_token_of (mkParser ?ts (Some ("ELSE", "else"))))
    with (Parser_init ts).
  now rewrite (bind_Ok _ _ _ _ _ H).
Qed.

(** The text of an [if] up to the end of its then branch. *)
Lemma lex_if_text (c : node) (sc st : string) (toks : list token) :
  expression c -> generate_code c = Ok sc -> lexes_to st toks ->
  forall prev rest, word_opt prev = false ->
    lex_from prev ("if (" ++ sc ++ ") {" ++ nl ++ "  " ++ st ++ nl ++ "}" ++ rest) =
    (("IF", "if") :: ("LPAREN", "(") :: expr_tokens c
     ++ ("RPAREN", ")") :: ("LBRACE", "{") :: toks
     ++ ("RBRACE", "}") :: lex_from None rest)%list.
Proof.
  intros Hc Hsc Hst prev rest Hp.
  change ("if (" ++ sc ++ ") {" ++ nl ++ "  " ++ st ++ nl ++ "}" ++ rest)
    with ("if (" ++ sc ++ ")"
          ++ String " " ("{" ++ nl ++ "  " ++ st ++ nl ++ "}" ++ rest)).
  rewrite (lex_if_head c sc Hc Hsc) by exact Hp.
  rewrite lex_space_char by reflexivity.
  now rewrite (lex_braces st toks Hst).
Qed.

(** The text of an else branch. *)
Lemma lex_else_text (se : string) (toks : list token) :
  lexes_to se toks ->
  forall rest,
    lex_from None (" else {" ++ nl ++ "  " ++ se ++ nl ++ "}" ++ rest) =
    (("ELSE", "else") :: ("LBRACE", "{") :: toks
     ++ ("RBRACE", "}") :: lex_from None rest)%list.
Proof.
  intros Hse rest.
  change (" else {" ++ nl ++ "  " ++ se ++ nl ++ "}" ++ rest)
    with (String " " (String "e" (String "l" (String "s" (String "e" (String " "
            ("{" ++ nl ++ "  " ++ se ++ nl ++ "}" ++ rest))))))).
  rewrite lex_space_char by reflexivity. rewrite lex_else by reflexivity.
  now rewrite (lex_braces se toks Hse).
Qed.

(** [statement] on the tokens of an [if] up to the end of its then branch:
    what remains is the test for [else]. *)
Lemma if_then_parses (c : node) (toks : list token) (l : list node) :
  expression c -> parses_block toks l ->
  exists n, forall m more, n <= m ->
    statement (S (S m))
      (Parser_init (("IF", "if") :: ("LPAREN", "(") :: expr_tokens c
                    ++ ("RPAREN", ")") :: ("LBRACE", "{") :: toks
                    ++ ("RBRACE", "}") :: more)) =
    else_part m c (Block l) (Parser_init more).
Proof.
  intros Hc Hb. destruct (if_head c Hc) as (n1 & Hif).
  destruct (block_braces toks l Hb) as (n2 & Hbr).
  exists (Nat.max n1 n2). intros m more Hm.
  rewrite (statement_if _ _ "if") by reflexivity.
  rewrite (Hif m _ ltac:(lia)).
  now rewrite (bind_Ok _ _ _ _ _ (Hbr m more ltac:(lia))).
Qed.

(** An [if] over a rendered expression with branches that round-trip. *)
Lemma if_round_trips (c t : node) (e : option node) :
  expression c -> branch_round_trip t ->
  match e with Some e' => branch_round_trip e' | None => True end ->
  statement_round_trip (IfStatement c t e).
Proof.
  intros Hc (st & lt & Gt & Lt & Rt & Pt & Gt') He.
  destruct (expression_rendered c Hc) as (sc & Hsc).
  destruct (if_then_parses c _ lt Hc Pt) as (n & Hthen).
  unfold statement_round_trip. destruct e as [e'|].
  - destruct He as (se & le & Ge & Le & Re & Pe & Ge').
    pose proof (generate_if c t (Some e') sc st se Hsc Gt Ge) as G.
    assert (Hre : renders_empty e' = String.eqb se "")
      by (unfold renders_empty; now rewrite Ge).
    cbn [reparsed statement_tokens]. rewrite Rt, Re, Hre.
    destruct (String.eqb se "") eqn:Ese.
    + exists ("if (" ++ sc ++ ") {" ++ nl ++ "  " ++ st ++ nl ++ "}" ++ "").
      split; [exact G|]. split; [|split; [reflexivity|split]].
      * intros prev rest Hp. rewrite !string_app_assoc.
        rewrite (lex_if_text c sc st _ Hc Hsc Lt) by exact Hp.
        cbn [app]. rewrite <- !List.app_assoc. cbn [app].
        now rewrite <- !List.app_assoc.
      * exists (S (S n)). intros m more Hm Hmore.
        destruct m as [|[|m]]; try lia.
        cbn [app]. rewrite <- !List.app_assoc. cbn [app].
        rewrite <- !List.app_assoc. cbn [app].
        etransitivity; [apply (Hthen m more); lia | now apply else_part_none].
      * now rewrite (generate_if c (Block lt) None sc st "" Hsc Gt' eq_refl).
    + exists ("if (" ++ sc ++ ") {" ++ nl ++ "  " ++ st ++ nl ++ "}"
              ++ " else {" ++ nl ++ "  " ++ se ++ nl ++ "}").
      split; [exact G|]. split; [|split; [reflexivity|split]].
      * intros prev rest Hp. rewrite !string_app_assoc.
        rewrite (lex_if_text c sc st _ Hc Hsc Lt) by exact Hp.
        rewrite (lex_else_text se _ Le).
        cbn [app]. rewrite <- !List.app_assoc. cbn [app].
        rewrite <- !List.app_assoc. cbn [app].
        now rewrite <- !List.app_assoc.
      * destruct (block_braces _ le Pe) as (n' & Hbr).
        exists (S (S (Nat.max n n'))). intros m more Hm Hmore.
        destruct m as [|[|m]]; try lia.
        cbn [app]. rewrite <- !List.app_assoc. cbn [app].
        rewrite <- !List.app_assoc. cbn [app].
        rewrite <- !List.app_assoc. cbn [app].
        etransitivity; [apply (Hthen m); lia|].
        apply else_part_some. apply Hbr. lia.
      * pose proof (generate_if c (Block lt) (Some (Block le)) sc st se
                      Hsc Gt' Ge') as G'.
        now rewrite Ese in G'.
  - pose proof (generate_if c t None sc st "" Hsc Gt eq_refl) as G.
    cbn [reparsed statement_tokens]. rewrite Rt.
    exists ("if (" ++ sc ++ ") {" ++ nl ++ "  " ++ st ++ nl ++ "}" ++ "").
    split; [exact G|]. split; [|split; [reflexivity|split]].
    + intros prev rest Hp. rewrite !string_app_assoc.
      rewrite (lex_if_text c sc st _ Hc Hsc Lt) by exact Hp.
      cbn [app]. rewrite <- !List.app_assoc. cbn [app].
      now rewrite <- !List.app_assoc.
    + exists (S (S n)). intros m more Hm Hmore.
      destruct m as [|[|m]]; try lia.
      cbn [app]. rewrite <- !List.app_assoc. cbn [app].
      rewrite <- !List.app_assoc. cbn [app].
      etransitivity; [apply (Hthen m more); lia | now apply else_part_none].
    + now rewrite (generate_if c (Block lt) None sc st "" Hsc Gt' eq_refl).
Qed.

(** The statements of a block, as a branch. *)
Lemma block_branch_round_trips (l : list node) :
  statements_round_trip l -> branch_round_trip (Block l).
Proof.
  intros (texts & G & L & _ & Pb & _ & R).
  exists (join nl texts), (map (reparsed false) l).
  split; [now rewrite generate_code_block, G|].
  split; [exact L|]. split; [reflexivity|]. split; [exact Pb|].
  now rewrite generate_code_block, R.
Qed.

(** One statement, as a branch. *)
Lemma statement_branch_round_trips (s : node) :
  statement_round_trip s ->
  reparsed true s = Block [reparsed false s] ->
  branch_round_trip s.
Proof.
  intros Hs Hr. pose proof Hs as (text & G & L & _ & _ & R).
  destruct (statements_round_trips [s] (Forall_cons _ Hs (Forall_nil _)))
    as (texts & G' & L' & _ & Pb & _ & R').
  cbn [generate_each flat_map map] in *.
  rewrite G in G'. rewrite R in R'. cbn [rbind] in *.
  injection G' as <-. rewrite List.app_nil_r in *.
  exists text, [reparsed false s].
  split; [exact G|]. split; [exact L|]. split; [exact Hr|]. split; [exact Pb|].
  rewrite generate_code_block. cbn [generate_each]. now rewrite R.
Qed.

Lemma forallb_Forall {A} (f : A -> bool) (P : A -> Prop) (l : list A) :
  Forall (fun x => f x = true -> P x) l -> forallb f l = true -> Forall P l.
Proof.
  induction 1 as [|x l Hx _ IH]; simpl; intros H; [constructor|].
  apply andb_true_iff in H as [H1 H2]. constructor; auto.
Qed.

(** Closed statements, and closed branches, round-trip. *)
Lemma closed_round_trips (n : node) :
  (closed false n = true -> statement_round_trip n) /\
  (closed true n = true -> branch_round_trip n).
Proof.
  induction n as [z | name | l op r _ _ | t v _ _ | c t e _ IHt IHe | l IH]
    using node_induction; cbn [closed]; try (split; discriminate).
  - assert (H : match t with
                | Identifier name => plain_name name && plain_expression v
                | _ => false
                end = true -> statement_round_trip (Assignment t v)).
    { destruct t as [| name | | | |]; try discriminate. intros H.
      apply andb_true_iff in H as [Hn Hv].
      apply assignment_round_trips; [exact Hn | now apply plain_expression_spec]. }
    split; [exact H|]. intros Hc.
    apply statement_branch_round_trips; [now apply H|].
    destruct t; try discriminate. reflexivity.
  - assert (H : plain_expression c && closed true t &&
                match e with Some e' => closed true e' | None => true end = true ->
                statement_round_trip (IfStatement c t e)).
    { intros H. apply andb_true_iff in H as [H He].
      apply andb_true_iff in H as [Hc Ht].
      apply if_round_trips.
      - now apply plain_expression_spec.
      - now apply IHt.
      - destruct e as [e'|]; [|exact I]. now apply (IHe e' eq_refl). }
    split; [exact H|]. intros Hc.
    apply statement_branch_round_trips; [now apply H | reflexivity].
  - split; [discriminate|]. cbn [andb]. intros H.
    apply block_branch_round_trips, statements_round_trips.
    apply (forallb_Forall (closed false)); [|exact H].
    eapply Forall_impl; [|exact IH]. now intros a [Ha _].
Qed.

(** X14.  What the generator writes for a program of closed statements
    (assignments of expressions to names, and [if]s over expressions whose
    branches are such statements or blocks of them) is a program again, and a
    fixed point of the pipeline: lexing and parsing the text gives the tree
    [reparsed] describes (the branches of every [if] as blocks, an else
    branch that renders to nothing dropped), and that tree is rendered to the
    very same text.  So compiling the output of a text that parses to such
    a program once more changes nothing. *)
Theorem generated_program_fixed_point (l : list node) :
  forallb (closed false) l = true ->
  exists text,
    generate_code (Block l) = Ok text /\
    lex text = statement_tokens (Block l) /\
    parse (Parser_init (lex text)) = Ok (reparsed false (Block l)) /\
    generate_code (reparsed false (Block l)) = Ok text /\
    compile_code text = Ok text /\
    forall code, parse (Parser_init (lex code)) = Ok (Block l) ->
      compile_code code = Ok text.
Proof.
  intros H.
  assert (Hl : statements_round_trip l).
  { apply statements_round_trips.
    apply (forallb_Forall (closed false)); [|exact H].
    apply Forall_forall. intros x _. apply closed_round_trips. }
  destruct Hl as (texts & G & L & _ & _ & (n & Pp) & R).
  exists (join nl texts).
  assert (Hlex : lex (join nl texts) = statement_tokens (Block l)).
  { unfold lex. rewrite <- (string_app_nil (join nl texts)).
    rewrite (L None "" eq_refl). apply List.app_nil_r. }
  assert (Hp : parse (Parser_init (lex (join nl texts))) =
               Ok (reparsed false (Block l))).
  { rewrite Hlex. exact (parse_any_fuel _ n _ _ (Pp n [] (le_n _))). }
  assert (Hg : generate_code (reparsed false (Block l)) = Ok (join nl texts)).
  { cbn [reparsed]. now rewrite generate_code_block, R. }
  split; [now rewrite generate_code_block, G|].
  split; [exact Hlex|]. split; [exact Hp|]. split; [exact Hg|].
  split; [unfold compile_code; now rewrite Hp|].
  intros code Hc. unfold compile_code. rewrite Hc. cbn [rbind].
  now rewrite generate_code_block, G.
Qed.

Lemma generated_program_fixed_point_witness :
  exists text,
    generate_code
      (Block [Assignment (Identifier "x") (BinOp (Number 1) "+" (Identifier "y"));
              IfStatement (BinOp (Identifier "x") "<" (Number 5))
                (Assignment (Identifier "y") (Number 1))
                (Some (Block []))]) = Ok text /\
    lex text =
      statement_tokens
        (Block [Assignment (Identifier "x") (BinOp (Number 1) "+" (Identifier "y"));
                IfStatement (BinOp (Identifier "x") "<" (Number 5))
                  (Assignment (Identifier "y") (Number 1))
                  (Some (Block []))]) /\
    parse (Parser_init (lex text)) =
      Ok (reparsed false
            (Block [Assignment (Identifier "x")
                      (BinOp (Number 1) "+" (Identifier "y"));
                    IfStatement (BinOp (Identifier "x") "<" (Number 5))
                      (Assignment (Identifier "y") (Number 1))
                      (Some (Block []))])) /\
    generate_code
      (reparsed false
         (Block [Assignment (Identifier "x")
                   (BinOp (Number 1) "+" (Identifier "y"));
                 IfStatement (BinOp (Identifier "x") "<" (Number 5))
                   (Assignment (Identifier "y") (Number 1))
                   (Some (Block []))])) = Ok text /\
    compile_code text = Ok text /\
    forall code,
      parse (Parser_init (lex code)) =
        Ok (Block [Assignment (Identifier "x")
                     (BinOp (Number 1) "+" (Identifier "y"));
                   IfStatement (BinOp (Identifier "x") "<" (Number 5))
                     (Assignment (Identifier "y") (Number 1))
                     (Some (Block []))]) ->
      compile_code code = Ok text.
Proof.
  apply (generated_program_fixed_point
           [Assignment (Identifier "x") (BinOp (Number 1) "+" (Identifier "y"));
            IfStatement (BinOp (Identifier "x") "<" (Number 5))
              (Assignment (Identifier "y") (Number 1))
              (Some (Block []))]).
  vm_compute. reflexivity.
Defined.


(* ------------------------------------------------------------------ *)
(** ** The lexer cuts the text into pieces *)

Lemma lex_from_pieces (s : string) :
  forall prev, exists ps,
    pieces_text ps = s /\ pieces_tokens ps = lex_from prev s /\
    forallb skippable ps = true.
Proof.
  remember (String.length s) as n eqn:Hn. revert s Hn.
  induction n as [n IH] using lt_wf_ind. intros s Hn prev.
  destruct s as [|c s]; [now exists []|]. rewrite lex_from_eq.
  destruct (TOKEN_REGEX prev (String c s)) as [[[k v] rest]|] eqn:E.
  - pose proof (TOKEN_REGEX_shorter _ _ _ _ _ E) as Hlen.
    destruct (IH (String.length rest) ltac:(subst n; exact Hlen) rest eq_refl
                (last_char prev v)) as (ps & Ht & Hk & Hs).
    cbv zeta. destruct (String.eqb_spec k "WHITESPACE") as [->|Hk'].
    + apply TOKEN_REGEX_whitespace in E as (Es & Hv & Hsp).
      exists (Skipped v :: ps). cbn [pieces_text pieces_tokens fold_right
                                      flat_map piece_text app forallb skippable].
      fold (pieces_text ps). fold (pieces_tokens ps).
      rewrite Ht, Hk, Hs, Hsp.
      destruct (String.eqb_spec v ""); [contradiction|]. auto.
    + apply TOKEN_REGEX_sound in E as [Es _].
      exists (Lexed (k, v) :: ps). cbn [pieces_text pieces_tokens fold_right
                                        flat_map piece_text app forallb skippable snd].
      fold (pieces_text ps). fold (pieces_tokens ps).
      rewrite Ht, Hk, Hs. auto.
  - destruct (IH (String.length s) ltac:(subst n; simpl; lia) s eq_refl
                (Some c)) as (ps & Ht & Hk & Hs).
    exists (Skipped (String c "") :: ps).
    cbn [pieces_text pieces_tokens fold_right flat_map piece_text app forallb
         skippable].
    fold (pieces_text ps). fold (pieces_tokens ps).
    rewrite Ht, Hk, Hs. simpl. rewrite orb_true_r. auto.
Qed.

(** X15.  The lexer cuts the text into consecutive pieces and returns some
    of them: the text of every token is a piece of the code, the tokens come
    in the order of the code, and what lies between them and is left out is
    made of runs of white space and of single characters. *)
Theorem lex_partition (code : string) :
  exists ps,
    pieces_text ps = code /\ pieces_tokens ps = lex code /\
    forallb skippable ps = true.
Proof. apply lex_from_pieces. Qed.

(* ------------------------------------------------------------------ *)
(** ** The rendering of an expression determines it *)

(** X16.  Full parenthesization is unambiguous: two expressions that
    [generate_code] renders to the same text are the same tree. *)
Theorem rendering_injective (t1 t2 : node) :
  expression t1 -> expression t2 ->
  generate_code t1 = generate_code t2 -> t1 = t2.
Proof.
  intros H1 H2 E.
  destruct (lex_expression t1 H1) as (s1 & G1 & _ & _ & L1).
  destruct (lex_expression t2 H2) as (s2 & G2 & _ & _ & L2).
  rewrite G1, G2 in E. injection E as <-.
  pose proof (parse_rendered_expression t1 H1) as P1.
  pose proof (parse_rendered_expression t2 H2) as P2.
  specialize (L1 None ";" eq_refl). specialize (L2 None ";" eq_refl).
  rewrite L1 in L2. apply List.app_inv_tail in L2.
  rewrite L2 in P1. rewrite P1 in P2. now injection P2.
Qed.

Lemma rendering_injective_witness :
  BinOp (BinOp (Number 1) "+" (Number 2)) "*" (Identifier "x") =
  BinOp (BinOp (Number 1) "+" (Number 2)) "*" (Identifier "x").
Proof.
  assert (H : expression (BinOp (BinOp (Number 1) "+" (Number 2)) "*"
                            (Identifier "x"))).
  { apply (expression_binop _ "MULTIPLY").
    - apply (expression_binop _ "PLUS"); [now apply expression_number | |
                                           now apply expression_number].
      simpl. auto.
    - simpl. auto.
    - now apply expression_identifier. }
  exact (rendering_injective _ _ H H eq_refl).
Defined.

(* ------------------------------------------------------------------ *)
(** ** A token that cannot start a statement *)

Lemma statement_stray n p k v :
  current_token p = Some (k, v) ->
  k <> "IF" -> k <> "IDENTIFIER" -> k <> "NUMBER" -> k <> "LPAREN" ->
  statement (S (S (S (S n)))) p =
  Raise (SyntaxError ("Erro de sintaxe: token inesperado '" ++ v ++ "'")).
Proof.
  intros Hc Hif Hid Hnum Hlp.
  apply String.eqb_neq in Hif, Hid, Hnum, Hlp.
  cbn [statement]. rewrite Hc, Hif, Hid. cbn [andb].
  unfold bind at 1. rewrite expr_eq. unfold bind at 1. rewrite term_eq.
  unfold bind at 1. cbn [factor]. now rewrite Hc, Hnum, Hid, Hlp.
Qed.

(** X17.  A statement starts with [if], an identifier, a number or an
    opening parenthesis.  Any other token at the start of the program, or
    (unless it is an [else]) after a sequence of tokens [parse] accepts, is
    the [SyntaxError] of [factor] for that token, whatever follows it. *)
Theorem stray_token (k v : string) (rest : list token) :
  k <> "IF" -> k <> "IDENTIFIER" -> k <> "NUMBER" -> k <> "LPAREN" ->
  parse (Parser_init ((k, v) :: rest)) =
    Raise (SyntaxError ("Erro de sintaxe: token inesperado '" ++ v ++ "'")) /\
  forall t1 l1, k <> "ELSE" ->
    parse (Parser_init t1) = Ok (Block l1) ->
    parse (Parser_init (t1 ++ (k, v) :: rest)) =
    Raise (SyntaxError ("Erro de sintaxe: token inesperado '" ++ v ++ "'")).
Proof.
  intros Hif Hid Hnum Hlp.
  assert (H : parse (Parser_init ((k, v) :: rest)) =
              Raise (SyntaxError ("Erro de sintaxe: token inesperado '"
                                  ++ v ++ "'"))).
  { apply (parse_first_raises 4); [|discriminate].
    now apply (statement_stray 0 _ k v). }
  split; [exact H|]. intros t1 l1 Helse H1.
  assert (He : starts_else ((k, v) :: rest) = false)
    by (simpl; now apply String.eqb_neq).
  destruct (parse_loop_concat t1 _ l1 H1 He) as (n & Hn).
  unfold parse in H.
  destruct (parse_loop _ [] (Parser_init ((k, v) :: rest))) as [[l q]|e|];
    try discriminate.
  injection H as ->. exact (parse_any_fuel_raise _ _ _ Hn).
Qed.

Lemma stray_token_witness :
  parse (Parser_init (("RBRACE", "}") :: lex "x = 1;")) =
    Raise (SyntaxError ("Erro de sintaxe: token inesperado '" ++ "}" ++ "'")) /\
  parse (Parser_init (lex "x = 1;" ++ ("RBRACE", "}") :: lex "y = 2;")) =
    Raise (SyntaxError ("Erro de sintaxe: token inesperado '" ++ "}" ++ "'")).
Proof.
  destruct (stray_token "RBRACE" "}" (lex "x = 1;")
              ltac:(discriminate) ltac:(discriminate)
              ltac:(discriminate) ltac:(discriminate)) as [H _].
  destruct (stray_token "RBRACE" "}" (lex "y = 2;")
              ltac:(discriminate) ltac:(discriminate)
              ltac:(discriminate) ltac:(discriminate)) as [_ H'].
  split; [exact H|].
  apply (H' (lex "x = 1;") [Assignment (Identifier "x") (Number 1)]);
    [discriminate | reflexivity].
Defined.


(* ------------------------------------------------------------------ *)
(** ** An [else] after two [if]s *)

(** A branch that does not start with a brace is a statement. *)
Lemma branch_is_statement n (toks : list token) :
  statement_start toks = true ->
  block_or_statement (S n) (Parser_init toks) = statement n (Parser_init toks).
Proof.
  destruct toks as [|[k v] toks]; [discriminate|]. simpl statement_start.
  intros H. cbn [block_or_statement]. rewrite Parser_init_cons.
  cbn [current_token].
  apply orb_true_iff in H as [H|H]; apply String.eqb_eq in H; now subst k.
Qed.

(** The rendering of a statement that round-trips is not empty. *)
Lemma lexes_to_nonempty (text : string) (toks : list token) :
  lexes_to text toks -> statement_start toks = true -> String.eqb text "" = false.
Proof.
  intros L Hs. destruct text; [|reflexivity].
  specialize (L None "" eq_refl). simpl in L.
  destruct toks; discriminate.
Qed.

(** X18.  An [else] belongs to the nearest [if].  In
    [if (c1) if (c2) x = v; else B] the [else] is taken by the inner [if],
    which becomes the then branch of the outer one; the outer [if] has no
    else branch.  The output shows it, with the inner [if] inside the braces
    of the outer one (and indented by two spaces on its first line only). *)
Theorem dangling_else (c1 c2 v B : node) (x s1 s2 a b : string) :
  expression c1 -> expression c2 ->
  plain_name x = true -> expression v -> closed false B = true ->
  generate_code c1 = Ok s1 -> generate_code c2 = Ok s2 ->
  generate_code (Assignment (Identifier x) v) = Ok a ->
  generate_code B = Ok b ->
  parse (Parser_init
           (lex ("if (" ++ s1 ++ ") if (" ++ s2 ++ ") " ++ a ++ " else " ++ b))) =
    Ok (Block [IfStatement c1
                 (IfStatement c2 (Assignment (Identifier x) v)
                    (Some (reparsed false B)))
                 None]) /\
  compile_code ("if (" ++ s1 ++ ") if (" ++ s2 ++ ") " ++ a ++ " else " ++ b) =
    Ok ("if (" ++ s1 ++ ") {" ++ nl ++ "  "
        ++ ("if (" ++ s2 ++ ") {" ++ nl ++ "  " ++ a ++ nl ++ "}"
            ++ " else {" ++ nl ++ "  " ++ b ++ nl ++ "}")
        ++ nl ++ "}").
Proof.
  intros Hc1 Hc2 Hx Hv HB G1 G2 GA GB.
  destruct (assignment_round_trips x v Hx Hv) as (a' & GA' & LA & SA & _ & _).
  rewrite GA in GA'. injection GA' as <-.
  destruct (proj1 (closed_round_trips B) HB)
    as (b' & GB' & LB & SB & (nB & PB) & RB).
  rewrite GB in GB'. injection GB' as <-.
  pose proof (lexes_to_nonempty b _ LB SB) as Hb.
  destruct (assignment_parses x v Hv) as (nA & PA).
  destruct (if_head c1 Hc1) as (n1 & H1).
  destruct (if_head c2 Hc2) as (n2 & H2).
  set (A := Assignment (Identifier x) v) in *.
  set (inner := IfStatement c2 A (Some (reparsed false B))).
  assert (Hlex : lex ("if (" ++ s1 ++ ") if (" ++ s2 ++ ") " ++ a ++ " else " ++ b) =
                 (("IF", "if") :: ("LPAREN", "(") :: expr_tokens c1
                  ++ ("RPAREN", ")") :: ("IF", "if") :: ("LPAREN", "(")
                  :: expr_tokens c2 ++ ("RPAREN", ")")
                  :: statement_tokens A ++ ("ELSE", "else")
                  :: statement_tokens B)%list).
  { unfold lex. rewrite <- (string_app_nil b).
    change ("if (" ++ s1 ++ ") if (" ++ s2 ++ ") " ++ a ++ " else " ++ b ++ "")
      with ("if (" ++ s1 ++ ")"
            ++ String " " ("if (" ++ s2 ++ ")"
               ++ String " " (a ++ String " " (String "e" (String "l"
                    (String "s" (String "e" (String " " (b ++ ""))))))))).
    rewrite (lex_if_head c1 s1 Hc1 G1) by reflexivity.
    rewrite lex_space_char by reflexivity.
    rewrite (lex_if_head c2 s2 Hc2 G2) by reflexivity.
    rewrite lex_space_char by reflexivity.
    rewrite (LA None _ eq_refl). rewrite lex_space_char by reflexivity.
    rewrite lex_else by reflexivity. rewrite (LB None "" eq_refl).
    change (lex_from None "") with (@nil token). now rewrite List.app_nil_r. }
  set (k := n1 + n2 + nA + nB).
  assert (HBp : block_or_statement (S k) (Parser_init (statement_tokens B)) =
                Ok (reparsed false B, Parser_init [])).
  { rewrite branch_is_statement by exact SB.
    rewrite <- (List.app_nil_r (statement_tokens B)).
    apply PB; [unfold k; lia | reflexivity]. }
  assert (HAp : block_or_statement (S k)
                  (Parser_init (statement_tokens A
                                ++ ("ELSE", "else") :: statement_tokens B)) =
                Ok (A, Parser_init (("ELSE", "else") :: statement_tokens B))).
  { rewrite branch_is_statement by reflexivity.
    unfold A. cbn [statement_tokens app]. rewrite <- List.app_assoc. cbn [app].
    apply PA. unfold k; lia. }
  assert (Hin : block_or_statement (S (S (S (S k))))
                  (Parser_init (("IF", "if") :: ("LPAREN", "(")
                     :: expr_tokens c2 ++ ("RPAREN", ")")
                     :: statement_tokens A ++ ("ELSE", "else")
                     :: statement_tokens B)) =
                Ok (inner, Parser_init [])).
  { rewrite branch_is_statement by reflexivity.
    rewrite (statement_if _ _ "if") by reflexivity.
    etransitivity; [apply (H2 (S k)); unfold k; lia|].
    rewrite (bind_Ok _ _ _ _ _ HAp). now apply else_part_some. }
  assert (Hp : parse (Parser_init
                 (lex ("if (" ++ s1 ++ ") if (" ++ s2 ++ ") " ++ a ++ " else " ++ b))) =
               Ok (Block [IfStatement c1 inner None])).
  { rewrite Hlex.
    apply (parse_one_statement (S (S (S (S (S (S k))))))); [|discriminate].
    rewrite (statement_if _ _ "if") by reflexivity.
    etransitivity; [apply (H1 (S (S (S (S k))))); unfold k; lia|].
    rewrite (bind_Ok _ _ _ _ _ Hin). now apply else_part_none. }
  split; [exact Hp|].
  unfold compile_code. rewrite Hp. cbn [rbind].
  rewrite generate_code_block. cbn [generate_each].
  assert (Gin : generate_code inner =
                Ok ("if (" ++ s2 ++ ") {" ++ nl ++ "  " ++ a ++ nl ++ "}"
                    ++ " else {" ++ nl ++ "  " ++ b ++ nl ++ "}")).
  { unfold inner. rewrite (generate_if c2 A (Some (reparsed false B)) s2 a b G2 GA RB).
    now rewrite Hb. }
  now rewrite (generate_if c1 inner None s1 _ "" G1 Gin eq_refl).
Qed.

Lemma dangling_else_witness :
  parse (Parser_init
           (lex ("if (" ++ "a" ++ ") if (" ++ "b" ++ ") " ++ "x = 1;"
                 ++ " else " ++ "x = 2;"))) =
    Ok (Block [IfStatement (Identifier "a")
                 (IfStatement (Identifier "b")
                    (Assignment (Identifier "x") (Number 1))
                    (Some (reparsed false (Assignment (Identifier "x") (Number 2)))))
                 None]) /\
  compile_code ("if (" ++ "a" ++ ") if (" ++ "b" ++ ") " ++ "x = 1;"
                ++ " else " ++ "x = 2;") =
    Ok ("if (" ++ "a" ++ ") {" ++ nl ++ "  "
        ++ ("if (" ++ "b" ++ ") {" ++ nl ++ "  " ++ "x = 1;" ++ nl ++ "}"
            ++ " else {" ++ nl ++ "  " ++ "x = 2;" ++ nl ++ "}")
        ++ nl ++ "}").
Proof.
  apply (dangling_else (Identifier "a") (Identifier "b") (Number 1)
           (Assignment (Identifier "x") (Number 2)) "x" "a" "b" "x = 1;" "x = 2;");
    try reflexivity.
  - now apply expression_identifier.
  - now apply expression_identifier.
  - now apply expression_number.
Defined.


(* ------------------------------------------------------------------ *)
(** ** Flat sequences of operators: precedence and associativity *)

Lemma lexed_operator_spec (level : list string) (o : token) :
  lexed_operator level o = true ->
  kind_in (fst o) level = true /\ In o lexed_operators.
Proof.
  unfold lexed_operator. intros H. apply andb_true_iff in H as [Hk He].
  split; [exact Hk|]. apply existsb_exists in He as ([n op] & Hin & Heq).
  destruct o as [name o]. simpl in Heq.
  apply andb_true_iff in Heq as [H1 H2].
  apply String.eqb_eq in H1, H2. now subst.
Qed.

Lemma term_stops_init (more : list token) :
  term_stops more = true ->
  forall n acc, term_loop (S n) acc (Parser_init more) = Ok (acc, Parser_init more).
Proof.
  intros H n acc. rewrite term_loop_eq.
  destruct more as [|[k v] more]; [reflexivity|].
  rewrite Parser_init_cons. cbn [current_token]. cbn [term_stops] in H.
  apply negb_true_iff in H. now rewrite H.
Qed.

(** The loop of [term] over operators of its level and their factors. *)
Lemma term_loop_chain (rest : list (token * node)) :
  forallb (fun e => lexed_operator term_ops (fst e) && plain_expression (snd e))
          rest = true ->
  exists n, forall m acc more, n <= m -> term_stops more = true ->
    term_loop m acc
      (Parser_init (flat_map (fun e => fst e :: expr_tokens (snd e)) rest ++ more)) =
    Ok (left_nested acc rest, Parser_init more).
Proof.
  induction rest as [|[[name op] t] rest IH]; intros H.
  - exists 1. intros m acc more Hm Hs. destruct m as [|m]; [lia|].
    now apply term_stops_init.
  - cbn [forallb fst snd] in H. apply andb_true_iff in H as [H Hrest].
    apply andb_true_iff in H as [Hop Ht].
    destruct (lexed_operator_spec _ _ Hop) as [Hk _]. cbn [fst] in Hk.
    destruct (factor_expression t (plain_expression_spec t Ht)) as (nf & Hf).
    destruct (IH Hrest) as (nr & Hr).
    exists (S (Nat.max nf nr)). intros m acc more Hm Hs.
    destruct m as [|m]; [lia|].
    cbn [flat_map fst snd app]. rewrite <- List.app_assoc.
    rewrite Parser_init_cons.
    rewrite (term_loop_step m acc _ name op t
               (Parser_init (flat_map (fun e => fst e :: expr_tokens (snd e)) rest
                             ++ more))); [| reflexivity | exact Hk |].
    + cbn [left_nested fold_left fst snd]. apply Hr; [lia | exact Hs].
    + apply (factor_enough nf); [apply Hf | lia].
Qed.

(** [term] on a product. *)
Lemma term_chain (p : product) :
  is_product p = true ->
  exists n, forall m more, n <= m -> term_stops more = true ->
    term m (Parser_init (product_tokens p ++ more)) =
    Ok (product_tree p, Parser_init more).
Proof.
  destruct p as [t rest]. unfold is_product, product_tokens, product_tree.
  cbn [fst snd]. intros H. apply andb_true_iff in H as [Ht Hrest].
  destruct (factor_expression t (plain_expression_spec t Ht)) as (nf & Hf).
  destruct (term_loop_chain rest Hrest) as (nr & Hr).
  exists (S (Nat.max nf nr)). intros m more Hm Hs.
  destruct m as [|m]; [lia|]. rewrite <- List.app_assoc.
  rewrite (term_of_factor m _ t
             (Parser_init (flat_map (fun e => fst e :: expr_tokens (snd e)) rest
                           ++ more))).
  - apply Hr; [lia | exact Hs].
  - apply (factor_enough nf); [apply Hf | lia].
Qed.

Lemma no_operator_stops (more : list token) :
  no_operator (Parser_init more) = true ->
  term_stops more = true /\
  forall n acc, expr_loop (S n) acc (Parser_init more) = Ok (acc, Parser_init more).
Proof.
  intros H. split.
  - destruct more as [|[k v] more]; [reflexivity|].
    unfold no_operator in H. rewrite Parser_init_cons in H.
    cbn [current_token] in H. cbn [term_stops].
    apply negb_true_iff, orb_false_iff in H as [_ H]. now rewrite H.
  - intros n acc. apply (loops_stop _ n acc H).
Qed.

(** The loop of [expr] over operators of its level and their products. *)
Lemma expr_loop_chain (rest : list (token * product)) :
  forallb (fun e => lexed_operator expr_ops (fst e) && is_product (snd e))
          rest = true ->
  exists n, forall m acc more, n <= m -> no_operator (Parser_init more) = true ->
    expr_loop m acc
      (Parser_init (flat_map (fun e => fst e :: product_tokens (snd e)) rest
                    ++ more)) =
    Ok (left_nested acc (map (fun e => (fst e, product_tree (snd e))) rest),
        Parser_init more).
Proof.
  induction rest as [|[[name op] p] rest IH]; intros H.
  - exists 1. intros m acc more Hm Hs. destruct m as [|m]; [lia|].
    now apply no_operator_stops.
  - cbn [forallb fst snd] in H. apply andb_true_iff in H as [H Hrest].
    apply andb_true_iff in H as [Hop Hp].
    destruct (lexed_operator_spec _ _ Hop) as [Hk _]. cbn [fst] in Hk.
    destruct (term_chain p Hp) as (nt & Ht).
    destruct (IH Hrest) as (nr & Hr).
    exists (S (Nat.max nt nr)). intros m acc more Hm Hs.
    destruct m as [|m]; [lia|].
    cbn [flat_map map fst snd app]. rewrite <- List.app_assoc.
    rewrite Parser_init_cons.
    rewrite (expr_loop_step m acc _ name op (product_tree p)
               (Parser_init (flat_map (fun e => fst e :: product_tokens (snd e)) rest
                             ++ more))); [| reflexivity | exact Hk |].
    + cbn [left_nested fold_left fst snd]. apply Hr; [lia | exact Hs].
    + apply Ht; [lia|].
      destruct rest as [|[[name' op'] p'] rest'].
      * now apply no_operator_stops.
      * cbn [forallb fst snd] in Hrest.
        apply andb_true_iff in Hrest as [H' _].
        apply andb_true_iff in H' as [Hop' _].
        destruct (lexed_operator_spec _ _ Hop') as [Hk' Hin'].
        cbn [fst] in Hk'. cbn [flat_map fst app term_stops].
        rewrite (lexed_operator_level name' op' Hin') in Hk'. exact Hk'.
Qed.

(** X19.  Precedence and associativity in general.  On a flat sequence of
    operands and operators of any length, [expr] builds the tree in which
    each run of factors joined by [*] and [/] is nested to the left, and
    these products, joined by the additive and comparison operators, are
    nested to the left again.  The operands are any rendered expressions (a
    [BinOp] in its parentheses); the sequence ends before a token that is no
    operator. *)
Theorem operator_chains (s : sum) :
  is_sum s = true ->
  exists n, forall m more, n <= m -> no_operator (Parser_init more) = true ->
    expr m (Parser_init (sum_tokens s ++ more)) =
    Ok (sum_tree s, Parser_init more).
Proof.
  destruct s as [p rest]. unfold is_sum, sum_tokens, sum_tree. cbn [fst snd].
  intros H. apply andb_true_iff in H as [Hp Hrest].
  destruct (term_chain p Hp) as (nt & Ht).
  destruct (expr_loop_chain rest Hrest) as (nr & Hr).
  exists (S (Nat.max nt nr)). intros m more Hm Hs.
  destruct m as [|m]; [lia|]. rewrite <- List.app_assoc.
  rewrite (expr_of_term m _ (product_tree p)
             (Parser_init (flat_map (fun e => fst e :: product_tokens (snd e)) rest
                           ++ more))).
  - apply Hr; [lia | exact Hs].
  - apply Ht; [lia|].
    destruct rest as [|[[name' op'] p'] rest'].
    + now apply no_operator_stops.
    + cbn [forallb fst snd] in Hrest.
      apply andb_true_iff in Hrest as [H' _].
      apply andb_true_iff in H' as [Hop' _].
      destruct (lexed_operator_spec _ _ Hop') as [Hk' Hin'].
      cbn [fst] in Hk'. cbn [flat_map fst app term_stops].
      rewrite (lexed_operator_level name' op' Hin') in Hk'. exact Hk'.
Qed.

Lemma operator_chains_witness :
  exists n, forall m more, n <= m -> no_operator (Parser_init more) = true ->
    expr m (Parser_init
              (sum_tokens
                 ((Number 1, []),
                  [(("MINUS", "-"),
                    (Number 2, [(("MULTIPLY", "*"), Identifier "x");
                                (("DIVIDE", "/"), BinOp (Number 3) "+" (Number 4))]));
                   (("LT", "<"), (Number 5, []))])
               ++ more)) =
    Ok (sum_tree
          ((Number 1, []),
           [(("MINUS", "-"),
             (Number 2, [(("MULTIPLY", "*"), Identifier "x");
                         (("DIVIDE", "/"), BinOp (Number 3) "+" (Number 4))]));
            (("LT", "<"), (Number 5, []))]),
        Parser_init more).
Proof.
  apply (operator_chains
           ((Number 1, []),
            [(("MINUS", "-"),
              (Number 2, [(("MULTIPLY", "*"), Identifier "x");
                          (("DIVIDE", "/"), BinOp (Number 3) "+" (Number 4))]));
             (("LT", "<"), (Number 5, []))])).
  reflexivity.
Defined.


(* ------------------------------------------------------------------ *)
(** ** The messages of the parser *)

Lemma within_next toks p t :
  current_token p = Some t -> within toks p ->
  number_ok t = true /\ In t toks /\ within toks (next_token_of p).
Proof.
  unfold within. intros Hc. rewrite (remaining_current p t Hc).
  intros H. inversion H as [|? ? [Hn Hi] Hrest]; subst. auto.
Qed.

Lemma within_parsed toks least pre W p a q :
  parsed least pre W p a q -> within toks p -> within toks q.
Proof.
  unfold within. intros (c & Hr & _). rewrite Hr.
  intros H. now apply Forall_app in H.
Qed.

Lemma reported_unexpected toks k v :
  In (k, v) toks ->
  reported toks (SyntaxError ("Erro de sintaxe: token inesperado '" ++ v ++ "'"))
  = true.
Proof.
  intros H. cbn [reported]. apply orb_true_iff. left. apply orb_true_iff. right.
  apply existsb_exists. exists v. split; [|apply String.eqb_refl].
  apply in_map_iff. now exists (k, v).
Qed.

Lemma reported_expected toks k v :
  In k missed_kinds -> In v (found_texts toks) ->
  reported toks
    (SyntaxError ("Esperado '" ++ k ++ "' mas encontrado '" ++ v ++ "'")) = true.
Proof.
  intros Hk Hv. cbn [reported]. apply orb_true_iff. right.
  apply existsb_exists. exists k. split; [exact Hk|].
  apply existsb_exists. exists v. split; [exact Hv | apply String.eqb_refl].
Qed.

(** An [expect] that can fail. *)
Lemma reports_expect {B} toks token_type (k : unit -> M B) p :
  In token_type missed_kinds -> within toks p ->
  (forall v, current_token p = Some (token_type, v) ->
     raises_only (reported toks) (k tt (next_token_of p))) ->
  raises_only (reported toks) (bind (expect token_type) k p).
Proof.
  intros Hk Hw Hnext. apply raises_bind.
  - unfold expect, next_token.
    destruct (current_token p) as [[k' v]|] eqn:Hc.
    + destruct (String.eqb k' token_type); [apply raises_ok|].
      apply raises_raise, reported_expected; [exact Hk|].
      destruct (within_next _ _ _ Hc Hw) as (_ & Hin & _).
      right. apply in_map_iff. now exists (k', v).
    + apply raises_raise.
      apply (reported_expected toks token_type "EOF" Hk). now left.
  - intros [] q H. apply expect_ok in H as (v & Hc & ->). eauto.
Qed.

(** An [expect] behind a test of the same kind. *)
Lemma reports_guarded {B} (P : exn -> bool) token_type v (k : unit -> M B) p :
  current_token p = Some (token_type, v) ->
  raises_only P (k tt (next_token_of p)) ->
  raises_only P (bind (expect token_type) k p).
Proof. intros Hc H. now rewrite (expect_bind _ _ _ _ Hc). Qed.

Lemma expr_group_reports toks (n : nat) :
  (forall p, within toks p -> raises_only (reported toks) (expr n p)) /\
  (forall r p, within toks p -> raises_only (reported toks) (expr_loop n r p)) /\
  (forall p, within toks p -> raises_only (reported toks) (term n p)) /\
  (forall r p, within toks p -> raises_only (reported toks) (term_loop n r p)) /\
  (forall p, within toks p -> raises_only (reported toks) (factor n p)).
Proof.
  induction n as [|n (He & Hel & Ht & Htl & Hf)].
  - repeat split; intros; apply raises_out.
  - pose proof (expr_group_parsed n) as (Pe & _ & Pt & _ & Pf).
    repeat split; intros *; cbn [expr expr_loop term term_loop factor]; intros Hw.
    + apply raises_bind; [now apply Ht|].
      intros a q H. apply Hel. exact (within_parsed _ _ _ _ _ _ _ (Pt _ _ _ H) Hw).
    + destruct (current_token p) as [[k op]|] eqn:Hc; [|apply raises_ok].
      destruct (kind_in k expr_ops); [|apply raises_ok].
      destruct (within_next _ _ _ Hc Hw) as (_ & _ & Hw').
      apply raises_next, raises_bind; [now apply Ht|].
      intros a q H. apply Hel. exact (within_parsed _ _ _ _ _ _ _ (Pt _ _ _ H) Hw').
    + apply raises_bind; [now apply Hf|].
      intros a q H. apply Htl. exact (within_parsed _ _ _ _ _ _ _ (Pf _ _ _ H) Hw).
    + destruct (current_token p) as [[k op]|] eqn:Hc; [|apply raises_ok].
      destruct (kind_in k term_ops); [|apply raises_ok].
      destruct (within_next _ _ _ Hc Hw) as (_ & _ & Hw').
      apply raises_next, raises_bind; [now apply Hf|].
      intros a q H. apply Htl. exact (within_parsed _ _ _ _ _ _ _ (Pf _ _ _ H) Hw').
    + destruct (current_token p) as [[k v]|] eqn:Hc; [|now apply raises_raise].
      destruct (within_next _ _ _ Hc Hw) as (Hk & Hin & Hw').
      unfold number_ok in Hk. cbn [fst snd] in Hk.
      destruct (String.eqb k "NUMBER").
      { unfold bind, lift, next_token, ret.
        destruct (py_int v); [apply raises_ok | discriminate | discriminate]. }
      destruct (String.eqb k "IDENTIFIER"); [apply raises_next, raises_ok|].
      destruct (String.eqb k "LPAREN");
        [|apply raises_raise; exact (reported_unexpected _ _ _ Hin)].
      apply raises_next, raises_bind; [now apply He|].
      intros a q H.
      apply reports_expect; [simpl; auto | | intros; apply raises_ok].
      exact (within_parsed _ _ _ _ _ _ _ (Pe _ _ _ H) Hw').
Qed.

Lemma expr_reports toks n p :
  within toks p -> raises_only (reported toks) (expr n p).
Proof. apply (expr_group_reports toks n). Qed.

(** [assignment] as [statement] calls it. *)
Lemma assignment_reports toks n p v :
  within toks p -> current_token p = Some ("IDENTIFIER", v) ->
  lookahead "ASSIGN" p = true ->
  raises_only (reported toks) (assignment n p).
Proof.
  intros Hw Hc Hl. unfold assignment. rewrite Hc.
  apply (reports_guarded _ _ v); [exact Hc|].
  destruct (within_next _ _ _ Hc Hw) as (_ & _ & Hw1).
  unfold lookahead in Hl. destruct (tokens p) as [|[k1 v1] ts] eqn:Et;
    [discriminate|].
  cbn [fst] in Hl. apply String.eqb_eq in Hl. subst k1.
  assert (Hc1 : current_token (next_token_of p) = Some ("ASSIGN", v1))
    by (unfold next_token_of; now rewrite Et).
  apply (reports_guarded _ _ v1); [exact Hc1|].
  destruct (within_next _ _ _ Hc1 Hw1) as (_ & _ & Hw2).
  apply raises_bind; [now apply expr_reports|].
  intros a q H.
  apply reports_expect; [simpl; auto | | intros; apply raises_ok].
  exact (within_parsed _ _ _ _ _ _ _ (expr_parsed _ _ _ _ H) Hw2).
Qed.

Lemma statement_group_reports toks (n : nat) :
  (forall p, within toks p -> raises_only (reported toks) (statement n p)) /\
  (forall p v, within toks p -> current_token p = Some ("IF", v) ->
     raises_only (reported toks) (if_statement n p)) /\
  (forall p, within toks p ->
     raises_only (reported toks) (block_or_statement n p)) /\
  (forall l p, within toks p -> raises_only (reported toks) (block_loop n l p)).
Proof.
  induction n as [|n (Hs & Hi & Hb & Hl)].
  - repeat split; intros; apply raises_out.
  - pose proof (statement_group_parsed n) as (Ps & _ & Pb & Pl).
    repeat split; intros *;
      cbn [statement if_statement block_or_statement block_loop]; intros Hw.
    + destruct (current_token p) as [[k v]|] eqn:Hc; [|now apply raises_raise].
      destruct (String.eqb_spec k "IF") as [->|_]; [now apply (Hi p v)|].
      destruct (String.eqb_spec k "IDENTIFIER") as [->|_]; cbn [andb].
      * destruct (lookahead "ASSIGN" p) eqn:El;
          [now apply (assignment_reports toks n p v)|].
        apply raises_bind; [now apply expr_reports|].
        intros a q H.
        apply reports_expect; [simpl; auto | | intros; apply raises_ok].
        exact (within_parsed _ _ _ _ _ _ _ (expr_parsed _ _ _ _ H) Hw).
      * apply raises_bind; [now apply expr_reports|].
        intros a q H.
        apply reports_expect; [simpl; auto | | intros; apply raises_ok].
        exact (within_parsed _ _ _ _ _ _ _ (expr_parsed _ _ _ _ H) Hw).
    + intros Hc. apply (reports_guarded _ _ v); [exact Hc|].
      destruct (within_next _ _ _ Hc Hw) as (_ & _ & Hw0).
      apply reports_expect; [simpl; auto | exact Hw0 |]. intros v1 Hc1.
      destruct (within_next _ _ _ Hc1 Hw0) as (_ & _ & Hw1).
      apply raises_bind; [now apply expr_reports|].
      intros condition q H.
      pose proof (within_parsed _ _ _ _ _ _ _ (expr_parsed _ _ _ _ H) Hw1) as Hq.
      apply reports_expect; [simpl; auto | exact Hq |]. intros v2 Hc2.
      destruct (within_next _ _ _ Hc2 Hq) as (_ & _ & Hw2).
      apply raises_bind; [now apply Hb|].
      intros then_branch q' H'.
      pose proof (within_parsed _ _ _ _ _ _ _ (Pb _ _ _ H') Hw2) as Hq'.
      destruct (current_token q') as [[k v3]|] eqn:Hc3; [|apply raises_ok].
      destruct (String.eqb k "ELSE"); [|apply raises_ok].
      destruct (within_next _ _ _ Hc3 Hq') as (_ & _ & Hw3).
      apply raises_next, raises_bind; [now apply Hb|].
      intros; apply raises_ok.
    + destruct (current_token p) as [[k v]|] eqn:Hc; [|now apply Hs].
      destruct (String.eqb_spec k "LBRACE") as [->|_]; [|now apply Hs].
      apply (reports_guarded _ _ v); [exact Hc|].
      destruct (within_next _ _ _ Hc Hw) as (_ & _ & Hw0).
      apply raises_bind; [now apply Hl|].
      intros a q H.
      apply reports_expect; [simpl; auto | | intros; apply raises_ok].
      exact (within_parsed _ _ _ _ _ _ _ (Pl _ _ _ _ H) Hw0).
    + destruct (current_token p) as [[k v]|] eqn:Hc; [|apply raises_ok].
      destruct (String.eqb k "RBRACE"); [apply raises_ok|].
      apply raises_bind; [now apply Hs|].
      intros a q H. apply Hl. exact (within_parsed _ _ _ _ _ _ _ (Ps _ _ _ H) Hw).
Qed.

Lemma parse_loop_reports toks (n : nat) :
  forall l p, within toks p -> raises_only (reported toks) (parse_loop n l p).
Proof.
  induction n as [|n IH]; intros l p Hw; [apply raises_out|].
  cbn [parse_loop]. destruct (current_token p); [|apply raises_ok].
  apply raises_bind; [now apply (statement_group_reports toks n)|].
  intros a q H. apply IH.
  exact (within_parsed _ _ _ _ _ _ _ (statement_parsed _ _ _ _ H) Hw).
Qed.

Lemma parse_reports (toks : list token) :
  forallb number_ok toks = true ->
  raises_only (reported toks) (parse (Parser_init toks)).
Proof.
  intros Hn e. unfold parse.
  assert (Hw : within toks (Parser_init toks)).
  { unfold within. rewrite remaining_init. apply Forall_forall. intros t Ht.
    split; [|exact Ht]. revert t Ht. now apply forallb_forall. }
  pose proof (parse_loop_reports toks (parse_fuel (Parser_init toks)) []
                (Parser_init toks) Hw e) as H.
  destruct (parse_loop _ _ _) as [[l q]|e'|]; [discriminate | | discriminate].
  intros [= <-]. now apply H.
Qed.

Lemma reported_cases toks e :
  reported toks e = true ->
  e = none_not_subscriptable \/
  e = SyntaxError "Erro de sintaxe: token inesperado no final da entrada" \/
  (exists v, In v (map snd toks) /\
     e = SyntaxError ("Erro de sintaxe: token inesperado '" ++ v ++ "'")) \/
  (exists k v, In k missed_kinds /\ In v (found_texts toks) /\
     e = SyntaxError ("Esperado '" ++ k ++ "' mas encontrado '" ++ v ++ "'")).
Proof.
  destruct e as [msg|msg|msg|msg]; cbn [reported]; try discriminate.
  - intros H. apply orb_true_iff in H as [H|H];
      [apply orb_true_iff in H as [H|H]|].
    + apply String.eqb_eq in H. subst msg. right. now left.
    + apply existsb_exists in H as (v & Hv & Heq).
      apply String.eqb_eq in Heq. subst msg. right. right. left. now exists v.
    + apply existsb_exists in H as (k & Hk & H).
      apply existsb_exists in H as (v & Hv & Heq).
      apply String.eqb_eq in Heq. subst msg. right. right. right.
      now exists k, v.
  - intros H. apply String.eqb_eq in H. subst msg. now left.
Qed.

(** X20.  The failures of the pipeline, with their messages, on a text
    whose tokens are within the limits of the interpreter.  A run that
    raises ends with the [TypeError] of a missing branch, or with a
    [SyntaxError] whose message is that of [factor] at the end of the input,
    that of [factor] for a token of the code, or that of [expect] naming the
    kind it wanted and, as found, the text of a token of the code or [EOF].
    The kinds [expect] names are [LPAREN], [RPAREN], [RBRACE] and
    [SEMICOLON] only: its calls for [IF], [IDENTIFIER], [ASSIGN] and
    [LBRACE] come after a test that the token is there and never fail. *)
Theorem failure_messages (code : string) (e : exn) :
  within_limits (lex code) = true ->
  compile_code code = Raise e ->
  e = none_not_subscriptable \/
  e = SyntaxError "Erro de sintaxe: token inesperado no final da entrada" \/
  (exists v, In v (map snd (lex code)) /\
     e = SyntaxError ("Erro de sintaxe: token inesperado '" ++ v ++ "'")) \/
  (exists k v, In k missed_kinds /\ In v (found_texts (lex code)) /\
     e = SyntaxError ("Esperado '" ++ k ++ "' mas encontrado '" ++ v ++ "'")).
Proof.
  unfold compile_code. intros _ H. apply reported_cases.
  pose proof (parse_reports (lex code) (lex_numbers code)) as Hr.
  destruct (parse (Parser_init (lex code))) as [ast|e'|] eqn:E;
    cbn [rbind] in H; [| |discriminate].
  - assert (Hg : exists s, generate_code ast = Ok s).
    { apply generate_code_named, well_formed_targets.
      apply (parse_spec _ _ E). apply lex_from_ok. }
    destruct Hg as [s Hs]. congruence.
  - injection H as <-. now apply Hr.
Qed.

Lemma failure_messages_witness :
  SyntaxError "Esperado 'RBRACE' mas encontrado 'EOF'" = none_not_subscriptable \/
  SyntaxError "Esperado 'RBRACE' mas encontrado 'EOF'" =
    SyntaxError "Erro de sintaxe: token inesperado no final da entrada" \/
  (exists v, In v (map snd (lex "if (x) { y = 1;")) /\
     SyntaxError "Esperado 'RBRACE' mas encontrado 'EOF'" =
     SyntaxError ("Erro de sintaxe: token inesperado '" ++ v ++ "'")) \/
  (exists k v, In k missed_kinds /\
     In v (found_texts (lex "if (x) { y = 1;")) /\
     SyntaxError "Esperado 'RBRACE' mas encontrado 'EOF'" =
     SyntaxError ("Esperado '" ++ k ++ "' mas encontrado '" ++ v ++ "'")).
Proof.
  apply (failure_messages "if (x) { y = 1;"); reflexivity.
Defined.
